(** * The HTTPProxy processor of Contour's DAG builder

    A shallow embedding of [internal/dag/httpproxy_processor.go]: the
    processor that walks a snapshot of HTTPProxy documents, validates
    them, follows their includes and fills the DAG builder with virtual
    hosts, routes and clusters, recording a status for every document.

    Go maps are unordered.  The snapshot's [httpproxies] map is a list of
    documents with pairwise distinct keys, given in the order in which
    the single [range] over it visits them; the maps the processor builds
    itself are association lists whose [range] order is chosen by the
    environment.  Mutation through pointers is explicit state passing. *)

From Stdlib Require Import ZArith Lia Ascii.
From stdpp Require Import base strings list gmap sets sorting.

Set Default Proof Using "Type".

(** ** Outcomes of a call

    A call returns, panics (a failed type assertion), or, in the model
    only, exhausts the recursion budget of the two include walks. *)

Inductive outcome (A : Type) : Type :=
  | Done (a : A)
  | Panicked
  | OutOfFuel.
Arguments Done {A} a.
Arguments Panicked {A}.
Arguments OutOfFuel {A}.

Global Instance outcome_bind : MBind outcome := λ A B k m,
  match m with
  | Done a => k a
  | Panicked => Panicked
  | OutOfFuel => OutOfFuel
  end.

(** ** The [strings], [sort] and [fmt] functions the processor calls *)

Module strings.

Fixpoint mem (c : ascii) (cutset : string) : bool :=
  match cutset with
  | EmptyString => false
  | String d rest => bool_decide (c = d) || mem c rest
  end.

(** [strings.TrimRight(s, cutset)].  Go trims runes; for the ASCII
    cutsets used here a byte equal to a cutset character is never part
    of a longer UTF-8 sequence, so trimming bytes is the same. *)
Fixpoint TrimRight (s cutset : string) : string :=
  match s with
  | EmptyString => EmptyString
  | String c rest =>
      match TrimRight rest cutset with
      | EmptyString => if mem c cutset then EmptyString else String c EmptyString
      | t => String c t
      end
  end.

(** [strings.Join(elems, sep)] *)
Definition Join (elems : list string) (sep : string) : string :=
  String.concat sep elems.

(** [strings.Contains(s, substr)] *)
Fixpoint Contains (s substr : string) : bool :=
  String.prefix substr s ||
  match s with
  | EmptyString => false
  | String _ rest => Contains rest substr
  end.

End strings.

Module sort.
(** [sort.Strings]: ascending byte-wise order.  Equal strings are
    indistinguishable, so every correct sort returns this list. *)
Definition Strings (l : list string) : list string := merge_sort String.le l.
End sort.

(** ** What the processor takes from the rest of the repository

    The API types of [apis/projectcontour/v1], the graph types of
    [dag.go], the validators of [conditions.go] and [policy.go], and the
    snapshot and builder lookups are declared outside the file at hand.
    The processor is verified for every implementation of them. *)

Class Env := {
  (** opaque stanzas of the HTTPProxy API *)
  HeaderMatchConditionSpec : Type;
  HeaderMatchConditionSpec_eq_dec :: EqDecision HeaderMatchConditionSpec;
  HeadersPolicySpec : Type;
  TimeoutPolicySpec : Type;
  RetryPolicySpec : Type;
  LoadBalancerPolicySpec : Type;
  HTTPHealthCheckPolicySpec : Type;
  TCPHealthCheckPolicySpec : Type;
  (** opaque graph and cluster data *)
  Secret : Type;
  Service : Type;
  HeadersPolicy : Type;
  HeaderMatchCondition : Type;
  TimeoutPolicy : Type;
  RetryPolicy : Type;
  HTTPHealthCheckPolicy : Type;
  TCPHealthCheckPolicy : Type;
  TLSVersion : Type;
  IntOrString : Type;
  (** fields of the opaque data that the processor reads *)
  Service_ExternalName : Service → string;
  Service_Protocol : Service → string;
  HeadersPolicy_HostRewrite : HeadersPolicy → string;
  Secret_Data : Secret → string → list Byte.byte;
  (** library functions: [%q] and [%d] of [fmt], [strings.TrimSpace] *)
  strconv_Quote : string → string;
  fmt_int : Z → string;
  strings_TrimSpace : string → string;
  (** iteration order of [range] over the maps built by the processor *)
  range_order : ∀ V : Type, list (string * V) → list (string * V);
  range_order_perm : ∀ V (m : list (string * V)), range_order V m ≡ₚ m;
}.

(** ** Graph model (package [dag]) *)

(** Modelled from the spec: the [MatchCondition] interface and its
    implementations are declared in [dag.go]; the spec names a prefix
    condition [PrefixMatchCondition{Prefix}] and an exact path. *)
Inductive MatchCondition : Type :=
  | PrefixMatchCondition (Prefix : string)
  | ExactMatchCondition (Path : string).

Global Instance MatchCondition_eq_dec : EqDecision MatchCondition.
Proof. solve_decision. Defined.

Section dag_types.
Context `{Env}.

Record PeerValidationContext := {
  CACertificate : Secret;
  SubjectName : string;
}.

Record Cluster := {
  Upstream : Service;
  cl_Protocol : string;
  UpstreamValidation : option PeerValidationContext;
  cl_LoadBalancerPolicy : string;
  Weight : Z;
  cl_HTTPHealthCheckPolicy : option HTTPHealthCheckPolicy;
  cl_TCPHealthCheckPolicy : option TCPHealthCheckPolicy;
  cl_RequestHeadersPolicy : option HeadersPolicy;
  cl_ResponseHeadersPolicy : option HeadersPolicy;
  SNI : string;
}.

Record Route := {
  PathMatchCondition : MatchCondition;
  HeaderMatchConditions : list HeaderMatchCondition;
  Clusters : list Cluster;
  MirrorPolicy : option Cluster;   (* the cluster of the [*MirrorPolicy] *)
  HTTPSUpgrade : bool;
  Websocket : bool;
  Route_TimeoutPolicy : TimeoutPolicy;
  Route_RetryPolicy : RetryPolicy;
  PrefixRewrite : string;
  RequestHeadersPolicy : option HeadersPolicy;
  ResponseHeadersPolicy : option HeadersPolicy;
}.

Definition set_PrefixRewrite (v : string) (r : Route) : Route :=
  {| PathMatchCondition := PathMatchCondition r;
     HeaderMatchConditions := HeaderMatchConditions r;
     Clusters := Clusters r; MirrorPolicy := MirrorPolicy r;
     HTTPSUpgrade := HTTPSUpgrade r; Websocket := Websocket r;
     Route_TimeoutPolicy := Route_TimeoutPolicy r; Route_RetryPolicy := Route_RetryPolicy r;
     PrefixRewrite := v;
     RequestHeadersPolicy := RequestHeadersPolicy r;
     ResponseHeadersPolicy := ResponseHeadersPolicy r |}.

Definition set_PathMatchCondition (v : MatchCondition) (r : Route) : Route :=
  {| PathMatchCondition := v;
     HeaderMatchConditions := HeaderMatchConditions r;
     Clusters := Clusters r; MirrorPolicy := MirrorPolicy r;
     HTTPSUpgrade := HTTPSUpgrade r; Websocket := Websocket r;
     Route_TimeoutPolicy := Route_TimeoutPolicy r; Route_RetryPolicy := Route_RetryPolicy r;
     PrefixRewrite := PrefixRewrite r;
     RequestHeadersPolicy := RequestHeadersPolicy r;
     ResponseHeadersPolicy := ResponseHeadersPolicy r |}.

Definition set_Clusters (v : list Cluster) (r : Route) : Route :=
  {| PathMatchCondition := PathMatchCondition r;
     HeaderMatchConditions := HeaderMatchConditions r;
     Clusters := v; MirrorPolicy := MirrorPolicy r;
     HTTPSUpgrade := HTTPSUpgrade r; Websocket := Websocket r;
     Route_TimeoutPolicy := Route_TimeoutPolicy r; Route_RetryPolicy := Route_RetryPolicy r;
     PrefixRewrite := PrefixRewrite r;
     RequestHeadersPolicy := RequestHeadersPolicy r;
     ResponseHeadersPolicy := ResponseHeadersPolicy r |}.

Definition set_MirrorPolicy (v : option Cluster) (r : Route) : Route :=
  {| PathMatchCondition := PathMatchCondition r;
     HeaderMatchConditions := HeaderMatchConditions r;
     Clusters := Clusters r; MirrorPolicy := v;
     HTTPSUpgrade := HTTPSUpgrade r; Websocket := Websocket r;
     Route_TimeoutPolicy := Route_TimeoutPolicy r; Route_RetryPolicy := Route_RetryPolicy r;
     PrefixRewrite := PrefixRewrite r;
     RequestHeadersPolicy := RequestHeadersPolicy r;
     ResponseHeadersPolicy := ResponseHeadersPolicy r |}.

(** [Route.HasPathPrefix] of [dag.go]: the path condition is a
    [*PrefixMatchCondition]. *)
Definition HasPathPrefix (r : Route) : bool :=
  match PathMatchCondition r with
  | PrefixMatchCondition _ => true
  | _ => false
  end.

(** ** [expandPrefixMatches] *)

(** [m[k] = append(m[k], v)] on a map kept in insertion order. *)
Fixpoint map_append {V} (k : string) (v : V) (m : list (string * list V))
    : list (string * list V) :=
  match m with
  | [] => [(k, [v])]
  | (k', vs) :: m' =>
      if decide (k = k') then (k', vs ++ [v]) :: m'
      else (k', vs) :: map_append k v m'
  end.

(** First loop: routes without a prefix condition are appended to the
    expanded set, and then the unchecked type assertion
    [r.PathMatchCondition.( *PrefixMatchCondition)] runs for every
    route, panicking when the route has no prefix condition. *)
Fixpoint groupByPrefix (routes : list Route)
    (expandedRoutes : list Route) (prefixedRoutes : list (string * list Route))
    : outcome (list Route * list (string * list Route)) :=
  match routes with
  | [] => Done (expandedRoutes, prefixedRoutes)
  | r :: rest =>
      let expandedRoutes :=
        if HasPathPrefix r then expandedRoutes else expandedRoutes ++ [r] in
      match PathMatchCondition r with
      | PrefixMatchCondition routingPrefix =>
          let routingPrefix :=
            if decide (routingPrefix = "/") then routingPrefix
            else strings.TrimRight routingPrefix "/" in
          groupByPrefix rest expandedRoutes (map_append routingPrefix r prefixedRoutes)
      | _ => Panicked
      end
  end.

(** Body of the second loop for one map entry: the routes as they
    stand in the expanded set once the entry has been handled.  The
    group's routes are appended first; the expansion then rewrites
    [routes[0]] through its pointer and appends the copy. *)
Definition expandGroup (prefix : string) (routes : list Route) : outcome (list Route) :=
  match routes with
  | [r0] =>
      if decide (String.length (PrefixRewrite r0) = 0) then Done routes
      else
        match PathMatchCondition r0 with
        | PrefixMatchCondition routingPrefix =>
            if decide (routingPrefix = "/") then Done routes
            else
              let newRoute := r0 in
              let r0 := set_PrefixRewrite (strings.TrimRight (PrefixRewrite r0) "/") r0 in
              let r0 := set_PathMatchCondition (PrefixMatchCondition prefix) r0 in
              let newRoute := set_PrefixRewrite (PrefixRewrite r0 +:+ "/") newRoute in
              let newRoute :=
                set_PathMatchCondition (PrefixMatchCondition (prefix +:+ "/")) newRoute in
              let r0 :=
                if decide (String.length (PrefixRewrite r0) = 0)
                then set_PrefixRewrite "/" r0 else r0 in
              Done [r0; newRoute]
        | _ => Panicked
        end
  | _ => Done routes
  end.

Fixpoint expandGroups (groups : list (string * list Route))
    (expandedRoutes : list Route) : outcome (list Route) :=
  match groups with
  | [] => Done expandedRoutes
  | (prefix, routes) :: rest =>
      rs ← expandGroup prefix routes;
      expandGroups rest (expandedRoutes ++ rs)
  end.

Definition expandPrefixMatches (routes : list Route) : outcome (list Route) :=
  '(expandedRoutes, prefixedRoutes) ← groupByPrefix routes [] [];
  expandGroups (range_order _ prefixedRoutes) expandedRoutes.

(** ** [determineSNI] *)

(** The non-empty [HostRewrite] of a headers policy that is present. *)
Definition hostRewriteOf (hp : option HeadersPolicy) : option string :=
  match hp with
  | Some hp =>
      if decide (HeadersPolicy_HostRewrite hp ≠ "")
      then Some (HeadersPolicy_HostRewrite hp) else None
  | None => None
  end.

Definition determineSNI (routeRequestHeaders clusterRequestHeaders : option HeadersPolicy)
    (service : Service) : string :=
  match hostRewriteOf clusterRequestHeaders with
  | Some host => host
  | None =>
      match hostRewriteOf routeRequestHeaders with
      | Some host => host
      | None => Service_ExternalName service
      end
  end.

(** [routeEnforceTLS] *)
Definition routeEnforceTLS (enforceTLS permitInsecure : bool) : bool :=
  enforceTLS && negb permitInsecure.

End dag_types.

(** ** Object keys *)

Record NamespacedName := {
  nn_Namespace : string;
  nn_Name : string;
}.

Global Instance NamespacedName_eq_dec : EqDecision NamespacedName.
Proof. solve_decision. Defined.

Global Instance NamespacedName_countable : Countable NamespacedName :=
  inj_countable' (λ m, (nn_Namespace m, nn_Name m))
    (λ p, {| nn_Namespace := p.1; nn_Name := p.2 |})
    (λ m, match m with Build_NamespacedName _ _ => eq_refl end).

(** [types.NamespacedName.String] and [fmt.Sprintf] of [%s/%s] *)
Definition slashed (namespace name : string) : string :=
  namespace +:+ "/" +:+ name.

(** ** The HTTPProxy API (package [projcontour])

    The fields are the ones the processor reads. *)

Module projcontour.
Section api.
Context `{Env}.

Record MatchCondition := {
  Prefix : string;
  Header : option HeaderMatchConditionSpec;
}.

Record Include := {
  inc_Name : string;
  inc_Namespace : string;
  inc_Conditions : list MatchCondition;
}.

Record UpstreamValidation := {
  uv_CACertificate : string;
  uv_SubjectName : string;
}.

Record DownstreamValidation := {
  dv_CACertificate : string;
}.

Record Service := {
  svc_Name : string;
  svc_Port : Z;
  svc_Protocol : option string;
  svc_Weight : Z;
  svc_UpstreamValidation : option UpstreamValidation;
  svc_Mirror : bool;
  svc_RequestHeadersPolicy : option HeadersPolicySpec;
  svc_ResponseHeadersPolicy : option HeadersPolicySpec;
}.

Record ReplacePrefix := {
  rp_Prefix : string;
  rp_Replacement : string;
}.

(** [rt_PrefixReplacements] is what [GetPrefixReplacements] returns. *)
Record Route := {
  rt_Conditions : list MatchCondition;
  rt_Services : list Service;
  rt_EnableWebsockets : bool;
  rt_PermitInsecure : bool;
  rt_TimeoutPolicy : option TimeoutPolicySpec;
  rt_RetryPolicy : option RetryPolicySpec;
  rt_HealthCheckPolicy : option HTTPHealthCheckPolicySpec;
  rt_LoadBalancerPolicy : option LoadBalancerPolicySpec;
  rt_PrefixReplacements : list ReplacePrefix;
  rt_RequestHeadersPolicy : option HeadersPolicySpec;
  rt_ResponseHeadersPolicy : option HeadersPolicySpec;
}.

Record TCPProxyInclude := {
  tpi_Name : string;
  tpi_Namespace : string;
}.

Record TCPProxy := {
  tcp_LoadBalancerPolicy : option LoadBalancerPolicySpec;
  tcp_Services : list Service;
  tcp_Include : option TCPProxyInclude;
  tcp_IncludesDeprecated : option TCPProxyInclude;
  tcp_HealthCheckPolicy : option TCPHealthCheckPolicySpec;
}.

Record TLS := {
  SecretName : string;
  MinimumProtocolVersion : string;
  Passthrough : bool;
  ClientValidation : option DownstreamValidation;
  EnableFallbackCertificate : bool;
}.

Record VirtualHost := {
  Fqdn : string;
  vh_TLS : option TLS;
}.

(** The document: its metadata and the stanzas of its [Spec]. *)
Record HTTPProxy := {
  Namespace : string;
  Name : string;
  Spec_VirtualHost : option VirtualHost;
  Spec_Routes : list Route;
  Spec_Includes : list Include;
  Spec_TCPProxy : option TCPProxy;
}.

End api.
End projcontour.

(** ** Validators, policy translators and lookups of the other files *)

Class Collaborators `{Env} := {
  (** [conditions.go]; an error is [Some] of its message *)
  pathMatchConditionsValid : list projcontour.MatchCondition → option string;
  headerMatchConditionsValid : list projcontour.MatchCondition → option string;
  mergePathMatchConditions : list projcontour.MatchCondition → MatchCondition;
  mergeHeaderMatchConditions : list projcontour.MatchCondition → list HeaderMatchCondition;
  (** [policy.go] *)
  headersPolicy : option HeadersPolicySpec → bool → string + option HeadersPolicy;
  timeoutPolicy : option TimeoutPolicySpec → TimeoutPolicy;
  retryPolicy : option RetryPolicySpec → RetryPolicy;
  loadBalancerPolicy : option LoadBalancerPolicySpec → string;
  httpHealthCheckPolicy : option HTTPHealthCheckPolicySpec → option HTTPHealthCheckPolicy;
  tcpHealthCheckPolicy : option TCPHealthCheckPolicySpec → option TCPHealthCheckPolicy;
  prefixReplacementsAreValid : list projcontour.ReplacePrefix → option string;
  (** secrets and constants *)
  validSecret : Secret → option string;
  CACertificateKey : string;
  annotation_MinTLSVersion : string → TLSVersion;
  k8s_NamespacedNameFrom : string → string → NamespacedName;
  k8s_StatusOrphaned : string;
  (** the snapshot ([KubernetesCache]) and the builder's service lookup,
      which takes the port through [intstr.FromInt] *)
  intstr_FromInt : Z → IntOrString;
  LookupSecret : NamespacedName → (Secret → option string) → string + Secret;
  DelegationPermitted : NamespacedName → string → bool;
  lookupService : NamespacedName → IntOrString → string + Service;
  (** iteration order of the [range] over the processor's [orphaned] map *)
  range_keys : list NamespacedName → list NamespacedName;
  range_keys_perm : ∀ l, range_keys l ≡ₚ l;
}.

(** ** Status writer, builder and processor state *)

Section state.
Context `{Collaborators}.

(** Modelled from the spec: [ObjectStatusWriter] is declared in
    [status.go].  A writer is the object it was opened for together
    with the calls made on it; [commit] hands the writer to the
    builder, which keeps the committed writers in commit order. *)
Inductive StatusCall : Type :=
  | CallWithValue (key val : string)
  | CallSetInvalid (msg : string)
  | CallSetValid.

Record ObjectStatusWriter := {
  osw_obj : NamespacedName;
  osw_calls : list StatusCall;
}.

Definition osw_call (c : StatusCall) (sw : ObjectStatusWriter) : ObjectStatusWriter :=
  {| osw_obj := osw_obj sw; osw_calls := osw_calls sw ++ [c] |}.

Definition WithValue (sw : ObjectStatusWriter) (key val : string) := osw_call (CallWithValue key val) sw.
(** [msg] is the format with its arguments filled in; an error text
    passed as the format stands as it is. *)
Definition SetInvalid (sw : ObjectStatusWriter) (msg : string) := osw_call (CallSetInvalid msg) sw.
Definition SetValid (sw : ObjectStatusWriter) := osw_call CallSetValid sw.

(** Graph nodes of [dag.go] that the processor fills in. *)
Record TCPProxy := { tp_Clusters : list Cluster }.

(** Modelled from the spec: a virtual host holds an ordered list of
    routes; [addRoute] of [dag.go] adds one route to it. *)
Record VirtualHost := { vh_routes : list Route }.

Record SecureVirtualHost := {
  svh_VirtualHost : VirtualHost;
  svh_Secret : option Secret;
  MinTLSVersion : option TLSVersion;
  svh_FallbackCertificate : option Secret;
  DownstreamValidation : option PeerValidationContext;
  svh_TCPProxy : option TCPProxy;
}.

(** The snapshot: [httpproxies] in the iteration order of the one
    [range] over it; every document is stored under its own
    namespace and name. *)
Record KubernetesCache := {
  httpproxies : list projcontour.HTTPProxy;
  RootNamespaces : list string;
}.

(** The receiver's fields that a run only reads. *)
Record HTTPProxyProcessor := {
  Source : KubernetesCache;
  DisablePermitInsecure : bool;
  FallbackCertificate : option NamespacedName;
}.

(** What a run writes: the builder's status log and graph, the service
    lookups it makes, and the processor's [orphaned] set. *)
Record RunState := {
  statuses : list ObjectStatusWriter;
  virtualhosts : gmap string VirtualHost;
  securevirtualhosts : gmap string SecureVirtualHost;
  serviceLookups : list (NamespacedName * IntOrString);
  orphaned : gset NamespacedName;
}.

Definition set_statuses (f : list ObjectStatusWriter → list ObjectStatusWriter) (st : RunState) :=
  {| statuses := f (statuses st); virtualhosts := virtualhosts st;
     securevirtualhosts := securevirtualhosts st;
     serviceLookups := serviceLookups st; orphaned := orphaned st |}.
Definition set_virtualhosts (f : gmap string VirtualHost → gmap string VirtualHost) (st : RunState) :=
  {| statuses := statuses st; virtualhosts := f (virtualhosts st);
     securevirtualhosts := securevirtualhosts st;
     serviceLookups := serviceLookups st; orphaned := orphaned st |}.
Definition set_securevirtualhosts
    (f : gmap string SecureVirtualHost → gmap string SecureVirtualHost) (st : RunState) :=
  {| statuses := statuses st; virtualhosts := virtualhosts st;
     securevirtualhosts := f (securevirtualhosts st);
     serviceLookups := serviceLookups st; orphaned := orphaned st |}.
Definition set_serviceLookups
    (f : list (NamespacedName * IntOrString) → list (NamespacedName * IntOrString)) (st : RunState) :=
  {| statuses := statuses st; virtualhosts := virtualhosts st;
     securevirtualhosts := securevirtualhosts st;
     serviceLookups := f (serviceLookups st); orphaned := orphaned st |}.
Definition set_orphaned (f : gset NamespacedName → gset NamespacedName) (st : RunState) :=
  {| statuses := statuses st; virtualhosts := virtualhosts st;
     securevirtualhosts := securevirtualhosts st;
     serviceLookups := serviceLookups st; orphaned := f (orphaned st) |}.

(** [WithObject] and the [commit] it returns.  A writer opened from
    another writer (in the TCP proxy walk) starts like one opened from
    the builder. *)
Definition k8s_NamespacedNameOf (obj : projcontour.HTTPProxy) : NamespacedName :=
  {| nn_Namespace := projcontour.Namespace obj; nn_Name := projcontour.Name obj |}.

Definition WithObject (obj : projcontour.HTTPProxy) : ObjectStatusWriter :=
  {| osw_obj := k8s_NamespacedNameOf obj; osw_calls := [] |}.

Definition commit (sw : ObjectStatusWriter) (st : RunState) : RunState :=
  set_statuses (λ log, log ++ [sw]) st.

(** [p.builder.Source.httpproxies[m]] *)
Definition lookupHTTPProxy (src : KubernetesCache) (m : NamespacedName)
    : option projcontour.HTTPProxy :=
  List.find (λ hp, bool_decide (k8s_NamespacedNameOf hp = m)) (httpproxies src).

(** Modelled from the spec: the builder lookups of [builder.go] are
    idempotent and allocate on first reference. *)
Definition emptySecureVirtualHost : SecureVirtualHost :=
  {| svh_VirtualHost := {| vh_routes := [] |}; svh_Secret := None;
     MinTLSVersion := None; svh_FallbackCertificate := None;
     DownstreamValidation := None; svh_TCPProxy := None |}.

Definition lookupVirtualHost (host : string) (m : gmap string VirtualHost) : VirtualHost :=
  default {| vh_routes := [] |} (m !! host).

Definition lookupSecureVirtualHost (host : string) (m : gmap string SecureVirtualHost)
    : SecureVirtualHost :=
  default emptySecureVirtualHost (m !! host).

(** A write through the pointer that [lookupSecureVirtualHost] returns. *)
Definition withSecureVirtualHost (host : string)
    (f : SecureVirtualHost → SecureVirtualHost) (st : RunState) : RunState :=
  set_securevirtualhosts (λ m, <[host := f (lookupSecureVirtualHost host m)]> m) st.

Definition svh_set_Secret (sec : Secret) (v : TLSVersion) (s : SecureVirtualHost) :=
  {| svh_VirtualHost := svh_VirtualHost s; svh_Secret := Some sec;
     MinTLSVersion := Some v; svh_FallbackCertificate := svh_FallbackCertificate s;
     DownstreamValidation := DownstreamValidation s; svh_TCPProxy := svh_TCPProxy s |}.
Definition svh_set_FallbackCertificate (sec : Secret) (s : SecureVirtualHost) :=
  {| svh_VirtualHost := svh_VirtualHost s; svh_Secret := svh_Secret s;
     MinTLSVersion := MinTLSVersion s; svh_FallbackCertificate := Some sec;
     DownstreamValidation := DownstreamValidation s; svh_TCPProxy := svh_TCPProxy s |}.
Definition svh_set_DownstreamValidation (dv : PeerValidationContext) (s : SecureVirtualHost) :=
  {| svh_VirtualHost := svh_VirtualHost s; svh_Secret := svh_Secret s;
     MinTLSVersion := MinTLSVersion s; svh_FallbackCertificate := svh_FallbackCertificate s;
     DownstreamValidation := Some dv; svh_TCPProxy := svh_TCPProxy s |}.
Definition svh_set_TCPProxy (t : TCPProxy) (s : SecureVirtualHost) :=
  {| svh_VirtualHost := svh_VirtualHost s; svh_Secret := svh_Secret s;
     MinTLSVersion := MinTLSVersion s; svh_FallbackCertificate := svh_FallbackCertificate s;
     DownstreamValidation := DownstreamValidation s; svh_TCPProxy := Some t |}.
Definition svh_addRoutes (routes : list Route) (s : SecureVirtualHost) :=
  {| svh_VirtualHost := {| vh_routes := vh_routes (svh_VirtualHost s) ++ routes |};
     svh_Secret := svh_Secret s;
     MinTLSVersion := MinTLSVersion s; svh_FallbackCertificate := svh_FallbackCertificate s;
     DownstreamValidation := DownstreamValidation s; svh_TCPProxy := svh_TCPProxy s |}.

(** [addRoutes(p.builder.lookupVirtualHost(host), routes)] and its
    secure sibling. *)
Definition addRoutes_insecure (host : string) (routes : list Route) (st : RunState) : RunState :=
  set_virtualhosts
    (λ m, <[host := {| vh_routes := vh_routes (lookupVirtualHost host m) ++ routes |}]> m) st.

Definition addRoutes_secure (host : string) (routes : list Route) (st : RunState) : RunState :=
  withSecureVirtualHost host (svh_addRoutes routes) st.

(** The builder's [lookupService], with the attempt recorded. *)
Definition builder_lookupService (m : NamespacedName) (port : IntOrString) (st : RunState)
    : (string + Service) * RunState :=
  (lookupService m port, set_serviceLookups (λ l, l ++ [(m, port)]) st).

(** [setOrphaned] and [delete(p.orphaned, m)] *)
Definition setOrphaned (obj : projcontour.HTTPProxy) (st : RunState) : RunState :=
  set_orphaned (λ o, {[ k8s_NamespacedNameOf obj ]} ∪ o) st.

Definition deleteOrphaned (m : NamespacedName) (st : RunState) : RunState :=
  set_orphaned (λ o, o ∖ {[ m ]}) st.

End state.

(** ** The processor *)

Section processor.
Context `{Collaborators}.

Implicit Types (p : HTTPProxyProcessor) (st : RunState) (sw : ObjectStatusWriter).
Implicit Types (proxy httpproxy dest delegate : projcontour.HTTPProxy).

(** [isBlank] *)
Definition isBlank (s : string) : bool :=
  bool_decide (String.length (strings_TrimSpace s) = 0).

(** [rootAllowed] *)
Definition rootAllowed p (namespace : string) : bool :=
  match RootNamespaces (Source p) with
  | [] => true
  | nss => bool_decide (namespace ∈ nss)
  end.

(** [validCA] *)
Definition validCA (s : Secret) : option string :=
  if decide (length (Secret_Data s CACertificateKey) = 0)
  then Some ("empty " +:+ strconv_Quote CACertificateKey +:+ " key")
  else None.

(** [lookupUpstreamValidation] *)
Definition lookupUpstreamValidation (uv : option projcontour.UpstreamValidation)
    (namespace : string) : string + option PeerValidationContext :=
  match uv with
  | None => inr None
  | Some uv =>
      let secretName :=
        {| nn_Name := projcontour.uv_CACertificate uv; nn_Namespace := namespace |} in
      match LookupSecret secretName validCA with
      | inl err =>
          inl ("invalid CA Secret "
               +:+ strconv_Quote (slashed (nn_Namespace secretName) (nn_Name secretName))
               +:+ ": " +:+ err)
      | inr cacert =>
          if decide (projcontour.uv_SubjectName uv = "")
          then inl "missing subject alternative name"
          else inr (Some {| CACertificate := cacert;
                            SubjectName := projcontour.uv_SubjectName uv |})
      end
  end.

(** [lookupDownstreamValidation] *)
Definition lookupDownstreamValidation (vc : projcontour.DownstreamValidation)
    (namespace : string) : string + PeerValidationContext :=
  let secretName :=
    {| nn_Name := projcontour.dv_CACertificate vc; nn_Namespace := namespace |} in
  match LookupSecret secretName validCA with
  | inl err =>
      inl ("invalid CA Secret "
           +:+ strconv_Quote (slashed (nn_Namespace secretName) (nn_Name secretName))
           +:+ ": " +:+ err)
  | inr cacert => inr {| CACertificate := cacert; SubjectName := "" |}
  end.

(** [getProtocol] *)
Definition getProtocol (service : projcontour.Service) (s : Service) : string + string :=
  match projcontour.svc_Protocol service with
  | Some protocol =>
      if bool_decide (protocol = "h2c") || bool_decide (protocol = "h2")
         || bool_decide (protocol = "tls")
      then inr protocol
      else inl ("unsupported protocol: " +:+ protocol)
  | None => inr (Service_Protocol s)
  end.

(** [includeMatchConditionsIdentical]: [j] trails [i] by one, so the
    include at [i] is compared with the include at [i-1] only. *)
Definition conditionsShared (a b : list projcontour.MatchCondition) : bool :=
  existsb (λ cA,
    existsb (λ cB,
      bool_decide (projcontour.Prefix cA = projcontour.Prefix cB)
      && bool_decide (projcontour.Header cA = projcontour.Header cB)) b) a.

Fixpoint includeMatchConditionsIdentical_from (prev : projcontour.Include)
    (rest : list projcontour.Include) : bool :=
  match rest with
  | [] => false
  | cur :: rest' =>
      conditionsShared (projcontour.inc_Conditions cur) (projcontour.inc_Conditions prev)
      || includeMatchConditionsIdentical_from cur rest'
  end.

Definition includeMatchConditionsIdentical (includes : list projcontour.Include) : bool :=
  match includes with
  | [] => false
  | first :: rest => includeMatchConditionsIdentical_from first rest
  end.

(** The two name comparisons of the cycle checks. *)
Definition sameObject (a b : projcontour.HTTPProxy) : bool :=
  bool_decide (projcontour.Name a = projcontour.Name b)
  && bool_decide (projcontour.Namespace a = projcontour.Namespace b).

Definition pathOf (visited : list projcontour.HTTPProxy) : list string :=
  (λ hp, slashed (projcontour.Namespace hp) (projcontour.Name hp)) <$> visited.

(** *** [computeRoutes]: the services of one route *)

Definition newCluster (route : projcontour.Route) (service : projcontour.Service)
    (r : Route) (s : Service) (protocol : string) (uv : option PeerValidationContext)
    (reqHP respHP : option HeadersPolicy) : Cluster :=
  {| Upstream := s;
     cl_LoadBalancerPolicy := loadBalancerPolicy (projcontour.rt_LoadBalancerPolicy route);
     Weight := (projcontour.svc_Weight service) `mod` 2 ^ 32;
     cl_HTTPHealthCheckPolicy := httpHealthCheckPolicy (projcontour.rt_HealthCheckPolicy route);
     cl_TCPHealthCheckPolicy := None;
     UpstreamValidation := uv;
     cl_RequestHeadersPolicy := reqHP;
     cl_ResponseHeadersPolicy := respHP;
     cl_Protocol := protocol;
     SNI := determineSNI (RequestHeadersPolicy r) reqHP s |}.

Fixpoint computeRoutes_services proxy (route : projcontour.Route)
    (services : list projcontour.Service) (r : Route) sw st
    : option Route * ObjectStatusWriter * RunState :=
  match services with
  | [] => (Some r, sw, st)
  | service :: rest =>
      let port := projcontour.svc_Port service in
      if bool_decide (port < 1 ∨ port > 65535)%Z then
        (None, SetInvalid sw ("service " +:+ strconv_Quote (projcontour.svc_Name service)
                              +:+ ": port must be in the range 1-65535"), st)
      else
        let m := {| nn_Name := projcontour.svc_Name service;
                    nn_Namespace := projcontour.Namespace proxy |} in
        let '(found, st) := builder_lookupService m (intstr_FromInt port) st in
        match found with
        | inl err =>
            (None, SetInvalid sw ("Spec.Routes unresolved service reference: " +:+ err), st)
        | inr s =>
        match getProtocol service s with
        | inl err => (None, SetInvalid sw err, st)
        | inr protocol =>
        match (if bool_decide (protocol = "tls") || bool_decide (protocol = "h2")
               then lookupUpstreamValidation (projcontour.svc_UpstreamValidation service)
                      (projcontour.Namespace proxy)
               else inr None) with
        | inl err =>
            (None, SetInvalid sw ("Service [" +:+ projcontour.svc_Name service +:+ ":"
                                  +:+ fmt_int port
                                  +:+ "] TLS upstream validation policy error: " +:+ err), st)
        | inr uv =>
        match headersPolicy (projcontour.svc_RequestHeadersPolicy service) true with
        | inl err => (None, SetInvalid sw err, st)
        | inr reqHP =>
        match headersPolicy (projcontour.svc_ResponseHeadersPolicy service) false with
        | inl err => (None, SetInvalid sw err, st)
        | inr respHP =>
            let c := newCluster route service r s protocol uv reqHP respHP in
            if projcontour.svc_Mirror service && bool_decide (is_Some (MirrorPolicy r)) then
              (None, SetInvalid sw "only one service per route may be nominated as mirror", st)
            else
              let r :=
                if projcontour.svc_Mirror service then set_MirrorPolicy (Some c) r
                else set_Clusters (Clusters r ++ [c]) r in
              computeRoutes_services proxy route rest r sw st
        end end end end end
  end.

(** *** [computeRoutes]: one route of the document *)

Definition newRoute p (route : projcontour.Route) (conds : list projcontour.MatchCondition)
    (enforceTLS : bool) (reqHP respHP : option HeadersPolicy) : Route :=
  {| PathMatchCondition := mergePathMatchConditions conds;
     HeaderMatchConditions := mergeHeaderMatchConditions conds;
     Websocket := projcontour.rt_EnableWebsockets route;
     HTTPSUpgrade :=
       routeEnforceTLS enforceTLS
         (projcontour.rt_PermitInsecure route && negb (DisablePermitInsecure p));
     Route_TimeoutPolicy := timeoutPolicy (projcontour.rt_TimeoutPolicy route);
     Route_RetryPolicy := retryPolicy (projcontour.rt_RetryPolicy route);
     RequestHeadersPolicy := reqHP;
     ResponseHeadersPolicy := respHP;
     Clusters := []; MirrorPolicy := None; PrefixRewrite := "" |}.

(** The two passes over the prefix replacements: first the one whose
    prefix is the routing prefix, then, if the rewrite is still empty,
    the default one. *)
Definition applyPrefixReplacements (routingPrefix : string)
    (replacements : list projcontour.ReplacePrefix) (r : Route) : Route :=
  let r :=
    match List.find (λ prefix,
            bool_decide (0 < String.length (projcontour.rp_Prefix prefix))
            && bool_decide (routingPrefix = projcontour.rp_Prefix prefix)) replacements with
    | Some prefix => set_PrefixRewrite (projcontour.rp_Replacement prefix) r
    | None => r
    end in
  if decide (String.length (PrefixRewrite r) = 0) then
    match List.find (λ prefix,
            bool_decide (String.length (projcontour.rp_Prefix prefix) = 0)) replacements with
    | Some prefix => set_PrefixRewrite (projcontour.rp_Replacement prefix) r
    | None => r
    end
  else r.

Definition computeRoutes_route p proxy (conditions : list projcontour.MatchCondition)
    (enforceTLS : bool) (route : projcontour.Route) sw st
    : option Route * ObjectStatusWriter * RunState :=
  match pathMatchConditionsValid (projcontour.rt_Conditions route) with
  | Some err => (None, SetInvalid sw ("route: " +:+ err), st)
  | None =>
  let conds := conditions ++ projcontour.rt_Conditions route in
  match headerMatchConditionsValid conds with
  | Some err => (None, SetInvalid sw err, st)
  | None =>
  match headersPolicy (projcontour.rt_RequestHeadersPolicy route) true with
  | inl err => (None, SetInvalid sw err, st)
  | inr reqHP =>
  match headersPolicy (projcontour.rt_ResponseHeadersPolicy route) false with
  | inl err => (None, SetInvalid sw err, st)
  | inr respHP =>
  if bool_decide (length (projcontour.rt_Services route) < 1) then
    (None, SetInvalid sw "route.services must have at least one entry", st)
  else
    let r := newRoute p route conds enforceTLS reqHP respHP in
    let replaced : string + Route :=
      if bool_decide (0 < length (projcontour.rt_PrefixReplacements route)) then
        match PathMatchCondition r with
        | PrefixMatchCondition routingPrefix =>
            match prefixReplacementsAreValid (projcontour.rt_PrefixReplacements route) with
            | Some err => inl err
            | None =>
                inr (applyPrefixReplacements routingPrefix
                       (projcontour.rt_PrefixReplacements route) r)
            end
        | _ => inl "cannot specify prefix replacements without a prefix condition"
        end
      else inr r in
    match replaced with
    | inl err => (None, SetInvalid sw err, st)
    | inr r => computeRoutes_services proxy route (projcontour.rt_Services route) r sw st
    end
  end end end end.

(** The loop over [proxy.Spec.Routes]; [None] is the early [return nil]. *)
Fixpoint computeRoutes_routes p proxy (conditions : list projcontour.MatchCondition)
    (enforceTLS : bool) (rs : list projcontour.Route) (routes : list Route) sw st
    : option (list Route) * ObjectStatusWriter * RunState :=
  match rs with
  | [] => (Some routes, sw, st)
  | route :: rest =>
      match computeRoutes_route p proxy conditions enforceTLS route sw st with
      | (Some r, sw, st) =>
          computeRoutes_routes p proxy conditions enforceTLS rest (routes ++ [r]) sw st
      | (None, sw, st) => (None, sw, st)
      end
  end.

(** *** [computeRoutes]: the include walk *)

Definition walk : Type :=
  ObjectStatusWriter → projcontour.HTTPProxy → list projcontour.MatchCondition →
  list projcontour.HTTPProxy → RunState →
  outcome (list Route * ObjectStatusWriter * RunState).

(** The loop over [proxy.Spec.Includes]; [recurse] is the recursive
    call of [computeRoutes].  [None] is the early [return nil]. *)
Fixpoint computeRoutes_includes (recurse : walk) p proxy
    (conditions : list projcontour.MatchCondition) (visited : list projcontour.HTTPProxy)
    (includes : list projcontour.Include) (routes : list Route) sw st
    : outcome (option (list Route) * ObjectStatusWriter * RunState) :=
  match includes with
  | [] => Done (Some routes, sw, st)
  | include :: rest =>
      let namespace :=
        if decide (projcontour.inc_Namespace include = "") then projcontour.Namespace proxy
        else projcontour.inc_Namespace include in
      match lookupHTTPProxy (Source p)
              {| nn_Name := projcontour.inc_Name include; nn_Namespace := namespace |} with
      | None =>
          Done (None, SetInvalid sw ("include " +:+ namespace +:+ "/"
                                     +:+ projcontour.inc_Name include +:+ " not found"), st)
      | Some delegate =>
          if bool_decide (is_Some (projcontour.Spec_VirtualHost delegate)) then
            Done (None, SetInvalid sw "root httpproxy cannot delegate to another root httpproxy", st)
          else
            match pathMatchConditionsValid (projcontour.inc_Conditions include) with
            | Some err => Done (None, SetInvalid sw ("include: " +:+ err), st)
            | None =>
                '(sub, dsw, st) ←
                  recurse (WithObject delegate) delegate
                    (conditions ++ projcontour.inc_Conditions include) visited st;
                let st := commit dsw st in
                let st := deleteOrphaned (k8s_NamespacedNameOf delegate) st in
                computeRoutes_includes recurse p proxy conditions visited rest
                  (routes ++ sub) sw st
            end
      end
  end.

(** What [computeRoutes] does once the cycle check and the duplicate
    check have passed. *)
Definition computeRoutes_body (recurse : walk) p sw proxy
    (conditions : list projcontour.MatchCondition) (visited : list projcontour.HTTPProxy)
    (enforceTLS : bool) st
    : outcome (list Route * ObjectStatusWriter * RunState) :=
  '(included, sw, st) ←
    computeRoutes_includes recurse p proxy conditions visited
      (projcontour.Spec_Includes proxy) [] sw st;
  match included with
  | None => Done ([], sw, st)
  | Some routes =>
      match computeRoutes_routes p proxy conditions enforceTLS
              (projcontour.Spec_Routes proxy) routes sw st with
      | (None, sw, st) => Done ([], sw, st)
      | (Some routes, sw, st) =>
          routes ← expandPrefixMatches routes;
          Done (routes, SetValid sw, st)
      end
  end.

Fixpoint computeRoutes (fuel : nat) p sw proxy
    (conditions : list projcontour.MatchCondition) (visited : list projcontour.HTTPProxy)
    (enforceTLS : bool) st
    : outcome (list Route * ObjectStatusWriter * RunState) :=
  match fuel with
  | 0 => OutOfFuel
  | S fuel =>
      if existsb (λ v, sameObject v proxy) visited then
        Done ([], SetInvalid sw ("include creates a delegation cycle: "
                                 +:+ strings.Join
                                       (pathOf visited
                                        ++ [slashed (projcontour.Namespace proxy)
                                              (projcontour.Name proxy)]) " -> "), st)
      else
        let visited := visited ++ [proxy] in
        if includeMatchConditionsIdentical (projcontour.Spec_Includes proxy) then
          Done ([], SetInvalid sw "duplicate conditions defined on an include", st)
        else
          computeRoutes_body
            (λ sw delegate conditions visited st,
               computeRoutes fuel p sw delegate conditions visited enforceTLS st)
            p sw proxy conditions visited enforceTLS st
  end.

(** *** [processHTTPProxyTCPProxy] *)

Fixpoint tcpproxy_services httpproxy (tcpproxy : projcontour.TCPProxy)
    (services : list projcontour.Service) (clusters : list Cluster) sw st
    : option (list Cluster) * ObjectStatusWriter * RunState :=
  match services with
  | [] => (Some clusters, sw, st)
  | service :: rest =>
      let m := {| nn_Name := projcontour.svc_Name service;
                  nn_Namespace := projcontour.Namespace httpproxy |} in
      let '(found, st) :=
        builder_lookupService m (intstr_FromInt (projcontour.svc_Port service)) st in
      match found with
      | inl err =>
          (None, SetInvalid sw ("Spec.TCPProxy unresolved service reference: " +:+ err), st)
      | inr s =>
          let c :=
            {| Upstream := s;
               cl_Protocol := Service_Protocol s;
               cl_LoadBalancerPolicy :=
                 loadBalancerPolicy (projcontour.tcp_LoadBalancerPolicy tcpproxy);
               cl_TCPHealthCheckPolicy :=
                 tcpHealthCheckPolicy (projcontour.tcp_HealthCheckPolicy tcpproxy);
               UpstreamValidation := None; Weight := 0;
               cl_HTTPHealthCheckPolicy := None;
               cl_RequestHeadersPolicy := None; cl_ResponseHeadersPolicy := None;
               SNI := "" |} in
          tcpproxy_services httpproxy tcpproxy rest (clusters ++ [c]) sw st
      end
  end.

Fixpoint processHTTPProxyTCPProxy (fuel : nat) p sw httpproxy
    (visited : list projcontour.HTTPProxy) (host : string) st
    : outcome (bool * ObjectStatusWriter * RunState) :=
  match fuel with
  | 0 => OutOfFuel
  | S fuel =>
      match projcontour.Spec_TCPProxy httpproxy with
      | None => Done (true, sw, st)
      | Some tcpproxy =>
          let visited := visited ++ [httpproxy] in
          let tcpProxyInclude :=
            match projcontour.tcp_Include tcpproxy with
            | Some inc => Some inc
            | None => projcontour.tcp_IncludesDeprecated tcpproxy
            end in
          let services := projcontour.tcp_Services tcpproxy in
          if bool_decide (0 < length services) && bool_decide (is_Some tcpProxyInclude) then
            Done (false,
                  SetInvalid sw "tcpproxy: cannot specify services and include in the same httpproxy",
                  st)
          else if bool_decide (0 < length services) then
            match tcpproxy_services httpproxy tcpproxy services [] sw st with
            | (None, sw, st) => Done (false, sw, st)
            | (Some clusters, sw, st) =>
                Done (true, sw,
                      withSecureVirtualHost host
                        (svh_set_TCPProxy {| tp_Clusters := clusters |}) st)
            end
          else
            match tcpProxyInclude with
            | None =>
                Done (false,
                      SetInvalid sw "tcpproxy: either services or inclusion must be specified",
                      st)
            | Some inc =>
                let namespace :=
                  if decide (projcontour.tpi_Namespace inc = "")
                  then projcontour.Namespace httpproxy
                  else projcontour.tpi_Namespace inc in
                let m := {| nn_Name := projcontour.tpi_Name inc; nn_Namespace := namespace |} in
                match lookupHTTPProxy (Source p) m with
                | None =>
                    Done (false,
                          SetInvalid sw ("tcpproxy: include " +:+ nn_Namespace m +:+ "/"
                                         +:+ nn_Name m +:+ " not found"), st)
                | Some dest =>
                    if bool_decide (is_Some (projcontour.Spec_VirtualHost dest)) then
                      Done (false,
                            SetInvalid sw "root httpproxy cannot delegate to another root httpproxy",
                            st)
                    else
                      let st := deleteOrphaned (k8s_NamespacedNameOf dest) st in
                      if existsb (λ hp, sameObject dest hp) visited then
                        Done (false,
                              SetInvalid sw ("tcpproxy include creates a cycle: "
                                             +:+ strings.Join
                                                   (pathOf visited
                                                    ++ [slashed (projcontour.Namespace dest)
                                                          (projcontour.Name dest)]) " -> "),
                              st)
                      else
                        '(ok, dsw, st) ←
                          processHTTPProxyTCPProxy fuel p (WithObject dest) dest visited host st;
                        let dsw := if ok : bool then SetValid dsw else dsw in
                        Done (ok, sw, commit dsw st)
                end
            end
      end
  end.

(** *** [computeHTTPProxy] *)

(** The TLS stanza of a root: [false] is an early [return]. *)
Definition computeHTTPProxy_tls p sw proxy (host : string) (tls : projcontour.TLS) st
    : bool * ObjectStatusWriter * RunState :=
  let namespace := projcontour.Namespace proxy in
  if negb (isBlank (projcontour.SecretName tls)) && projcontour.Passthrough tls then
    (false, SetInvalid sw "Spec.VirtualHost.TLS: both Passthrough and SecretName were specified", st)
  else if isBlank (projcontour.SecretName tls) && negb (projcontour.Passthrough tls) then
    (false, SetInvalid sw "Spec.VirtualHost.TLS: neither Passthrough nor SecretName were specified", st)
  else if negb (projcontour.Passthrough tls) then
    let secretName := k8s_NamespacedNameFrom (projcontour.SecretName tls) namespace in
    match LookupSecret secretName validSecret with
    | inl err =>
        (false, SetInvalid sw ("Spec.VirtualHost.TLS Secret "
                               +:+ strconv_Quote (projcontour.SecretName tls)
                               +:+ " is invalid: " +:+ err), st)
    | inr sec =>
    if negb (DelegationPermitted secretName namespace) then
      (false, SetInvalid sw ("Spec.VirtualHost.TLS Secret "
                             +:+ strconv_Quote (projcontour.SecretName tls)
                             +:+ " certificate delegation not permitted"), st)
    else
      let st :=
        withSecureVirtualHost host
          (svh_set_Secret sec
             (annotation_MinTLSVersion (projcontour.MinimumProtocolVersion tls))) st in
      if projcontour.EnableFallbackCertificate tls
         && bool_decide (is_Some (projcontour.ClientValidation tls)) then
        (false, SetInvalid sw "Spec.Virtualhost.TLS fallback & client validation are incompatible together", st)
      else
        let fallback : string + RunState :=
          if projcontour.EnableFallbackCertificate tls then
            match FallbackCertificate p with
            | None =>
                inl "Spec.Virtualhost.TLS enabled fallback but the fallback Certificate Secret is not configured in Contour configuration file"
            | Some fc =>
                let quoted := strconv_Quote (slashed (nn_Namespace fc) (nn_Name fc)) in
                match LookupSecret fc validSecret with
                | inl err =>
                    inl ("Spec.Virtualhost.TLS Secret " +:+ quoted
                         +:+ " fallback certificate is invalid: " +:+ err)
                | inr sec =>
                    if negb (DelegationPermitted fc namespace) then
                      inl ("Spec.VirtualHost.TLS fallback Secret " +:+ quoted
                           +:+ " is not configured for certificate delegation")
                    else inr (withSecureVirtualHost host (svh_set_FallbackCertificate sec) st)
                end
            end
          else inr st in
        match fallback with
        | inl msg => (false, SetInvalid sw msg, st)
        | inr st =>
            match projcontour.ClientValidation tls with
            | Some cv =>
                match lookupDownstreamValidation cv namespace with
                | inl err =>
                    (false, SetInvalid sw ("Spec.VirtualHost.TLS client validation is invalid: "
                                           +:+ err), st)
                | inr dv =>
                    (true, sw, withSecureVirtualHost host (svh_set_DownstreamValidation dv) st)
                end
            | None => (true, sw, st)
            end
        end
    end
  else if bool_decide (is_Some (projcontour.ClientValidation tls)) then
    (false, SetInvalid sw "Spec.VirtualHost.TLS passthrough cannot be combined with tls.clientValidation", st)
  else (true, sw, st).

(** The body of [computeHTTPProxy] between [WithObject] and the
    deferred [commit]. *)
Definition computeHTTPProxy_body (fuel : nat) p sw proxy st
    : outcome (ObjectStatusWriter * RunState) :=
  match projcontour.Spec_VirtualHost proxy with
  | None => Done (sw, setOrphaned proxy st)
  | Some vh =>
  if negb (rootAllowed p (projcontour.Namespace proxy)) then
    Done (SetInvalid sw "root HTTPProxy cannot be defined in this namespace", st)
  else
  let host := projcontour.Fqdn vh in
  if isBlank host then Done (SetInvalid sw "Spec.VirtualHost.Fqdn must be specified", st)
  else
  let sw := WithValue sw "vhost" host in
  if strings.Contains host "*" then
    Done (SetInvalid sw ("Spec.VirtualHost.Fqdn " +:+ strconv_Quote host
                         +:+ " cannot use wildcards"), st)
  else
  if bool_decide (length (projcontour.Spec_Routes proxy) = 0)
     && bool_decide (length (projcontour.Spec_Includes proxy) = 0)
     && bool_decide (projcontour.Spec_TCPProxy proxy = None) then
    Done (SetInvalid sw "HTTPProxy.Spec must have at least one Route, Include, or a TCPProxy", st)
  else
  let '(tlsOK, tlsEnabled, sw, st) :=
    match projcontour.vh_TLS vh with
    | Some tls =>
        let '(ok, sw, st) := computeHTTPProxy_tls p sw proxy host tls st in
        (ok, ok, sw, st)
    | None => (true, false, sw, st)
    end in
  if negb tlsOK then Done (sw, st)
  else
  '(ok, sw, st) ←
    match projcontour.Spec_TCPProxy proxy with
    | Some _ =>
        if negb tlsEnabled then
          Done (false,
                SetInvalid sw "Spec.TCPProxy requires that either Spec.TLS.Passthrough or Spec.TLS.SecretName be set",
                st)
        else processHTTPProxyTCPProxy fuel p sw proxy [] host st
    | None => Done (true, sw, st)
    end;
  if negb (ok : bool) then Done (sw, st)
  else
  '(routes, sw, st) ← computeRoutes fuel p sw proxy [] [] tlsEnabled st;
  let st := addRoutes_insecure host routes st in
  let st :=
    if tlsEnabled && bool_decide (projcontour.Spec_TCPProxy proxy = None)
    then addRoutes_secure host routes st else st in
  Done (sw, st)
  end.

Definition computeHTTPProxy (fuel : nat) p proxy st : outcome RunState :=
  '(sw, st) ← computeHTTPProxy_body fuel p (WithObject proxy) proxy st;
  Done (commit sw st).

(** *** [validHTTPProxies] *)

Fixpoint validHTTPProxies_partition (proxies : list projcontour.HTTPProxy)
    (valid : list projcontour.HTTPProxy)
    (fqdnHTTPProxies : list (string * list projcontour.HTTPProxy))
    : list projcontour.HTTPProxy * list (string * list projcontour.HTTPProxy) :=
  match proxies with
  | [] => (valid, fqdnHTTPProxies)
  | proxy :: rest =>
      match projcontour.Spec_VirtualHost proxy with
      | None => validHTTPProxies_partition rest (valid ++ [proxy]) fqdnHTTPProxies
      | Some vh =>
          validHTTPProxies_partition rest valid
            (map_append (projcontour.Fqdn vh) proxy fqdnHTTPProxies)
      end
  end.

Definition conflictMessage (fqdn : string) (proxies : list projcontour.HTTPProxy) : string :=
  let conflicting :=
    (λ proxy, projcontour.Namespace proxy +:+ "/" +:+ projcontour.Name proxy) <$> proxies in
  let conflicting := sort.Strings conflicting in
  "fqdn " +:+ strconv_Quote fqdn +:+ " is used in multiple HTTPProxies: "
  +:+ strings.Join conflicting ", ".

Definition markConflicting (fqdn msg : string) (proxies : list projcontour.HTTPProxy) st
    : RunState :=
  foldl (λ st proxy, commit (SetInvalid (WithValue (WithObject proxy) "vhost" fqdn) msg) st)
    st proxies.

Fixpoint validHTTPProxies_groups (groups : list (string * list projcontour.HTTPProxy))
    (valid : list projcontour.HTTPProxy) st : list projcontour.HTTPProxy * RunState :=
  match groups with
  | [] => (valid, st)
  | (fqdn, proxies) :: rest =>
      match proxies with
      | [proxy] => validHTTPProxies_groups rest (valid ++ [proxy]) st
      | _ =>
          validHTTPProxies_groups rest valid
            (markConflicting fqdn (conflictMessage fqdn proxies) proxies st)
      end
  end.

Definition validHTTPProxies p st : list projcontour.HTTPProxy * RunState :=
  let '(valid, fqdnHTTPProxies) :=
    validHTTPProxies_partition (httpproxies (Source p)) [] [] in
  validHTTPProxies_groups (range_order _ fqdnHTTPProxies) valid st.

(** *** [computeHTTPProxies] and [Run] *)

Fixpoint computeHTTPProxies_loop (fuel : nat) p (proxies : list projcontour.HTTPProxy) st
    : outcome RunState :=
  match proxies with
  | [] => Done st
  | proxy :: rest =>
      st ← computeHTTPProxy fuel p proxy st;
      computeHTTPProxies_loop fuel p rest st
  end.

Definition computeHTTPProxies (fuel : nat) p st : outcome RunState :=
  let '(valid, st) := validHTTPProxies p st in
  computeHTTPProxies_loop fuel p valid st.

Definition orphanedStatus proxy : ObjectStatusWriter :=
  WithValue (WithValue (WithObject proxy) "status" k8s_StatusOrphaned)
    "description" "this HTTPProxy is not part of a delegation chain from a root HTTPProxy".

Definition reportOrphaned p (metas : list NamespacedName) st : RunState :=
  foldl (λ st meta,
           match lookupHTTPProxy (Source p) meta with
           | Some proxy => commit (orphanedStatus proxy) st
           | None => st
           end) st metas.

(** The include walks never nest deeper than the number of documents
    in the snapshot, which bounds their recursion. *)
Definition walkBudget p : nat := S (length (httpproxies (Source p))).

(** [Run]: [st] is the builder handed in; the processor's [orphaned]
    map starts empty and is dropped again on exit. *)
Definition Run p st : outcome RunState :=
  let st := set_orphaned (λ _, ∅) st in
  st ← computeHTTPProxies (walkBudget p) p st;
  let st := reportOrphaned p (range_keys (elements (orphaned st))) st in
  Done (set_orphaned (λ _, ∅) st).

End processor.

(** ** Notions used to state the properties *)

Section notions.
Context `{Collaborators}.

(** The SNI priority order in the words of the specification: the
    host rewrite of the cluster-level request headers, else that of
    the route-level request headers, else the upstream's external
    name.  A policy that is absent rewrites nothing. *)
Definition hostRewriteOrEmpty (hp : option HeadersPolicy) : string :=
  match hp with
  | Some hp => HeadersPolicy_HostRewrite hp
  | None => ""
  end.

Definition sniBySpec (routeHeaders clusterHeaders : option HeadersPolicy)
    (upstream : Service) : string :=
  if decide (hostRewriteOrEmpty clusterHeaders ≠ "") then hostRewriteOrEmpty clusterHeaders
  else if decide (hostRewriteOrEmpty routeHeaders ≠ "") then hostRewriteOrEmpty routeHeaders
  else Service_ExternalName upstream.

(** The clusters of a route, the mirror included, carry the SNI of
    the priority order. *)
Definition sniByPriority (r : Route) : Prop :=
  ∀ c, c ∈ Clusters r ∨ MirrorPolicy r = Some c →
    SNI c = sniBySpec (RequestHeadersPolicy r) (cl_RequestHeadersPolicy c) (Upstream c).

(** The slash-trimmed prefix under which a route is grouped, and the
    group of a prefix: the routes of the list that share it, in order. *)
Definition slashTrimmed (prefix : string) : string :=
  if decide (prefix = "/") then prefix else strings.TrimRight prefix "/".

Definition prefixOf (r : Route) : option string :=
  match PathMatchCondition r with
  | PrefixMatchCondition prefix => Some prefix
  | _ => None
  end.

Definition groupOf (p : string) (routes : list Route) : list Route :=
  filter (λ r, slashTrimmed <$> prefixOf r = Some p) routes.

Definition groupKey (r : Route) : string := default "" (slashTrimmed <$> prefixOf r).

(** The two routes that replace a lone route [r] of the group [p]. *)
Definition expandedPair (p : string) (r : Route) : list Route :=
  let trimmed := strings.TrimRight (PrefixRewrite r) "/" in
  [ set_PathMatchCondition (PrefixMatchCondition p)
      (set_PrefixRewrite (if decide (trimmed = "") then "/" else trimmed) r);
    set_PathMatchCondition (PrefixMatchCondition (p +:+ "/"))
      (set_PrefixRewrite (trimmed +:+ "/") r) ].

(** The keys that the includes of a document resolve to: an include
    without a namespace points into the namespace of the document, and
    a TCP proxy prefers [Include] over [IncludesDeprecated]. *)
Definition includeTarget (proxy : projcontour.HTTPProxy) (include : projcontour.Include)
    : NamespacedName :=
  {| nn_Name := projcontour.inc_Name include;
     nn_Namespace :=
       if decide (projcontour.inc_Namespace include = "") then projcontour.Namespace proxy
       else projcontour.inc_Namespace include |}.

Definition tcpIncludeOf (tcpproxy : projcontour.TCPProxy) : option projcontour.TCPProxyInclude :=
  match projcontour.tcp_Include tcpproxy with
  | Some inc => Some inc
  | None => projcontour.tcp_IncludesDeprecated tcpproxy
  end.

Definition tcpIncludeTarget (httpproxy : projcontour.HTTPProxy)
    (inc : projcontour.TCPProxyInclude) : NamespacedName :=
  {| nn_Name := projcontour.tpi_Name inc;
     nn_Namespace :=
       if decide (projcontour.tpi_Namespace inc = "") then projcontour.Namespace httpproxy
       else projcontour.tpi_Namespace inc |}.

(** The chain reported by the cycle checks: the ancestors, then the
    document that was entered again. *)
Definition cyclePath (ancestors : list projcontour.HTTPProxy)
    (reentered : projcontour.HTTPProxy) : string :=
  strings.Join
    (pathOf ancestors
     ++ [slashed (projcontour.Namespace reentered) (projcontour.Name reentered)]) " -> ".

(** Two includes share a condition: one condition of each has the
    same prefix and the same header condition. *)
Definition shareCondition (a b : projcontour.Include) : Prop :=
  ∃ cA cB, cA ∈ projcontour.inc_Conditions b ∧ cB ∈ projcontour.inc_Conditions a ∧
    projcontour.Prefix cA = projcontour.Prefix cB ∧
    projcontour.Header cA = projcontour.Header cB.

(** Roots and leaves of a snapshot. *)
Definition fqdnOf (hp : projcontour.HTTPProxy) : option string :=
  projcontour.Fqdn <$> projcontour.Spec_VirtualHost hp.

Definition rootsOf (fqdn : string) (docs : list projcontour.HTTPProxy)
    : list projcontour.HTTPProxy :=
  filter (λ hp, fqdnOf hp = Some fqdn) docs.

Definition leavesOf (docs : list projcontour.HTTPProxy) : list projcontour.HTTPProxy :=
  filter (λ hp, projcontour.Spec_VirtualHost hp = None) docs.

Definition nameOf (hp : projcontour.HTTPProxy) : string :=
  projcontour.Namespace hp +:+ "/" +:+ projcontour.Name hp.

(** A root of the valid set: the only root of the snapshot with its FQDN. *)
Definition validRoot (src : KubernetesCache) (r : projcontour.HTTPProxy) : Prop :=
  ∃ fqdn, fqdnOf r = Some fqdn ∧ rootsOf fqdn (httpproxies src) = [r].


(** The status committed for every root of a conflicting FQDN. *)
Definition conflictStatus (fqdn msg : string) (proxy : projcontour.HTTPProxy)
    : ObjectStatusWriter :=
  SetInvalid (WithValue (WithObject proxy) "vhost" fqdn) msg.

(** What [computeHTTPProxy] does with a leaf. *)
Definition orphanLeaf (st : RunState) (leaf : projcontour.HTTPProxy) : RunState :=
  commit (WithObject leaf) (setOrphaned leaf st).


(** The keys under which the snapshot stores its documents. *)
Definition snapshotKeys (src : KubernetesCache) : list NamespacedName :=
  k8s_NamespacedNameOf <$> httpproxies src.

(** [m[k]] of a map kept as an association list; nil when absent. *)
Fixpoint lookupGroup {V} (k : string) (m : list (string * list V)) : list V :=
  match m with
  | [] => []
  | (k', vs) :: m' => if decide (k = k') then vs else lookupGroup k m'
  end.

(** The graph nodes of a host as the builder's lookups return them,
    allocated or not, and the routes they hold. *)
Definition insecureRoutes (host : string) (st : RunState) : list Route :=
  vh_routes (lookupVirtualHost host (virtualhosts st)).

Definition secureNode (host : string) (st : RunState) : SecureVirtualHost :=
  lookupSecureVirtualHost host (securevirtualhosts st).

Definition secureRoutes (host : string) (st : RunState) : list Route :=
  vh_routes (svh_VirtualHost (secureNode host st)).

(** The lookup that the walks make for a service of a document. *)
Definition serviceLookup (proxy : projcontour.HTTPProxy) (service : projcontour.Service)
    : NamespacedName * IntOrString :=
  ({| nn_Namespace := projcontour.Namespace proxy;
      nn_Name := projcontour.svc_Name service |},
   intstr_FromInt (projcontour.svc_Port service)).

Definition portInRange (service : projcontour.Service) : Prop :=
  (1 ≤ projcontour.svc_Port service ≤ 65535)%Z.

(** What a step does to the writer it was handed: nothing when it
    passes, one [SetInvalid] when it refuses. *)
Definition keptOrRefused (passed : bool) (sw sw' : ObjectStatusWriter) : Prop :=
  if passed then sw' = sw else ∃ msg, sw' = SetInvalid sw msg.


(** A cluster as the route walk builds it for a service entry of a
    route of a document: the entry's port is in range, the upstream is
    the service that the builder resolved for the entry in the
    namespace of the document, the protocol is the one [getProtocol]
    chose, the upstream validation is looked up for [tls] and [h2]
    only, and the weight is the entry's weight as a [uint32]. *)
Definition clusterOf (proxy : projcontour.HTTPProxy) (service : projcontour.Service)
    (c : Cluster) : Prop :=
  portInRange service ∧
  lookupService {| nn_Namespace := projcontour.Namespace proxy;
                   nn_Name := projcontour.svc_Name service |}
    (intstr_FromInt (projcontour.svc_Port service)) = inr (Upstream c) ∧
  getProtocol service (Upstream c) = inr (cl_Protocol c) ∧
  (if bool_decide (cl_Protocol c = "tls") || bool_decide (cl_Protocol c = "h2")
   then lookupUpstreamValidation (projcontour.svc_UpstreamValidation service)
          (projcontour.Namespace proxy)
   else inr None) = inr (UpstreamValidation c) ∧
  Weight c = (projcontour.svc_Weight service `mod` 2 ^ 32)%Z ∧
  cl_TCPHealthCheckPolicy c = None.

(** The clusters of a route, the mirror included, were built for
    service entries of one route of the document. *)
Definition builtFrom (proxy : projcontour.HTTPProxy) (r : Route) : Prop :=
  ∃ route, route ∈ projcontour.Spec_Routes proxy ∧
    ∀ c, c ∈ Clusters r ∨ MirrorPolicy r = Some c →
      ∃ service, service ∈ projcontour.rt_Services route ∧ clusterOf proxy service c.

(** The service entries of a route that are nominated as mirror, and
    the others. *)
Definition mirrorsOf (services : list projcontour.Service) : list projcontour.Service :=
  filter (λ service, projcontour.svc_Mirror service = true) services.

Definition plainOf (services : list projcontour.Service) : list projcontour.Service :=
  filter (λ service, projcontour.svc_Mirror service = false) services.


(** A cluster as the TCP proxy walk builds it for a service entry:
    the upstream is the service that the builder resolved for the
    entry in the namespace of the document, whatever the port, and the
    protocol is the upstream's own. *)
Definition tcpClusterOf (httpproxy : projcontour.HTTPProxy) (tcpproxy : projcontour.TCPProxy)
    (service : projcontour.Service) (c : Cluster) : Prop :=
  lookupService (serviceLookup httpproxy service).1 (serviceLookup httpproxy service).2
  = inr (Upstream c) ∧
  cl_Protocol c = Service_Protocol (Upstream c) ∧
  cl_LoadBalancerPolicy c = loadBalancerPolicy (projcontour.tcp_LoadBalancerPolicy tcpproxy) ∧
  cl_TCPHealthCheckPolicy c = tcpHealthCheckPolicy (projcontour.tcp_HealthCheckPolicy tcpproxy) ∧
  UpstreamValidation c = None ∧ cl_HTTPHealthCheckPolicy c = None.


(** The statuses that a step commits are statuses of documents of the
    snapshot. *)
Definition commitsFor (src : KubernetesCache) (st st' : RunState) : Prop :=
  ∃ added, statuses st' = statuses st ++ added ∧
    Forall (λ s, osw_obj s ∈ snapshotKeys src) added.


(** What the protocol and the upstream validation of a cluster owe to
    the service entry it was built for in a document: the entry's port
    is in range, the upstream is the service resolved for the entry,
    the weight is the entry's; the protocol is the one the entry asks
    for, one of [h2c], [h2] and [tls], or else the upstream's; and an
    upstream validation is there only with [tls] or [h2] and only when
    the entry asks for it. *)
Definition speaksFor (proxy : projcontour.HTTPProxy) (service : projcontour.Service)
    (c : Cluster) : Prop :=
  portInRange service ∧
  lookupService (serviceLookup proxy service).1 (serviceLookup proxy service).2
  = inr (Upstream c) ∧
  Weight c = (projcontour.svc_Weight service `mod` 2 ^ 32)%Z ∧
  match projcontour.svc_Protocol service with
  | Some requested => cl_Protocol c = requested ∧ requested ∈ ["h2c"; "h2"; "tls"]
  | None => cl_Protocol c = Service_Protocol (Upstream c)
  end ∧
  ∀ pvc, UpstreamValidation c = Some pvc →
    (cl_Protocol c = "tls" ∨ cl_Protocol c = "h2") ∧
    ∃ requested,
      projcontour.svc_UpstreamValidation service = Some requested ∧
      LookupSecret {| nn_Namespace := projcontour.Namespace proxy;
                      nn_Name := projcontour.uv_CACertificate requested |} validCA
      = inr (CACertificate pvc) ∧
      SubjectName pvc = projcontour.uv_SubjectName requested ∧ SubjectName pvc ≠ "".

(** The clusters of a route stand for the service entries of an API
    route one by one: the clusters for the entries that are not
    mirrors, in their order, and the mirror for the one entry that is. *)
Definition entriesOf (Q : projcontour.Service → Cluster → Prop)
    (route : projcontour.Route) (r : Route) : Prop :=
  Forall2 Q (plainOf (projcontour.rt_Services route)) (Clusters r) ∧
  match MirrorPolicy r with
  | Some c => ∃ service, mirrorsOf (projcontour.rt_Services route) = [service] ∧ Q service c
  | None => mirrorsOf (projcontour.rt_Services route) = []
  end.


(** The documents that the TCP proxy walk from a document goes
    through: the chain of the TCP proxy includes, each resolving to a
    document without a virtual host, down to the first document that
    has services or no TCP proxy stanza. *)
Fixpoint tcpChain (src : KubernetesCache) (from : projcontour.HTTPProxy)
    (chain : list projcontour.HTTPProxy) : Prop :=
  match chain with
  | [] =>
      match projcontour.Spec_TCPProxy from with
      | Some tcpproxy => projcontour.tcp_Services tcpproxy ≠ []
      | None => True
      end
  | dest :: rest =>
      ∃ tcpproxy inc,
        projcontour.Spec_TCPProxy from = Some tcpproxy ∧
        projcontour.tcp_Services tcpproxy = [] ∧
        tcpIncludeOf tcpproxy = Some inc ∧
        lookupHTTPProxy src (tcpIncludeTarget from inc) = Some dest ∧
        projcontour.Spec_VirtualHost dest = None ∧
        tcpChain src dest rest
  end.


(** A route as prefix expansion may hand it on: the route that was
    built, with another path condition and another prefix rewrite and
    nothing else changed. *)
Definition expandedFrom (built r : Route) : Prop :=
  ∃ condition rewrite,
    r = set_PathMatchCondition condition (set_PrefixRewrite rewrite built).


(** What prefix expansion makes of one route of a list: the pair,
    when the route is the only one of its slash-trimmed prefix, has a
    rewrite and does not route on the single slash; the route itself
    otherwise. *)
Definition expansionOf (routes : list Route) (r : Route) : list Route :=
  match prefixOf r with
  | Some prefix =>
      let p := slashTrimmed prefix in
      if decide (length (groupOf p routes) = 1 ∧ PrefixRewrite r ≠ "" ∧ prefix ≠ "/")
      then expandedPair p r else [r]
  | None => [r]
  end.










End notions.

(** ** A concrete environment

    Used to run the processor on explicit snapshots: policies are
    carried as they are, every validator accepts, every service and
    secret exists, and [range] visits a map in insertion order. *)

Module Demo.

Definition quote (s : string) : string :=
  String (ascii_of_nat 34) (s +:+ String (ascii_of_nat 34) EmptyString).

#[local] Instance env : Env := {|
  HeaderMatchConditionSpec := string;
  HeadersPolicySpec := string;
  TimeoutPolicySpec := unit;
  RetryPolicySpec := unit;
  LoadBalancerPolicySpec := string;
  HTTPHealthCheckPolicySpec := unit;
  TCPHealthCheckPolicySpec := unit;
  Secret := string;
  Service := string;
  HeadersPolicy := string;
  HeaderMatchCondition := string;
  TimeoutPolicy := unit;
  RetryPolicy := unit;
  HTTPHealthCheckPolicy := unit;
  TCPHealthCheckPolicy := unit;
  TLSVersion := string;
  IntOrString := Z;
  Service_ExternalName := λ s, s;
  Service_Protocol := λ _, "";
  HeadersPolicy_HostRewrite := λ hp, hp;
  Secret_Data := λ _ _, [Byte.x00];
  strconv_Quote := quote;
  fmt_int := λ _, "";
  strings_TrimSpace := λ s, s;
  range_order := λ _ m, m;
  range_order_perm := λ _ m, reflexivity m;
|}.

#[local] Instance collaborators : Collaborators := {|
  pathMatchConditionsValid := λ _, None;
  headerMatchConditionsValid := λ _, None;
  mergePathMatchConditions := λ conds,
    match String.concat "" (projcontour.Prefix <$> conds) with
    | EmptyString => PrefixMatchCondition "/"
    | prefix => PrefixMatchCondition prefix
    end;
  mergeHeaderMatchConditions := λ conds, omap projcontour.Header conds;
  headersPolicy := λ hp _, inr hp;
  timeoutPolicy := λ _, tt;
  retryPolicy := λ _, tt;
  loadBalancerPolicy := λ lb, default "" lb;
  httpHealthCheckPolicy := λ hc, hc;
  tcpHealthCheckPolicy := λ hc, hc;
  prefixReplacementsAreValid := λ _, None;
  validSecret := λ _, None;
  CACertificateKey := "ca.crt";
  annotation_MinTLSVersion := λ v, v;
  k8s_NamespacedNameFrom := λ name namespace, {| nn_Namespace := namespace; nn_Name := name |};
  k8s_StatusOrphaned := "orphaned";
  intstr_FromInt := λ z, ((z + 2 ^ 31) `mod` 2 ^ 32 - 2 ^ 31)%Z;
  LookupSecret := λ m _, inr (nn_Name m);
  DelegationPermitted := λ _ _, true;
  lookupService := λ m port,
    if bool_decide (1 ≤ port ≤ 65535)%Z then inr (nn_Name m) else inl "port not matched";
  range_keys := λ l, l;
  range_keys_perm := λ l, reflexivity l;
|}.

Definition emptyState : RunState :=
  {| statuses := []; virtualhosts := ∅; securevirtualhosts := ∅;
     serviceLookups := []; orphaned := ∅ |}.

Definition processor (docs : list projcontour.HTTPProxy) : HTTPProxyProcessor :=
  {| Source := {| httpproxies := docs; RootNamespaces := [] |};
     DisablePermitInsecure := false; FallbackCertificate := None |}.

Definition service (name : string) (port : Z) : projcontour.Service :=
  {| projcontour.svc_Name := name; projcontour.svc_Port := port;
     projcontour.svc_Protocol := None; projcontour.svc_Weight := 0;
     projcontour.svc_UpstreamValidation := None; projcontour.svc_Mirror := false;
     projcontour.svc_RequestHeadersPolicy := None;
     projcontour.svc_ResponseHeadersPolicy := None |}.

Definition route (prefix : string) (services : list projcontour.Service)
    : projcontour.Route :=
  {| projcontour.rt_Conditions :=
       [{| projcontour.Prefix := prefix; projcontour.Header := None |}];
     projcontour.rt_Services := services;
     projcontour.rt_EnableWebsockets := false; projcontour.rt_PermitInsecure := false;
     projcontour.rt_TimeoutPolicy := None; projcontour.rt_RetryPolicy := None;
     projcontour.rt_HealthCheckPolicy := None; projcontour.rt_LoadBalancerPolicy := None;
     projcontour.rt_PrefixReplacements := [];
     projcontour.rt_RequestHeadersPolicy := None;
     projcontour.rt_ResponseHeadersPolicy := None |}.

Definition include (namespace name prefix : string) : projcontour.Include :=
  {| projcontour.inc_Name := name; projcontour.inc_Namespace := namespace;
     projcontour.inc_Conditions :=
       [{| projcontour.Prefix := prefix; projcontour.Header := None |}] |}.

Definition root (namespace name fqdn : string) (includes : list projcontour.Include)
    (routes : list projcontour.Route) : projcontour.HTTPProxy :=
  {| projcontour.Namespace := namespace; projcontour.Name := name;
     projcontour.Spec_VirtualHost :=
       Some {| projcontour.Fqdn := fqdn; projcontour.vh_TLS := None |};
     projcontour.Spec_Routes := routes; projcontour.Spec_Includes := includes;
     projcontour.Spec_TCPProxy := None |}.

Definition leaf (namespace name : string) (includes : list projcontour.Include)
    (routes : list projcontour.Route) : projcontour.HTTPProxy :=
  {| projcontour.Namespace := namespace; projcontour.Name := name;
     projcontour.Spec_VirtualHost := None;
     projcontour.Spec_Routes := routes; projcontour.Spec_Includes := includes;
     projcontour.Spec_TCPProxy := None |}.

Definition passthrough : projcontour.TLS :=
  {| projcontour.SecretName := ""; projcontour.MinimumProtocolVersion := "";
     projcontour.Passthrough := true; projcontour.ClientValidation := None;
     projcontour.EnableFallbackCertificate := false |}.

Definition tcpServices (services : list projcontour.Service) : projcontour.TCPProxy :=
  {| projcontour.tcp_LoadBalancerPolicy := None; projcontour.tcp_Services := services;
     projcontour.tcp_Include := None; projcontour.tcp_IncludesDeprecated := None;
     projcontour.tcp_HealthCheckPolicy := None |}.

Definition tcpInclude (namespace name : string) : projcontour.TCPProxy :=
  {| projcontour.tcp_LoadBalancerPolicy := None; projcontour.tcp_Services := [];
     projcontour.tcp_Include :=
       Some {| projcontour.tpi_Name := name; projcontour.tpi_Namespace := namespace |};
     projcontour.tcp_IncludesDeprecated := None;
     projcontour.tcp_HealthCheckPolicy := None |}.

Definition tcpDocument (namespace name : string) (fqdn : option string)
    (tcpproxy : projcontour.TCPProxy) : projcontour.HTTPProxy :=
  {| projcontour.Namespace := namespace; projcontour.Name := name;
     projcontour.Spec_VirtualHost :=
       (λ f, {| projcontour.Fqdn := f; projcontour.vh_TLS := Some passthrough |}) <$> fqdn;
     projcontour.Spec_Routes := []; projcontour.Spec_Includes := [];
     projcontour.Spec_TCPProxy := Some tcpproxy |}.

Definition dagRoute (condition : MatchCondition) (rewrite : string) : Route :=
  {| PathMatchCondition := condition; HeaderMatchConditions := [];
     Clusters := []; MirrorPolicy := None; HTTPSUpgrade := false; Websocket := false;
     Route_TimeoutPolicy := tt; Route_RetryPolicy := tt; PrefixRewrite := rewrite;
     RequestHeadersPolicy := None; ResponseHeadersPolicy := None |}.

(** Prefix expansion: a lone route with a rewrite, and an exact match. *)
Definition fooRoute : Route := dagRoute (PrefixMatchCondition "/foo") "/bar".
Definition exactRoute : Route := dagRoute (ExactMatchCondition "/exact") "".

(** Two roots that claim the same FQDN. *)
Definition conflictTwo := root "a" "two" "ex.com" [] [route "/" [service "svc" 80]].
Definition conflictOne := root "a" "one" "ex.com" [] [route "/" [service "svc" 80]].

(** A root whose include leads back to it, and a cycle among leaves. *)
Definition backToRoot_R := root "a" "R" "ex.com" [include "" "L" "/l"] [].
Definition backToRoot_L := leaf "a" "L" [include "a" "R" "/r"] [].

Definition cycle_R := root "a" "R" "ex.com" [include "" "L1" "/one"] [].
Definition cycle_L1 := leaf "a" "L1" [include "" "L2" "/two"] [].
Definition cycle_L2 := leaf "a" "L2" [include "" "L1" "/one"] [].

Definition tcpCycle_T := tcpDocument "a" "T" (Some "ex.com") (tcpInclude "" "LT").
Definition tcpCycle_LT := tcpDocument "a" "LT" None (tcpInclude "" "LT").

(** Includes with the same condition: apart, and next to each other. *)
Definition apart_R :=
  root "a" "R" "ex.com"
    [include "" "L1" "/a"; include "" "L2" "/b"; include "" "L3" "/a"] [].
Definition apart_L (name : string) := leaf "a" name [] [route "/" [service "svc" 80]].
Definition apart_docs := [apart_R; apart_L "L1"; apart_L "L2"; apart_L "L3"].

Definition adjacent_R :=
  root "a" "R" "ex.com" [include "" "L1" "/a"; include "" "L2" "/a"] [].


(** A root with one include and one unreferenced leaf. *)
Definition simple_R :=
  root "a" "R" "ex.com" [include "" "L" "/l"] [route "/" [service "svc" 80]].
Definition simple_L := leaf "a" "L" [] [route "/x" [service "svc" 80]].
Definition simple_L2 := leaf "a" "L2" [] [].

(** A TCP proxy and a route whose service port is out of range. *)
Definition port0_T := tcpDocument "a" "T" (Some "ex.com") (tcpServices [service "svc" 0]).
Definition wide_T :=
  tcpDocument "a" "T" (Some "ex.com") (tcpServices [service "svc" 4294967376]).

(** The processors over these snapshots. *)
Definition conflict_p := processor [conflictTwo; conflictOne].
Definition backToRoot_p := processor [backToRoot_L; backToRoot_R].
Definition cycle_p := processor [cycle_R; cycle_L1; cycle_L2].
Definition tcpCycle_p := processor [tcpCycle_T; tcpCycle_LT].
Definition apart_p := processor apart_docs.
Definition adjacent_p := processor [adjacent_R].
Definition simple_p := processor [simple_L; simple_R; simple_L2].
Definition port0_p := processor [port0_T].
Definition wide_p := processor [wide_T].

(** Roots that fail the early checks, and a processor that allows
    roots in one namespace only. *)
Definition blank_R := root "a" "blank" "" [] [route "/" [service "svc" 80]].
Definition wild_R := root "a" "wild" "*.ex.com" [] [route "/" [service "svc" 80]].
Definition empty_R := root "a" "empty" "ex.com" [] [].

Definition restricted_p : HTTPProxyProcessor :=
  {| Source := {| httpproxies := [simple_R]; RootNamespaces := ["roots"] |};
     DisablePermitInsecure := false; FallbackCertificate := None |}.

(** TLS stanzas: a secret, and a secret with the fallback certificate
    and client validation both asked for. *)
Definition secretTLS : projcontour.TLS :=
  {| projcontour.SecretName := "cert"; projcontour.MinimumProtocolVersion := "1.2";
     projcontour.Passthrough := false; projcontour.ClientValidation := None;
     projcontour.EnableFallbackCertificate := false |}.

Definition fallbackAndValidationTLS : projcontour.TLS :=
  {| projcontour.SecretName := "cert"; projcontour.MinimumProtocolVersion := "1.2";
     projcontour.Passthrough := false;
     projcontour.ClientValidation := Some {| projcontour.dv_CACertificate := "ca" |};
     projcontour.EnableFallbackCertificate := true |}.

(** A route with a plain service and a mirror. *)
Definition mirror (name : string) (port : Z) : projcontour.Service :=
  {| projcontour.svc_Name := name; projcontour.svc_Port := port;
     projcontour.svc_Protocol := None; projcontour.svc_Weight := 0;
     projcontour.svc_UpstreamValidation := None; projcontour.svc_Mirror := true;
     projcontour.svc_RequestHeadersPolicy := None;
     projcontour.svc_ResponseHeadersPolicy := None |}.

Definition mirrored : projcontour.Route :=
  route "/" [service "svc" 80; mirror "shadow" 80].

(** A TCP proxy with both spellings of the include: the singular one
    points to a document that is missing, the plural one to a leaf. *)
Definition tcpBoth : projcontour.TCPProxy :=
  {| projcontour.tcp_LoadBalancerPolicy := None; projcontour.tcp_Services := [];
     projcontour.tcp_Include :=
       Some {| projcontour.tpi_Name := "missing"; projcontour.tpi_Namespace := "" |};
     projcontour.tcp_IncludesDeprecated :=
       Some {| projcontour.tpi_Name := "LT"; projcontour.tpi_Namespace := "" |};
     projcontour.tcp_HealthCheckPolicy := None |}.

Definition tcpBoth_T := tcpDocument "a" "T" (Some "ex.com") tcpBoth.
Definition tcpBoth_p := processor [tcpBoth_T; tcpCycle_LT].

(** Prefix replacements: the default one first, then one for [/foo]. *)
Definition defaultReplacement : projcontour.ReplacePrefix :=
  {| projcontour.rp_Prefix := ""; projcontour.rp_Replacement := "/default" |}.
Definition fooReplacement : projcontour.ReplacePrefix :=
  {| projcontour.rp_Prefix := "/foo"; projcontour.rp_Replacement := "/bar" |}.

(** Routes that ask for no expansion. *)
Definition plainRoutes : list Route :=
  [dagRoute (PrefixMatchCondition "/a") ""; dagRoute (PrefixMatchCondition "/") "/x";
   dagRoute (PrefixMatchCondition "/a/") ""].


(** The virtual host of the roots without TLS. *)
Definition plainHost : projcontour.VirtualHost :=
  {| projcontour.Fqdn := "ex.com"; projcontour.vh_TLS := None |}.


(** A TCP proxy that is delegated twice before it names its services. *)
Definition tcpChain_T := tcpDocument "a" "T" (Some "ex.com") (tcpInclude "" "L1").
Definition tcpChain_L1 := tcpDocument "a" "L1" None (tcpInclude "" "L2").
Definition tcpChain_L2 := tcpDocument "a" "L2" None (tcpServices [service "svc" 443]).
Definition tcpChain_p := processor [tcpChain_T; tcpChain_L1; tcpChain_L2].




End Demo.

(** * Properties *)

Section expandPrefixMatches_facts.
Context `{Collaborators}.

Implicit Types (r : Route) (routes : list Route) (m : list (string * list Route)).

Lemma lookupGroup_map_append {V} (k k' : string) (v : V) (m : list (string * list V)) :
  lookupGroup k (map_append k' v m)
  = if decide (k = k') then lookupGroup k m ++ [v] else lookupGroup k m.
Proof.
  induction m as [|[k0 vs] m IH]; simpl.
  - repeat case_decide; congruence.
  - destruct (decide (k' = k0)) as [->|Hne]; simpl.
    + repeat case_decide; congruence.
    + rewrite IH. repeat case_decide; congruence.
Qed.

Lemma map_append_keys {V} (k : string) (v : V) (m : list (string * list V)) :
  (map_append k v m).*1 = if decide (k ∈ m.*1) then m.*1 else m.*1 ++ [k].
Proof.
  induction m as [|[k0 vs] m IH].
  - rewrite decide_False; [done | apply not_elem_of_nil].
  - cbn [map_append]. destruct (decide (k = k0)) as [->|Hne]; rewrite !fmap_cons.
    + rewrite decide_True; [done | left].
    + rewrite IH. cbn [fst]. destruct (decide (k ∈ m.*1)) as [Hin|Hnin].
      * rewrite decide_True; [done | by right].
      * rewrite decide_False; [done |]. intros [?|?]%elem_of_cons; done.
Qed.

Lemma map_append_NoDup {V} (k : string) (v : V) (m : list (string * list V)) :
  NoDup m.*1 → NoDup (map_append k v m).*1.
Proof.
  intros Hnd. rewrite map_append_keys. case_decide as Hin; [done |].
  apply NoDup_app. split_and!; [done | | apply NoDup_singleton].
  intros x Hx ->%list_elem_of_singleton. done.
Qed.

Lemma lookupGroup_elem_of {V} (k : string) (g : list V) (m : list (string * list V)) :
  NoDup m.*1 → (k, g) ∈ m → lookupGroup k m = g.
Proof.
  induction m as [|[k0 vs] m IH]; simpl; intros Hnd Hin.
  - by apply elem_of_nil in Hin.
  - apply NoDup_cons in Hnd as [Hk0 Hnd].
    apply elem_of_cons in Hin as [[= <- <-]|Hin].
    + by rewrite decide_True.
    + rewrite decide_False; [by apply IH |].
      intros <-. apply Hk0. apply list_elem_of_fmap. by exists (k, g).
Qed.

Lemma lookupGroup_nonempty {V} (k : string) (m : list (string * list V)) :
  lookupGroup k m ≠ [] → (k, lookupGroup k m) ∈ m.
Proof.
  induction m as [|[k0 vs] m IH]; simpl; [done |].
  case_decide as Hk; [subst; left | right; by apply IH].
Qed.

Lemma groupByPrefix_prefixed routes expanded m :
  Forall (λ r, HasPathPrefix r = true) routes →
  groupByPrefix routes expanded m
  = Done (expanded, foldl (λ m r, map_append (groupKey r) r m) m routes).
Proof.
  intros Hall. revert expanded m.
  induction Hall as [|r routes Hr _ IH]; intros expanded m; simpl; [done |].
  rewrite Hr. unfold groupKey, prefixOf, HasPathPrefix in *.
  destruct (PathMatchCondition r) as [prefix|]; [| done].
  rewrite IH. done.
Qed.

Lemma groupByPrefix_panics routes r expanded m :
  r ∈ routes → HasPathPrefix r = false → groupByPrefix routes expanded m = Panicked.
Proof.
  intros Hin Hr. revert expanded m.
  induction routes as [|r' routes IH]; intros expanded m; [by apply elem_of_nil in Hin |].
  simpl. apply elem_of_cons in Hin as [<-|Hin].
  - unfold HasPathPrefix in Hr. by destruct (PathMatchCondition r).
  - destruct (PathMatchCondition r'); [by apply IH | done].
Qed.

Lemma lookupGroup_foldl p routes m :
  lookupGroup p (foldl (λ m r, map_append (groupKey r) r m) m routes)
  = lookupGroup p m ++ filter (λ r, groupKey r = p) routes.
Proof.
  revert m. induction routes as [|r routes IH]; intros m; simpl.
  - by rewrite app_nil_r.
  - rewrite IH, lookupGroup_map_append. rewrite filter_cons.
    destruct (decide (p = groupKey r)) as [->|Hne].
    + rewrite decide_True by done. by rewrite <-app_assoc.
    + rewrite decide_False by done. done.
Qed.

Lemma foldl_map_append_NoDup routes m :
  NoDup m.*1 → NoDup (foldl (λ m r, map_append (groupKey r) r m) m routes).*1.
Proof.
  revert m. induction routes as [|r routes IH]; intros m Hnd; simpl; [done |].
  apply IH. by apply map_append_NoDup.
Qed.

Lemma groupOf_groupKey p routes :
  Forall (λ r, HasPathPrefix r = true) routes →
  groupOf p routes = filter (λ r, groupKey r = p) routes.
Proof.
  unfold groupOf. induction 1 as [|r routes Hr _ IH]; [done |].
  rewrite !filter_cons, IH.
  unfold groupKey, prefixOf, HasPathPrefix in *.
  destruct (PathMatchCondition r); [| done]. simpl.
  repeat case_decide; try done; congruence.
Qed.

Lemma expandGroups_app (l1 l2 : list (string * list Route)) expanded :
  expandGroups (l1 ++ l2) expanded
  = (e ← expandGroups l1 expanded; expandGroups l2 e).
Proof.
  revert expanded. induction l1 as [|[k g] l1 IH]; intros expanded; [done |].
  cbn [app expandGroups]. destruct (expandGroup k g) as [rs| |]; [| done..].
  cbn. apply IH.
Qed.

Lemma string_length_0 (s : string) : String.length s = 0 ↔ s = "".
Proof. by destruct s. Qed.

Lemma expandGroup_total k (g : list Route) :
  Forall (λ r, HasPathPrefix r = true) g → ∃ rs, expandGroup k g = Done rs.
Proof.
  intros Hg. unfold expandGroup.
  destruct g as [|r0 [|r1 g]]; [by eexists | | by eexists].
  apply Forall_cons in Hg as [Hr0 _]. unfold HasPathPrefix in Hr0.
  destruct (decide _); [by eexists |].
  destruct (PathMatchCondition r0); [| done].
  destruct (decide _); by eexists.
Qed.

Lemma expandGroup_lone k r :
  PrefixRewrite r ≠ "" → HasPathPrefix r = true → prefixOf r ≠ Some "/" →
  expandGroup k [r] = Done (expandedPair k r).
Proof.
  intros Hrw Hpre Hslash. unfold expandGroup, expandedPair, prefixOf, HasPathPrefix in *.
  rewrite decide_False by (by rewrite string_length_0).
  destruct (PathMatchCondition r) as [routingPrefix|]; [| done].
  rewrite decide_False by congruence. cbn [PrefixRewrite set_PrefixRewrite set_PathMatchCondition].
  destruct (decide (strings.TrimRight (PrefixRewrite r) "/" = "")) as [He|He].
  - rewrite decide_True by (by rewrite string_length_0). by rewrite He.
  - rewrite decide_False by (by rewrite string_length_0). done.
Qed.

Lemma expandGroups_total (l : list (string * list Route)) expanded :
  Forall (λ kg, Forall (λ r, HasPathPrefix r = true) kg.2) l →
  ∃ rest, expandGroups l expanded = Done (expanded ++ rest).
Proof.
  intros Hl. revert expanded.
  induction Hl as [|[k g] l Hg _ IH]; intros expanded.
  - exists []. by rewrite app_nil_r.
  - cbn [expandGroups]. destruct (expandGroup_total k g Hg) as [rs ->]. cbn.
    destruct (IH (expanded ++ rs)) as [rest ->]. exists (rs ++ rest). by rewrite app_assoc.
Qed.

(** A group that [range] visits leaves its expansion as one block of
    the result. *)
Lemma expandGroups_block (l : list (string * list Route)) expanded k g rs :
  Forall (λ kg, Forall (λ r, HasPathPrefix r = true) kg.2) l →
  (k, g) ∈ l → expandGroup k g = Done rs →
  ∃ out pre post, expandGroups l expanded = Done out ∧ out = pre ++ rs ++ post.
Proof.
  intros Hl Hin Hrs.
  apply list_elem_of_split in Hin as (l1 & l2 & ->).
  apply Forall_app in Hl as [Hl1 Hl2]. apply Forall_cons in Hl2 as [_ Hl2].
  rewrite expandGroups_app.
  destruct (expandGroups_total l1 expanded Hl1) as [r1 ->]. cbn.
  rewrite Hrs. cbn.
  destruct (expandGroups_total l2 ((expanded ++ r1) ++ rs) Hl2) as [r2 ->].
  exists (((expanded ++ r1) ++ rs) ++ r2), (expanded ++ r1), r2.
  split; [done |]. by rewrite <-!app_assoc.
Qed.

Lemma grouped_prefixed routes :
  Forall (λ r, HasPathPrefix r = true) routes →
  Forall (λ kg : string * list Route, Forall (λ r, HasPathPrefix r = true) kg.2)
    (foldl (λ m r, map_append (groupKey r) r m) [] routes).
Proof.
  intros Hall. apply Forall_forall. intros [k g] Hin. cbn.
  apply lookupGroup_elem_of in Hin as <-; [| apply foldl_map_append_NoDup, NoDup_nil_2].
  rewrite lookupGroup_foldl. cbn. apply Forall_forall. intros r Hr.
  apply list_elem_of_filter in Hr as [_ Hr].
  by eapply Forall_forall in Hall.
Qed.

Lemma grouped_elem_of p routes :
  Forall (λ r, HasPathPrefix r = true) routes →
  groupOf p routes ≠ [] →
  (p, groupOf p routes) ∈ foldl (λ m r, map_append (groupKey r) r m) [] routes.
Proof.
  intros Hall Hne. rewrite groupOf_groupKey in * by done.
  pose proof (lookupGroup_foldl p routes []) as Hl. cbn in Hl.
  rewrite <-Hl in *. by apply lookupGroup_nonempty.
Qed.

Lemma expandPrefixMatches_returns routes :
  Forall (λ r, HasPathPrefix r = true) routes → ∃ out, expandPrefixMatches routes = Done out.
Proof.
  intros Hall. unfold expandPrefixMatches.
  rewrite groupByPrefix_prefixed by done. cbn.
  destruct (expandGroups_total (range_order _ (foldl (λ m r, map_append (groupKey r) r m) [] routes)) [])
    as [out Hout]; [| by exists out].
  rewrite range_order_perm. by apply grouped_prefixed.
Qed.

(** C5.  A route without a prefix condition makes the call panic: it
    is appended to the expanded set, but the loop does not skip to the
    next route, and the type assertion that follows fails. *)
Theorem expandPrefixMatches_panics routes r :
  r ∈ routes → HasPathPrefix r = false → expandPrefixMatches routes = Panicked.
Proof.
  intros Hin Hr. unfold expandPrefixMatches.
  by rewrite (groupByPrefix_panics routes r [] [] Hin Hr).
Qed.

End expandPrefixMatches_facts.

(** ** What every include walk preserves

    The walks are followed with three parameters: a set [D] of documents
    closed under resolving includes, a property [I] of routes that does
    not depend on the prefix or the rewrite, and a preorder [R] on run
    states that every state change of a walk respects. *)

Section expand_preserves.
Context `{Collaborators}.
Variable I : Route → Prop.
Hypothesis I_rewrite : ∀ r v, I r → I (set_PrefixRewrite v r).
Hypothesis I_path : ∀ r prefix, I r → I (set_PathMatchCondition (PrefixMatchCondition prefix) r).

Lemma map_append_Forall k r (m : list (string * list Route)) :
  I r → Forall (λ kg, Forall I kg.2) m → Forall (λ kg, Forall I kg.2) (map_append k r m).
Proof using Type.
  intros Hr. induction 1 as [|[k' g] m Hg Hm IH]; cbn [map_append].
  - repeat constructor. done.
  - case_decide; constructor; cbn in *; try done.
    apply Forall_app. split; [done | by constructor].
Qed.

Lemma groupByPrefix_Forall routes expanded m expanded' m' :
  groupByPrefix routes expanded m = Done (expanded', m') →
  Forall I routes → Forall I expanded → Forall (λ kg, Forall I kg.2) m →
  Forall I expanded' ∧ Forall (λ kg, Forall I kg.2) m'.
Proof using Type.
  revert expanded m. induction routes as [|r routes IH]; intros expanded m Heq Hr He Hm.
  - cbn in Heq. by simplify_eq.
  - cbn [groupByPrefix] in Heq. apply Forall_cons in Hr as [Hr Hrs].
    destruct (PathMatchCondition r); [| done].
    eapply IH; [exact Heq | done | | by apply map_append_Forall].
    case_match; [done |]. apply Forall_app. split; [done | by constructor].
Qed.

Lemma expandGroup_Forall k g rs :
  expandGroup k g = Done rs → Forall I g → Forall I rs.
Proof using I_rewrite I_path.
  unfold expandGroup. intros Heq Hg.
  destruct g as [|r0 [|r1 g]]; [by simplify_eq | | by simplify_eq].
  apply Forall_cons in Hg as [Hr0 _].
  repeat case_match; simplify_eq; repeat constructor; auto.
Qed.

Lemma expandGroups_Forall (l : list (string * list Route)) expanded out :
  expandGroups l expanded = Done out →
  Forall (λ kg, Forall I kg.2) l → Forall I expanded → Forall I out.
Proof using I_rewrite I_path.
  revert expanded. induction l as [|[k g] l IH]; intros expanded Heq Hl He.
  - cbn in Heq. by simplify_eq.
  - cbn [expandGroups] in Heq. apply Forall_cons in Hl as [Hg Hl].
    destruct (expandGroup k g) as [rs| |] eqn:Hrs; [| done..]. cbn in Heq.
    eapply IH; [exact Heq | done |].
    apply Forall_app. split; [done |]. by eapply expandGroup_Forall.
Qed.

Lemma expandPrefixMatches_Forall routes out :
  expandPrefixMatches routes = Done out → Forall I routes → Forall I out.
Proof using I_rewrite I_path.
  unfold expandPrefixMatches. intros Heq Hr.
  destruct (groupByPrefix routes [] []) as [[e m]| |] eqn:Hg; [| done..]. cbn in Heq.
  eapply groupByPrefix_Forall in Hg as [He Hm]; [| done | constructor..].
  eapply expandGroups_Forall; [exact Heq | | done].
  by rewrite range_order_perm.
Qed.

End expand_preserves.

Section walk_preserves.
Context `{Collaborators}.
Variable p : HTTPProxyProcessor.
Variable enforceTLS : bool.
Variable D : projcontour.HTTPProxy → Prop.
Variable I : Route → Prop.
Variable R : relation RunState.

Hypothesis D_include : ∀ proxy include d,
  D proxy → include ∈ projcontour.Spec_Includes proxy →
  lookupHTTPProxy (Source p) (includeTarget proxy include) = Some d → D d.
Hypothesis I_rewrite : ∀ r v, I r → I (set_PrefixRewrite v r).
Hypothesis I_path : ∀ r prefix, I r → I (set_PathMatchCondition (PrefixMatchCondition prefix) r).
Hypothesis I_route : ∀ proxy conditions route sw st r sw' st',
  D proxy → route ∈ projcontour.Spec_Routes proxy →
  computeRoutes_route p proxy conditions enforceTLS route sw st = (Some r, sw', st') → I r.
Hypothesis R_refl : ∀ st, R st st.
Hypothesis R_trans : ∀ st1 st2 st3, R st1 st2 → R st2 st3 → R st1 st3.
Hypothesis R_commit : ∀ sw st, R st (commit sw st).
Hypothesis R_delete : ∀ d st,
  D d → projcontour.Spec_VirtualHost d = None →
  R st (deleteOrphaned (k8s_NamespacedNameOf d) st).
Hypothesis R_lookup : ∀ f st, R st (set_serviceLookups f st).

Lemma computeRoutes_services_R proxy route services r sw st res sw' st' :
  computeRoutes_services proxy route services r sw st = (res, sw', st') → R st st'.
Proof using All.
  revert r sw st. induction services as [|service services IH]; intros r sw st Heq.
  - cbn in Heq. by simplify_eq.
  - cbn [computeRoutes_services builder_lookupService] in Heq.
    repeat case_match; simplify_eq; eauto.
Qed.

Lemma computeRoutes_route_R proxy conditions route sw st res sw' st' :
  computeRoutes_route p proxy conditions enforceTLS route sw st = (res, sw', st') → R st st'.
Proof using All.
  unfold computeRoutes_route. intros Heq.
  repeat case_match; simplify_eq; eauto using computeRoutes_services_R.
Qed.

Lemma computeRoutes_routes_inv proxy conditions rs routes sw st res sw' st' :
  D proxy → rs ⊆ projcontour.Spec_Routes proxy → Forall I routes →
  computeRoutes_routes p proxy conditions enforceTLS rs routes sw st = (res, sw', st') →
  R st st' ∧ ∀ out, res = Some out → Forall I out.
Proof using All.
  intros HD. revert routes sw st.
  induction rs as [|route rs IH]; intros routes sw st Hsub Hroutes Heq.
  - cbn in Heq. simplify_eq. split; [done |]. by intros ? [= <-].
  - cbn [computeRoutes_routes] in Heq.
    destruct (computeRoutes_route p proxy conditions enforceTLS route sw st)
      as [[[r|] sw1] st1] eqn:Hroute.
    + apply IH in Heq as [HR Hout].
      * split; [| done]. eauto using computeRoutes_route_R.
      * intros x Hx. apply Hsub. by right.
      * apply Forall_app. split; [done |]. constructor; [| done].
        eapply I_route; [done | | done]. apply Hsub. left.
    + simplify_eq. split; [eauto using computeRoutes_route_R | done].
Qed.

Lemma computeRoutes_includes_inv (recurse : walk) proxy conditions visited
    includes routes sw st res sw' st' :
  (∀ sw d c v st routes sw' st',
     D d → recurse sw d c v st = Done (routes, sw', st') → Forall I routes ∧ R st st') →
  D proxy → includes ⊆ projcontour.Spec_Includes proxy → Forall I routes →
  computeRoutes_includes recurse p proxy conditions visited includes routes sw st
    = Done (res, sw', st') →
  R st st' ∧ ∀ out, res = Some out → Forall I out.
Proof using All.
  intros Hrec HD. revert routes sw st.
  induction includes as [|include includes IH]; intros routes sw st Hsub Hroutes Heq.
  - cbn in Heq. simplify_eq. split; [done |]. by intros ? [= <-].
  - cbn [computeRoutes_includes] in Heq.
    destruct (lookupHTTPProxy _ _) as [delegate|] eqn:Hlook;
      [| by simplify_eq].
    case_bool_decide as Hroot; [by simplify_eq |].
    destruct (pathMatchConditionsValid _); [by simplify_eq |].
    assert (HDd : D delegate).
    { eapply D_include; [done | | exact Hlook]. apply Hsub. left. }
    destruct (recurse _ _ _ _ _) as [[[sub dsw] st1]| |] eqn:Hsubwalk; [| done..].
    cbn in Heq. apply Hrec in Hsubwalk as [Hsub_I Hsub_R]; [| done].
    apply IH in Heq as [HR Hout].
    + split; [| done].
      eapply R_trans; [exact Hsub_R |]. eapply R_trans; [apply R_commit |].
      eapply R_trans; [| exact HR]. apply R_delete; [done |].
      destruct (projcontour.Spec_VirtualHost delegate); [| done].
      exfalso. apply Hroot. by eexists.
    + intros x Hx. apply Hsub. by right.
    + by apply Forall_app.
Qed.

Lemma computeRoutes_inv fuel sw proxy conditions visited st routes sw' st' :
  D proxy →
  computeRoutes fuel p sw proxy conditions visited enforceTLS st = Done (routes, sw', st') →
  Forall I routes ∧ R st st'.
Proof using All.
  revert sw proxy conditions visited st routes sw' st'.
  induction fuel as [|fuel IH]; intros sw proxy conditions visited st routes sw' st' HD Heq;
    [done |].
  cbn [computeRoutes] in Heq.
  destruct (existsb _ visited); [by simplify_eq |].
  destruct (includeMatchConditionsIdentical _); [by simplify_eq |].
  unfold computeRoutes_body in Heq.
  destruct (computeRoutes_includes _ _ _ _ _ _ _ _ _) as [[[included sw1] st1]| |] eqn:Hinc;
    [| done..].
  cbn in Heq.
  eapply computeRoutes_includes_inv in Hinc as [HR1 Hinc]; [| by eauto | done..].
  destruct included as [included|]; [| by simplify_eq].
  destruct (computeRoutes_routes _ _ _ _ _ _ _ _) as [[[out|] sw2] st2] eqn:Hroutes.
  - eapply computeRoutes_routes_inv in Hroutes as [HR2 Hout]; [| done | done | by apply Hinc].
    destruct (expandPrefixMatches out) as [expanded| |] eqn:Hexp; [| done..].
    cbn in Heq. simplify_eq. split; [| by eauto].
    eapply expandPrefixMatches_Forall; eauto.
  - eapply computeRoutes_routes_inv in Hroutes as [HR2 _]; [| done | done | by apply Hinc].
    simplify_eq. split; [done | by eauto].
Qed.

End walk_preserves.

Section routes_built.
Context `{Collaborators}.

Implicit Types (p : HTTPProxyProcessor) (st : RunState) (sw : ObjectStatusWriter).

Lemma lookupHTTPProxy_Some (src : KubernetesCache) m d :
  lookupHTTPProxy src m = Some d → d ∈ httpproxies src ∧ k8s_NamespacedNameOf d = m.
Proof.
  unfold lookupHTTPProxy. intros [Hin Hm]%find_some.
  apply list_elem_of_In in Hin. by apply bool_decide_eq_true in Hm.
Qed.

Lemma determineSNI_sniBySpec (routeHeaders clusterHeaders : option HeadersPolicy) s :
  determineSNI routeHeaders clusterHeaders s = sniBySpec routeHeaders clusterHeaders s.
Proof.
  unfold determineSNI, sniBySpec, hostRewriteOf, hostRewriteOrEmpty.
  destruct clusterHeaders as [c|], routeHeaders as [r|];
    repeat case_decide; done.
Qed.

(** The services of a route add clusters to it and change nothing else. *)
Lemma computeRoutes_services_keeps proxy route services r sw st r' sw' st' :
  computeRoutes_services proxy route services r sw st = (Some r', sw', st') →
  HTTPSUpgrade r' = HTTPSUpgrade r ∧
  RequestHeadersPolicy r' = RequestHeadersPolicy r ∧
  PathMatchCondition r' = PathMatchCondition r ∧
  PrefixRewrite r' = PrefixRewrite r ∧
  (sniByPriority r → sniByPriority r').
Proof.
  revert r sw st. induction services as [|service services IH]; intros r sw st Heq.
  - cbn in Heq. by simplify_eq.
  - cbn [computeRoutes_services builder_lookupService] in Heq.
    repeat case_match; simplify_eq.
    all: apply IH in Heq as (-> & -> & -> & -> & Hsni); split_and!; try done.
    all: intros Hr; apply Hsni; intros c Hc; cbn in Hc.
    all: destruct Hc as [Hc|Hc];
      try (apply elem_of_app in Hc as [Hc|Hc%list_elem_of_singleton]);
      simplify_eq; try (by apply Hr; auto).
    all: cbn; apply determineSNI_sniBySpec.
Qed.

Lemma applyPrefixReplacements_keeps routingPrefix replacements r :
  let r' := applyPrefixReplacements routingPrefix replacements r in
  HTTPSUpgrade r' = HTTPSUpgrade r ∧ RequestHeadersPolicy r' = RequestHeadersPolicy r ∧
  Clusters r' = Clusters r ∧ MirrorPolicy r' = MirrorPolicy r.
Proof. unfold applyPrefixReplacements. repeat case_match; done. Qed.

Lemma computeRoutes_route_built p proxy conditions enforceTLS route sw st r sw' st' :
  computeRoutes_route p proxy conditions enforceTLS route sw st = (Some r, sw', st') →
  HTTPSUpgrade r
  = enforceTLS && negb (projcontour.rt_PermitInsecure route && negb (DisablePermitInsecure p))
  ∧ sniByPriority r.
Proof.
  unfold computeRoutes_route. intros Heq.
  repeat case_match; simplify_eq.
  all: apply computeRoutes_services_keeps in Heq as (-> & _ & _ & _ & Hsni).
  all: try match goal with
    | |- context [applyPrefixReplacements ?a ?b ?c] =>
        destruct (applyPrefixReplacements_keeps a b c) as (-> & Hq & Hc & Hm)
    end.
  all: split; [done |]; apply Hsni; intros c; cbn.
  all: try rewrite Hc, Hm; cbn.
  all: intros [Hc'|Hc']; [by apply elem_of_nil in Hc' | done].
Qed.

Lemma expandedFrom_refl (r : Route) : expandedFrom r r.
Proof. exists (PathMatchCondition r), (PrefixRewrite r). by destruct r. Qed.

(** C7.  Every route that [computeRoutes] returns is a route that the
    walk built from a route of the document or of a document of the
    snapshot, as prefix expansion hands it on (with another path
    condition and prefix rewrite at most), and its HTTPS upgrade bit
    is [enforceTLS && !(PermitInsecure && !DisablePermitInsecure)] for
    the route it was built from; with [DisablePermitInsecure] set the
    bit is [enforceTLS] whatever the route permits. *)
Theorem computeRoutes_HTTPSUpgrade fuel p sw proxy conditions visited enforceTLS st
    routes sw' st' r :
  computeRoutes fuel p sw proxy conditions visited enforceTLS st = Done (routes, sw', st') →
  r ∈ routes →
  (∃ hp conds route sw0 st0 built sw1 st1,
     hp ∈ proxy :: httpproxies (Source p) ∧ route ∈ projcontour.Spec_Routes hp ∧
     computeRoutes_route p hp conds enforceTLS route sw0 st0 = (Some built, sw1, st1) ∧
     expandedFrom built r ∧
     HTTPSUpgrade r
     = enforceTLS
       && negb (projcontour.rt_PermitInsecure route && negb (DisablePermitInsecure p))) ∧
  (DisablePermitInsecure p = true → HTTPSUpgrade r = enforceTLS).
Proof.
  intros Heq Hr.
  pose (J := λ r : Route, ∃ hp conds route sw0 st0 built sw1 st1,
     hp ∈ proxy :: httpproxies (Source p) ∧ route ∈ projcontour.Spec_Routes hp ∧
     computeRoutes_route p hp conds enforceTLS route sw0 st0 = (Some built, sw1, st1) ∧
     expandedFrom built r ∧
     HTTPSUpgrade r
     = enforceTLS
       && negb (projcontour.rt_PermitInsecure route && negb (DisablePermitInsecure p))).
  assert (HJ : Forall J routes).
  { eapply (computeRoutes_inv p enforceTLS
              (λ hp, hp ∈ proxy :: httpproxies (Source p)) J (λ _ _, True));
      [| | | | done.. | left | exact Heq].
    - intros hp include d _ _ [Hd _]%lookupHTTPProxy_Some. by right.
    - intros r0 v (hp & conds & route & sw0 & st0 & built & sw1 & st1
                   & Hhp & Hroute & Hbuilt & (c & w & ->) & Hup).
      exists hp, conds, route, sw0, st0, built, sw1, st1. split_and!; try done.
      by exists c, v.
    - intros r0 prefix (hp & conds & route & sw0 & st0 & built & sw1 & st1
                        & Hhp & Hroute & Hbuilt & (c & w & ->) & Hup).
      exists hp, conds, route, sw0, st0, built, sw1, st1. split_and!; try done.
      by exists (PrefixMatchCondition prefix), w.
    - intros hp c route sw0 st0 r0 sw1 st1 Hhp Hroute Hbuilt.
      exists hp, c, route, sw0, st0, r0, sw1, st1.
      split_and!; [done | done | done | apply expandedFrom_refl |].
      by apply computeRoutes_route_built in Hbuilt as [Hup _]. }
  eapply Forall_forall in HJ
    as (hp & conds & route & sw0 & st0 & built & sw1 & st1 & Hhp & Hroute & Hbuilt & Hexp & Hup);
    [| exact Hr].
  split; [by exists hp, conds, route, sw0, st0, built, sw1, st1 |].
  intros Hdis. rewrite Hup, Hdis. cbn. rewrite andb_false_r. cbn. apply andb_true_r.
Qed.


End routes_built.

Section checks.
Context `{Collaborators}.

Implicit Types (p : HTTPProxyProcessor) (st : RunState) (sw : ObjectStatusWriter).

Lemma conditionsShared_true (a b : projcontour.Include) :
  conditionsShared (projcontour.inc_Conditions b) (projcontour.inc_Conditions a) = true
  ↔ shareCondition a b.
Proof.
  unfold conditionsShared, shareCondition. rewrite existsb_exists. split.
  - intros (cA & HcA & (cB & HcB & Heq)%existsb_exists).
    apply andb_true_iff in Heq as [?%bool_decide_eq_true ?%bool_decide_eq_true].
    exists cA, cB. by rewrite !list_elem_of_In.
  - intros (cA & cB & HcA & HcB & Hp & Hh).
    exists cA. split; [by apply list_elem_of_In |].
    apply existsb_exists. exists cB. split; [by apply list_elem_of_In |].
    apply andb_true_iff. by rewrite !bool_decide_eq_true.
Qed.

Lemma includeMatchConditionsIdentical_from_true prev rest :
  includeMatchConditionsIdentical_from prev rest = true
  ↔ ∃ i a b, (prev :: rest) !! i = Some a ∧ (prev :: rest) !! S i = Some b ∧
      shareCondition a b.
Proof.
  revert prev. induction rest as [|cur rest IH]; intros prev; cbn [includeMatchConditionsIdentical_from].
  - split; [done |]. intros (i & a & b & _ & Hb & _). by destruct i.
  - rewrite orb_true_iff, conditionsShared_true, IH. split.
    + intros [Hs|(i & a & b & Ha & Hb & Hs)].
      * by exists 0, prev, cur.
      * by exists (S i), a, b.
    + intros (i & a & b & Ha & Hb & Hs). destruct i as [|i].
      * left. cbn in Ha, Hb. by simplify_eq.
      * right. by exists i, a, b.
Qed.

(** C6, as the code has it.  The duplicate check compares each include
    with the one just before it: it fires exactly when two neighbouring
    includes share a condition.  When it fires on a document that is
    not being re-entered, [computeRoutes] marks the document invalid
    and returns no routes; otherwise the walk goes on to the includes. *)
Theorem includeMatchConditionsIdentical_adjacent :
  (∀ includes : list projcontour.Include,
     includeMatchConditionsIdentical includes = true
     ↔ ∃ i a b, includes !! i = Some a ∧ includes !! S i = Some b ∧ shareCondition a b) ∧
  (∀ fuel p sw proxy conditions visited enforceTLS st,
     existsb (λ v, sameObject v proxy) visited = false →
     includeMatchConditionsIdentical (projcontour.Spec_Includes proxy) = true →
     computeRoutes (S fuel) p sw proxy conditions visited enforceTLS st
     = Done ([], SetInvalid sw "duplicate conditions defined on an include", st)) ∧
  (∀ fuel p sw proxy conditions visited enforceTLS st,
     existsb (λ v, sameObject v proxy) visited = false →
     includeMatchConditionsIdentical (projcontour.Spec_Includes proxy) = false →
     computeRoutes (S fuel) p sw proxy conditions visited enforceTLS st
     = computeRoutes_body
         (λ sw delegate conditions visited st,
            computeRoutes fuel p sw delegate conditions visited enforceTLS st)
         p sw proxy conditions (visited ++ [proxy]) enforceTLS st).
Proof.
  split_and!.
  - intros [|first rest].
    + split; [done |]. intros (i & a & b & Ha & _). by destruct i.
    + apply includeMatchConditionsIdentical_from_true.
  - intros fuel p sw proxy conditions visited enforceTLS st Hv Hdup.
    cbn [computeRoutes]. by rewrite Hv, Hdup.
  - intros fuel p sw proxy conditions visited enforceTLS st Hv Hdup.
    cbn [computeRoutes]. by rewrite Hv, Hdup.
Qed.

Lemma computeRoutes_reentered fuel p sw proxy conditions visited enforceTLS st :
  existsb (λ v, sameObject v proxy) visited = true →
  computeRoutes (S fuel) p sw proxy conditions visited enforceTLS st
  = Done ([], SetInvalid sw ("include creates a delegation cycle: "
                             +:+ cyclePath visited proxy), st).
Proof. intros Hcycle. cbn [computeRoutes]. by rewrite Hcycle. Qed.

(** C2, as the code has it.  An include of the route walk that
    resolves to a document without a virtual host which is already
    on the ancestor path: the document entered again is marked invalid
    with the chain, that status is committed, no routes are added, and
    the walk goes on with the next include.  An include of the TCP
    proxy walk in the same situation: the including document is marked
    invalid with the same chain behind another prefix, the walk
    returns false and no TCP proxy is attached.  In both walks an
    include that resolves to a root is refused before the cycle check,
    on the ancestor path or not. *)
Theorem include_cycle_detected :
  (∀ fuel p proxy conditions visited enforceTLS include rest routes sw st delegate,
     lookupHTTPProxy (Source p) (includeTarget proxy include) = Some delegate →
     projcontour.Spec_VirtualHost delegate = None →
     pathMatchConditionsValid (projcontour.inc_Conditions include) = None →
     existsb (λ v, sameObject v delegate) visited = true →
     let recurse : walk := λ sw d c v st, computeRoutes (S fuel) p sw d c v enforceTLS st in
     computeRoutes_includes recurse p proxy conditions visited (include :: rest) routes sw st
     = computeRoutes_includes recurse p proxy conditions visited rest routes sw
         (deleteOrphaned (k8s_NamespacedNameOf delegate)
            (commit (SetInvalid (WithObject delegate)
                       ("include creates a delegation cycle: " +:+ cyclePath visited delegate))
               st))) ∧
  (∀ fuel p sw httpproxy visited host st tcpproxy inc dest,
     projcontour.Spec_TCPProxy httpproxy = Some tcpproxy →
     projcontour.tcp_Services tcpproxy = [] →
     tcpIncludeOf tcpproxy = Some inc →
     lookupHTTPProxy (Source p) (tcpIncludeTarget httpproxy inc) = Some dest →
     projcontour.Spec_VirtualHost dest = None →
     existsb (λ hp, sameObject dest hp) (visited ++ [httpproxy]) = true →
     processHTTPProxyTCPProxy (S fuel) p sw httpproxy visited host st
     = Done (false,
             SetInvalid sw ("tcpproxy include creates a cycle: "
                            +:+ cyclePath (visited ++ [httpproxy]) dest),
             deleteOrphaned (k8s_NamespacedNameOf dest) st)) ∧
  (∀ (recurse : walk) p proxy conditions visited include rest routes sw st delegate,
     lookupHTTPProxy (Source p) (includeTarget proxy include) = Some delegate →
     is_Some (projcontour.Spec_VirtualHost delegate) →
     computeRoutes_includes recurse p proxy conditions visited (include :: rest) routes sw st
     = Done (None,
             SetInvalid sw "root httpproxy cannot delegate to another root httpproxy", st)) ∧
  (∀ fuel p sw httpproxy visited host st tcpproxy inc dest,
     projcontour.Spec_TCPProxy httpproxy = Some tcpproxy →
     projcontour.tcp_Services tcpproxy = [] →
     tcpIncludeOf tcpproxy = Some inc →
     lookupHTTPProxy (Source p) (tcpIncludeTarget httpproxy inc) = Some dest →
     is_Some (projcontour.Spec_VirtualHost dest) →
     processHTTPProxyTCPProxy (S fuel) p sw httpproxy visited host st
     = Done (false,
             SetInvalid sw "root httpproxy cannot delegate to another root httpproxy", st)).
Proof.
  split_and!.
  - intros fuel p proxy conditions visited enforceTLS include rest routes sw st delegate
      Hlook Hleaf Hvalid Hcycle recurse.
    cbn [computeRoutes_includes].
    change (lookupHTTPProxy (Source p) _) with
      (lookupHTTPProxy (Source p) (includeTarget proxy include)) at 1.
    rewrite Hlook, Hleaf, Hvalid.
    rewrite bool_decide_eq_false_2 by (by intros [? ?]).
    subst recurse. cbn beta. rewrite computeRoutes_reentered by done. cbn.
    by rewrite app_nil_r.
  - intros fuel p sw httpproxy visited host st tcpproxy inc dest
      Htcp Hsvc Hinc Hlook Hleaf Hcycle.
    cbn [processHTTPProxyTCPProxy]. rewrite Htcp. fold (tcpIncludeOf tcpproxy).
    rewrite Hsvc, Hinc. cbn [length].
    rewrite (bool_decide_eq_false_2 (0 < 0)) by lia. cbn [andb].
    change (lookupHTTPProxy (Source p) _) with
      (lookupHTTPProxy (Source p) (tcpIncludeTarget httpproxy inc)).
    rewrite Hlook, Hleaf.
    rewrite bool_decide_eq_false_2 by (by intros [? ?]).
    by rewrite Hcycle.
  - intros recurse p proxy conditions visited include rest routes sw st delegate Hlook Hroot.
    cbn [computeRoutes_includes].
    change (lookupHTTPProxy (Source p) _) with
      (lookupHTTPProxy (Source p) (includeTarget proxy include)).
    rewrite Hlook. by rewrite bool_decide_eq_true_2.
  - intros fuel p sw httpproxy visited host st tcpproxy inc dest
      Htcp Hsvc Hinc Hlook Hroot.
    cbn [processHTTPProxyTCPProxy]. rewrite Htcp. fold (tcpIncludeOf tcpproxy).
    rewrite Hsvc, Hinc. cbn [length].
    rewrite (bool_decide_eq_false_2 (0 < 0)) by lia. cbn [andb].
    change (lookupHTTPProxy (Source p) _) with
      (lookupHTTPProxy (Source p) (tcpIncludeTarget httpproxy inc)).
    rewrite Hlook. by rewrite bool_decide_eq_true_2.
Qed.

(** The port check of the route walk comes before the lookup: a port
    outside 1-65535 marks the document invalid and leaves the builder
    as it was. *)
Lemma computeRoutes_services_port proxy route service rest r sw st :
  (projcontour.svc_Port service < 1 ∨ projcontour.svc_Port service > 65535)%Z →
  computeRoutes_services proxy route (service :: rest) r sw st
  = (None,
     SetInvalid sw ("service " +:+ strconv_Quote (projcontour.svc_Name service)
                    +:+ ": port must be in the range 1-65535"),
     st).
Proof.
  intros Hport. cbn [computeRoutes_services]. by rewrite bool_decide_eq_true_2.
Qed.

(** The TCP proxy walk has no such check: whatever the port, the
    first thing it does with a service is the lookup. *)
Lemma tcpproxy_services_lookup httpproxy tcpproxy service rest clusters sw st res sw' st' :
  tcpproxy_services httpproxy tcpproxy (service :: rest) clusters sw st = (res, sw', st') →
  ∃ later,
    serviceLookups st'
    = serviceLookups st
      ++ ({| nn_Namespace := projcontour.Namespace httpproxy;
             nn_Name := projcontour.svc_Name service |},
          intstr_FromInt (projcontour.svc_Port service)) :: later.
Proof.
  cbn [tcpproxy_services builder_lookupService].
  destruct (lookupService _ _) as [err|s].
  - intros [= <- <- <-]. by exists [].
  - generalize (clusters ++ [ {| Upstream := s; cl_Protocol := Service_Protocol s;
        UpstreamValidation := None;
        cl_LoadBalancerPolicy := loadBalancerPolicy (projcontour.tcp_LoadBalancerPolicy tcpproxy);
        Weight := 0; cl_HTTPHealthCheckPolicy := None;
        cl_TCPHealthCheckPolicy := tcpHealthCheckPolicy (projcontour.tcp_HealthCheckPolicy tcpproxy);
        cl_RequestHeadersPolicy := None; cl_ResponseHeadersPolicy := None; SNI := "" |} ]).
    set (st1 := set_serviceLookups _ st).
    assert (Hgen : ∀ cs sw1 st1 res sw' st',
      tcpproxy_services httpproxy tcpproxy rest cs sw1 st1 = (res, sw', st') →
      ∃ later, serviceLookups st' = serviceLookups st1 ++ later).
    { clear. induction rest as [|s0 rest IH]; intros cs sw1 st1 res sw' st' Heq.
      - cbn in Heq. simplify_eq. exists []. by rewrite app_nil_r.
      - cbn [tcpproxy_services builder_lookupService] in Heq.
        destruct (lookupService _ _).
        + simplify_eq. cbn. by eexists.
        + apply IH in Heq as [later ->]. cbn. rewrite <-app_assoc. by eexists. }
    intros cs Heq. apply Hgen in Heq as [later ->]. subst st1. cbn.
    rewrite <-app_assoc. by exists later.
Qed.

End checks.

(** ** What the processing of one root preserves *)

Section root_preserves.
Context `{Collaborators}.
Variable p : HTTPProxyProcessor.
Variable D : projcontour.HTTPProxy → Prop.
Variable touched : string → Prop.
Variable R : relation RunState.

Hypothesis D_include : ∀ proxy include d,
  D proxy → include ∈ projcontour.Spec_Includes proxy →
  lookupHTTPProxy (Source p) (includeTarget proxy include) = Some d → D d.
Hypothesis D_tcp : ∀ httpproxy tcpproxy inc d,
  D httpproxy → projcontour.Spec_TCPProxy httpproxy = Some tcpproxy →
  tcpIncludeOf tcpproxy = Some inc →
  lookupHTTPProxy (Source p) (tcpIncludeTarget httpproxy inc) = Some d → D d.
Hypothesis R_refl : ∀ st, R st st.
Hypothesis R_trans : ∀ st1 st2 st3, R st1 st2 → R st2 st3 → R st1 st3.
Hypothesis R_commit : ∀ sw st, R st (commit sw st).
Hypothesis R_delete : ∀ d st,
  D d → projcontour.Spec_VirtualHost d = None →
  R st (deleteOrphaned (k8s_NamespacedNameOf d) st).
Hypothesis R_lookup : ∀ f st, R st (set_serviceLookups f st).
Hypothesis R_secure : ∀ host f st, touched host → R st (withSecureVirtualHost host f st).
Hypothesis R_insecure : ∀ host routes st, touched host → R st (addRoutes_insecure host routes st).

Lemma tcpproxy_services_R httpproxy tcpproxy services clusters sw st res sw' st' :
  tcpproxy_services httpproxy tcpproxy services clusters sw st = (res, sw', st') → R st st'.
Proof using R_refl R_trans R_lookup.
  revert clusters sw st. induction services as [|service services IH]; intros clusters sw st Heq.
  - cbn in Heq. by simplify_eq.
  - cbn [tcpproxy_services builder_lookupService] in Heq.
    destruct (lookupService _ _); simplify_eq; eauto.
Qed.

Lemma processHTTPProxyTCPProxy_R fuel sw httpproxy visited host st ok sw' st' :
  D httpproxy → touched host →
  processHTTPProxyTCPProxy fuel p sw httpproxy visited host st = Done (ok, sw', st') →
  R st st'.
Proof using All.
  intros HD Hhost. revert sw httpproxy visited st ok sw' st' HD.
  induction fuel as [|fuel IH]; intros sw httpproxy visited st ok sw' st' HD Heq; [done |].
  cbn [processHTTPProxyTCPProxy] in Heq.
  destruct (projcontour.Spec_TCPProxy httpproxy) as [tcpproxy|] eqn:Htcp; [| by simplify_eq].
  fold (tcpIncludeOf tcpproxy) in Heq.
  destruct (bool_decide (0 < length _) && _); [by simplify_eq |].
  destruct (bool_decide (0 < length _)).
  { destruct (tcpproxy_services _ _ _ _ _ _) as [[[clusters|] sw1] st1] eqn:Hsvc;
      simplify_eq; eauto using tcpproxy_services_R. }
  destruct (tcpIncludeOf tcpproxy) as [inc|] eqn:Hinc; [| by simplify_eq].
  change (lookupHTTPProxy (Source p) _) with
    (lookupHTTPProxy (Source p) (tcpIncludeTarget httpproxy inc)) in Heq.
  destruct (lookupHTTPProxy _ _) as [dest|] eqn:Hlook; [| by simplify_eq].
  case_bool_decide as Hroot; [by simplify_eq |].
  assert (HDd : D dest) by eauto.
  assert (Hdel : R st (deleteOrphaned (k8s_NamespacedNameOf dest) st)).
  { apply R_delete; [done |]. destruct (projcontour.Spec_VirtualHost dest); [| done].
    exfalso. apply Hroot. by eexists. }
  destruct (existsb _ _); [by simplify_eq |].
  destruct (processHTTPProxyTCPProxy fuel _ _ _ _ _ _) as [[[ok1 dsw] st1]| |] eqn:Hrec;
    [| done..].
  cbn in Heq. simplify_eq. apply IH in Hrec; [| done]. eauto.
Qed.

Lemma computeHTTPProxy_tls_R sw proxy host tls st ok sw' st' :
  touched host →
  computeHTTPProxy_tls p sw proxy host tls st = (ok, sw', st') → R st st'.
Proof using R_refl R_trans R_secure.
  intros Hhost. unfold computeHTTPProxy_tls. intros Heq.
  repeat case_match; simplify_eq; eauto 6.
Qed.

(** Processing a root relates the state before to the state after,
    whatever route property is followed along. *)
Lemma computeHTTPProxy_root_R fuel proxy vh st st' :
  projcontour.Spec_VirtualHost proxy = Some vh → touched (projcontour.Fqdn vh) → D proxy →
  computeHTTPProxy fuel p proxy st = Done st' → R st st'.
Proof using All.
  intros Hvh Hhost HD. unfold computeHTTPProxy, computeHTTPProxy_body. rewrite Hvh.
  intros Heq.
  destruct (negb (rootAllowed _ _)); [cbn in Heq; simplify_eq; by eauto |].
  destruct (isBlank _); [cbn in Heq; simplify_eq; by eauto |].
  destruct (strings.Contains _ _); [cbn in Heq; simplify_eq; by eauto |].
  destruct (_ && _ && _); [cbn in Heq; simplify_eq; by eauto |].
  set (sw0 := WithValue _ _ _) in Heq.
  assert (Htls : ∃ tlsOK tlsEnabled sw1 st1, R st st1 ∧
    match projcontour.vh_TLS vh with
    | Some tls =>
        let '(ok, sw, st) := computeHTTPProxy_tls p sw0 proxy (projcontour.Fqdn vh) tls st in
        (ok, ok, sw, st)
    | None => (true, false, sw0, st)
    end = (tlsOK, tlsEnabled, sw1, st1)).
  { destruct (projcontour.vh_TLS vh) as [tls|]; [| by eauto 8].
    destruct (computeHTTPProxy_tls _ _ _ _ _ _) as [[ok sw1] st1] eqn:Htls.
    exists ok, ok, sw1, st1. split; [| done]. by eapply computeHTTPProxy_tls_R. }
  destruct Htls as (tlsOK & tlsEnabled & sw1 & st1 & HR1 & Htls).
  rewrite Htls in Heq.
  destruct (negb tlsOK); [cbn in Heq; simplify_eq; by eauto |].
  assert (Htcp : ∀ res,
    match projcontour.Spec_TCPProxy proxy with
    | Some _ =>
        if negb tlsEnabled then
          Done (false,
                SetInvalid sw1 "Spec.TCPProxy requires that either Spec.TLS.Passthrough or Spec.TLS.SecretName be set",
                st1)
        else processHTTPProxyTCPProxy fuel p sw1 proxy [] (projcontour.Fqdn vh) st1
    | None => Done (true, sw1, st1)
    end = Done res → R st1 res.2).
  { intros [[ok sw2] st2] Hres. destruct (projcontour.Spec_TCPProxy proxy); [| by simplify_eq].
    destruct (negb tlsEnabled); [by simplify_eq |].
    by eapply processHTTPProxyTCPProxy_R. }
  destruct (match projcontour.Spec_TCPProxy proxy with Some _ => _ | None => _ end)
    as [[[ok sw2] st2]| |] eqn:Hres; [| done..].
  specialize (Htcp _ eq_refl). cbn in Htcp, Heq. clear Hres.
  destruct (negb ok); [cbn in Heq; simplify_eq; by eauto |].
  destruct (computeRoutes _ _ _ _ _ _ _ _) as [[[routes sw3] st3]| |] eqn:Hroutes; [| done..].
  cbn in Heq. simplify_eq.
  eapply (computeRoutes_inv p tlsEnabled D (λ _, True) R) in Hroutes as [_ HR3]; try done.
  eapply R_trans; [exact HR1 |]. eapply R_trans; [exact Htcp |].
  eapply R_trans; [exact HR3 |].
  eapply R_trans; [| apply R_commit].
  destruct (_ && _); eauto.
Qed.

End root_preserves.

(** ** The validity partition *)

Section validHTTPProxies_facts.
Context `{Collaborators}.

Implicit Types (p : HTTPProxyProcessor) (st : RunState).
Implicit Types (docs valid : list projcontour.HTTPProxy).
Implicit Types (m : list (string * list projcontour.HTTPProxy)).

Lemma validHTTPProxies_partition_spec docs valid m :
  (validHTTPProxies_partition docs valid m).1 = valid ++ leavesOf docs ∧
  (∀ f, lookupGroup f (validHTTPProxies_partition docs valid m).2
        = lookupGroup f m ++ rootsOf f docs) ∧
  (NoDup m.*1 → NoDup (validHTTPProxies_partition docs valid m).2.*1).
Proof.
  revert valid m. induction docs as [|proxy docs IH]; intros valid m.
  - cbn. split_and!; [by rewrite app_nil_r | intros; by rewrite app_nil_r | done].
  - cbn [validHTTPProxies_partition]. unfold leavesOf, rootsOf, fqdnOf.
    rewrite !filter_cons.
    destruct (projcontour.Spec_VirtualHost proxy) as [vh|] eqn:Hvh.
    + destruct (IH valid (map_append (projcontour.Fqdn vh) proxy m)) as (-> & Hl & Hnd).
      split_and!.
      * by rewrite decide_False.
      * intros f. rewrite Hl, lookupGroup_map_append. rewrite filter_cons, Hvh. cbn.
        destruct (decide (f = projcontour.Fqdn vh)) as [->|Hne].
        -- rewrite decide_True by done. by rewrite <-app_assoc.
        -- rewrite decide_False by congruence. done.
      * intros Hm. by apply Hnd, map_append_NoDup.
    + destruct (IH (valid ++ [proxy]) m) as (-> & Hl & Hnd).
      split_and!.
      * rewrite decide_True by done. by rewrite <-app_assoc.
      * intros f. rewrite Hl. rewrite filter_cons, Hvh. cbn.
        by rewrite decide_False.
      * done.
Qed.

Lemma markConflicting_spec fqdn msg proxies st :
  statuses (markConflicting fqdn msg proxies st)
  = statuses st ++ (conflictStatus fqdn msg <$> proxies) ∧
  virtualhosts (markConflicting fqdn msg proxies st) = virtualhosts st ∧
  securevirtualhosts (markConflicting fqdn msg proxies st) = securevirtualhosts st ∧
  orphaned (markConflicting fqdn msg proxies st) = orphaned st.
Proof.
  unfold markConflicting. revert st.
  induction proxies as [|proxy proxies IH]; intros st; cbn [foldl fmap list_fmap].
  - by rewrite app_nil_r.
  - destruct (IH (commit (SetInvalid (WithValue (WithObject proxy) "vhost" fqdn) msg) st))
      as (-> & -> & -> & ->).
    cbn. by rewrite <-app_assoc.
Qed.

Lemma validHTTPProxies_groups_spec (groups : list (string * list projcontour.HTTPProxy))
    valid st :
  let res := validHTTPProxies_groups groups valid st in
  (∃ roots, res.1 = valid ++ roots ∧ ∀ x, x ∈ roots → ∃ f, (f, [x]) ∈ groups) ∧
  (∃ log, statuses res.2 = statuses st ++ log ∧
     ∀ f ps x, (f, ps) ∈ groups → length ps ≠ 1 → x ∈ ps →
       conflictStatus f (conflictMessage f ps) x ∈ log) ∧
  virtualhosts res.2 = virtualhosts st ∧
  securevirtualhosts res.2 = securevirtualhosts st ∧
  orphaned res.2 = orphaned st.
Proof.
  cbn zeta. revert valid st.
  induction groups as [|[f ps] groups IH]; intros valid st.
  - cbn. split_and!; try done.
    + exists []. split; [by rewrite app_nil_r |]. by intros x ?%elem_of_nil.
    + exists []. split; [by rewrite app_nil_r |]. by intros f ps x ?%elem_of_nil.
  - cbn [validHTTPProxies_groups].
    assert (Hcase : (∃ x, ps = [x]) ∨ length ps ≠ 1).
    { destruct ps as [|x [|y ps]]; cbn; eauto. }
    destruct Hcase as [[x ->]|Hlen].
    + destruct (IH (valid ++ [x]) st) as ((roots & -> & Hroots) & (log & -> & Hlog) & Hrest).
      split_and!; [| | apply Hrest..].
      * exists (x :: roots). split; [by rewrite <-app_assoc |].
        intros y [->|Hy]%elem_of_cons; [exists f; left |].
        destruct (Hroots y Hy) as [f' Hf']. exists f'. by right.
      * exists log. split; [done |]. intros f' ps' y [[= -> ->]|Hin]%elem_of_cons Hl Hy.
        -- done.
        -- eauto.
    + assert (Hstep : validHTTPProxies_groups ((f, ps) :: groups) valid st
                      = validHTTPProxies_groups groups valid
                          (markConflicting f (conflictMessage f ps) ps st)).
      { destruct ps as [|x [|y ps]]; done. }
      cbn [validHTTPProxies_groups] in Hstep. rewrite Hstep.
      destruct (markConflicting_spec f (conflictMessage f ps) ps st) as (Hs & Hv & Hsv & Ho).
      destruct (IH valid (markConflicting f (conflictMessage f ps) ps st))
        as ((roots & -> & Hroots) & (log & -> & Hlog) & -> & -> & ->).
      split_and!; [| | done..].
      * exists roots. split; [done |]. intros y Hy.
        destruct (Hroots y Hy) as [f' Hf']. exists f'. by right.
      * exists ((conflictStatus f (conflictMessage f ps) <$> ps) ++ log).
        split; [by rewrite Hs, <-app_assoc |].
        intros f' ps' y [[= -> ->]|Hin]%elem_of_cons Hl Hy.
        -- apply elem_of_app. left. by apply list_elem_of_fmap_2.
        -- apply elem_of_app. right. eauto.
Qed.

(** The groups that [validHTTPProxies] ranges over are the roots of
    the snapshot by FQDN. *)
Lemma fqdn_groups p f ps :
  (f, ps) ∈ range_order _ (validHTTPProxies_partition (httpproxies (Source p)) [] []).2 →
  ps = rootsOf f (httpproxies (Source p)).
Proof.
  rewrite range_order_perm. intros Hin.
  destruct (validHTTPProxies_partition_spec (httpproxies (Source p)) [] []) as (_ & Hl & Hnd).
  apply lookupGroup_elem_of in Hin; [| apply Hnd, NoDup_nil_2].
  by rewrite Hl in Hin.
Qed.

Lemma fqdn_groups_elem_of p f :
  rootsOf f (httpproxies (Source p)) ≠ [] →
  (f, rootsOf f (httpproxies (Source p)))
  ∈ range_order _ (validHTTPProxies_partition (httpproxies (Source p)) [] []).2.
Proof.
  intros Hne. rewrite range_order_perm.
  destruct (validHTTPProxies_partition_spec (httpproxies (Source p)) [] []) as (_ & Hl & _).
  specialize (Hl f). cbn in Hl. rewrite <-Hl in *. by apply lookupGroup_nonempty.
Qed.

(** The valid set: the leaves of the snapshot in iteration order, then
    roots, each the only root of its FQDN. *)
Lemma validHTTPProxies_spec p st :
  (∃ roots,
     (validHTTPProxies p st).1 = leavesOf (httpproxies (Source p)) ++ roots ∧
     ∀ x, x ∈ roots → validRoot (Source p) x) ∧
  (∃ log, statuses (validHTTPProxies p st).2 = statuses st ++ log ∧
     ∀ f x, 2 ≤ length (rootsOf f (httpproxies (Source p))) →
       x ∈ rootsOf f (httpproxies (Source p)) →
       conflictStatus f (conflictMessage f (rootsOf f (httpproxies (Source p)))) x ∈ log) ∧
  virtualhosts (validHTTPProxies p st).2 = virtualhosts st ∧
  securevirtualhosts (validHTTPProxies p st).2 = securevirtualhosts st ∧
  orphaned (validHTTPProxies p st).2 = orphaned st.
Proof.
  unfold validHTTPProxies.
  destruct (validHTTPProxies_partition (httpproxies (Source p)) [] []) as [valid0 m] eqn:Hpart.
  pose proof (validHTTPProxies_partition_spec (httpproxies (Source p)) [] []) as (Hv & _).
  pose proof (fqdn_groups p) as Hgroups. pose proof (fqdn_groups_elem_of p) as Hgin.
  rewrite Hpart in Hv, Hgroups, Hgin. cbn in Hv, Hgroups, Hgin. subst valid0.
  destruct (validHTTPProxies_groups_spec (range_order _ m)
              (leavesOf (httpproxies (Source p))) st)
    as ((roots & Hvalid & Hroots) & (log & Hlog & Hconf) & Hrest).
  split_and!; [| | apply Hrest..].
  - exists roots. split; [done |]. intros x Hx.
    destruct (Hroots x Hx) as [f Hf]. apply Hgroups in Hf.
    exists f. split; [| done].
    assert (Hin : x ∈ rootsOf f (httpproxies (Source p))) by (rewrite <-Hf; left).
    by apply list_elem_of_filter in Hin as [? _].
  - exists log. split; [done |]. intros f x Hlen Hx.
    apply Hconf; [| lia | done]. apply Hgin. intros Hnil. rewrite Hnil in Hlen. cbn in Hlen. lia.
Qed.

End validHTTPProxies_facts.

(** ** The run over the valid set *)

Section run_facts.
Context `{Collaborators}.

Implicit Types (p : HTTPProxyProcessor) (st : RunState).

Lemma computeHTTPProxy_leaf fuel p leaf st :
  projcontour.Spec_VirtualHost leaf = None →
  computeHTTPProxy fuel p leaf st = Done (orphanLeaf st leaf).
Proof. intros Hleaf. unfold computeHTTPProxy, computeHTTPProxy_body. by rewrite Hleaf. Qed.



Lemma computeHTTPProxies_loop_R (R : relation RunState) fuel p roots st st' :
  (∀ st, R st st) → (∀ st1 st2 st3, R st1 st2 → R st2 st3 → R st1 st3) →
  (∀ x sta stb, x ∈ roots → computeHTTPProxy fuel p x sta = Done stb → R sta stb) →
  computeHTTPProxies_loop fuel p roots st = Done st' → R st st'.
Proof.
  intros Hrefl Htrans. revert st. induction roots as [|x roots IH]; intros st Hstep Heq.
  - cbn in Heq. by simplify_eq.
  - cbn [computeHTTPProxies_loop] in Heq.
    destruct (computeHTTPProxy fuel p x st) as [st1| |] eqn:Hx; [| done..]. cbn in Heq.
    eapply Htrans; [eapply Hstep; [left | done] |].
    apply IH; [| done]. intros y sta stb Hy. apply Hstep. by right.
Qed.


Lemma validRoot_root (src : KubernetesCache) r :
  validRoot src r →
  ∃ vh, projcontour.Spec_VirtualHost r = Some vh ∧ rootsOf (projcontour.Fqdn vh) (httpproxies src) = [r].
Proof.
  intros (f & Hf & Hroots). unfold fqdnOf in Hf.
  destruct (projcontour.Spec_VirtualHost r) as [vh|]; [| done].
  cbn in Hf. simplify_eq. by exists vh.
Qed.


(** A root touches the virtual hosts of its own FQDN only. *)
Lemma computeHTTPProxy_root_graph fuel p r vh f sta stb :
  projcontour.Spec_VirtualHost r = Some vh → projcontour.Fqdn vh ≠ f →
  computeHTTPProxy fuel p r sta = Done stb →
  virtualhosts stb !! f = virtualhosts sta !! f ∧
  securevirtualhosts stb !! f = securevirtualhosts sta !! f.
Proof.
  intros Hvh Hne Heq.
  eapply (computeHTTPProxy_root_R p (λ _, True) (λ host, host ≠ f)
            (λ a b, virtualhosts b !! f = virtualhosts a !! f ∧
                    securevirtualhosts b !! f = securevirtualhosts a !! f)) in Heq;
    try done.
  - intros st1 st2 st3 [-> ->] [-> ->]. done.
  - intros host g st Hhost. cbn. split; [done |]. by apply lookup_insert_ne.
  - intros host routes st Hhost. cbn. split; [| done]. by apply lookup_insert_ne.
Qed.

Lemma sort_Strings_spec (l : list string) :
  Sorted String.le (sort.Strings l) ∧ sort.Strings l ≡ₚ l.
Proof.
  split; [apply Sorted_merge_sort, _ | apply merge_sort_Permutation].
Qed.

(** C1.  When two or more roots of the snapshot carry the FQDN [f],
    each of them is committed as invalid with the conflict message,
    whose names are the namespace/name pairs of those roots in
    ascending order; none of them is in the valid set; and
    [computeHTTPProxies] leaves the virtual hosts of [f], insecure and
    secure, as they were. *)
Theorem fqdn_conflict p st f root :
  root ∈ httpproxies (Source p) → fqdnOf root = Some f →
  2 ≤ length (rootsOf f (httpproxies (Source p))) →
  ∃ names,
    Sorted String.le names ∧
    names ≡ₚ (nameOf <$> rootsOf f (httpproxies (Source p))) ∧
    (conflictStatus f
       ("fqdn " +:+ strconv_Quote f +:+ " is used in multiple HTTPProxies: "
        +:+ strings.Join names ", ") root
     ∈ statuses ((validHTTPProxies p st).2)) ∧
    (root ∉ (validHTTPProxies p st).1) ∧
    ∀ fuel st', computeHTTPProxies fuel p st = Done st' →
      virtualhosts st' !! f = virtualhosts st !! f ∧
      securevirtualhosts st' !! f = securevirtualhosts st !! f.
Proof.
  intros Hroot Hf Hlen.
  set (docs := httpproxies (Source p)) in *.
  exists (sort.Strings (nameOf <$> rootsOf f docs)).
  destruct (sort_Strings_spec (nameOf <$> rootsOf f docs)) as [Hsorted Hperm].
  destruct (validHTTPProxies_spec p st)
    as ((roots & Hvalid & Hroots) & (log & Hlog & Hconf) & Hvh & Hsvh & _).
  assert (Hin : root ∈ rootsOf f docs) by (by apply list_elem_of_filter).
  assert (Hother : ∀ x, x ∈ (validHTTPProxies p st).1 →
            projcontour.Spec_VirtualHost x = None ∨
            ∃ vh, projcontour.Spec_VirtualHost x = Some vh ∧ projcontour.Fqdn vh ≠ f).
  { intros x. rewrite Hvalid. intros [Hx|Hx]%elem_of_app.
    - left. by apply list_elem_of_filter in Hx as [? _].
    - right. apply Hroots, validRoot_root in Hx as (vh & Hvh' & Hone).
      exists vh. split; [done |]. intros Heq. rewrite Heq in Hone.
      fold docs in Hone. rewrite Hone in Hlen. cbn in Hlen. lia. }
  split_and!; [done | done | | |].
  - rewrite Hlog. apply elem_of_app. right. by apply Hconf.
  - intros Hx. apply Hother in Hx as [Hx|(vh & Hx & Hne)];
      unfold fqdnOf in Hf; rewrite Hx in Hf; cbn in Hf; [done | congruence].
  - intros fuel st' Hrun. unfold computeHTTPProxies in Hrun.
    destruct (validHTTPProxies p st) as [valid st0] eqn:Hv. cbn in *.
    rewrite <-Hvh, <-Hsvh.
    eapply (computeHTTPProxies_loop_R
              (λ a b, virtualhosts b !! f = virtualhosts a !! f ∧
                      securevirtualhosts b !! f = securevirtualhosts a !! f));
      [done | by intros ??? [-> ->] [-> ->] | | exact Hrun].
    intros x sta stb Hx Hstep. destruct (Hother x Hx) as [Hleaf|(vh & Hxvh & Hne)].
    + rewrite computeHTTPProxy_leaf in Hstep by done. by simplify_eq.
    + by eapply computeHTTPProxy_root_graph.
Qed.



End run_facts.

(** ** The walks stay within their budget *)

Section budget.
Context `{Collaborators}.
Variable p : HTTPProxyProcessor.

Implicit Types (st : RunState) (sw : ObjectStatusWriter).
Implicit Types (visited : list projcontour.HTTPProxy).

Lemma sameObject_true a b :
  sameObject a b = true ↔ k8s_NamespacedNameOf a = k8s_NamespacedNameOf b.
Proof.
  unfold sameObject, k8s_NamespacedNameOf.
  rewrite andb_true_iff, !bool_decide_eq_true. split; [by intros [-> ->] |].
  by intros [= -> ->].
Qed.

Lemma not_visited visited proxy :
  existsb (λ v, sameObject v proxy) visited = false →
  k8s_NamespacedNameOf proxy ∉ k8s_NamespacedNameOf <$> visited.
Proof.
  intros Hex (v & Hk & Hv)%list_elem_of_fmap.
  assert (existsb (λ v, sameObject v proxy) visited = true); [| congruence].
  apply existsb_exists. exists v. split; [by apply list_elem_of_In |].
  by apply sameObject_true.
Qed.

Lemma not_visited' visited dest :
  existsb (λ hp, sameObject dest hp) visited = false →
  k8s_NamespacedNameOf dest ∉ k8s_NamespacedNameOf <$> visited.
Proof.
  intros Hex (v & Hk & Hv)%list_elem_of_fmap.
  assert (existsb (λ hp, sameObject dest hp) visited = true); [| congruence].
  apply existsb_exists. exists v. split; [by apply list_elem_of_In |].
  by apply sameObject_true.
Qed.

Lemma visited_bound visited :
  NoDup (k8s_NamespacedNameOf <$> visited) →
  (∀ k, k ∈ k8s_NamespacedNameOf <$> visited → k ∈ snapshotKeys (Source p)) →
  length visited ≤ length (httpproxies (Source p)).
Proof.
  intros Hnd Hsub. apply NoDup_submseteq in Hsub; [| done].
  apply submseteq_length in Hsub. unfold snapshotKeys in Hsub. by rewrite !length_fmap in Hsub.
Qed.

Lemma visited_snoc visited proxy :
  NoDup (k8s_NamespacedNameOf <$> visited) →
  (∀ k, k ∈ k8s_NamespacedNameOf <$> visited → k ∈ snapshotKeys (Source p)) →
  k8s_NamespacedNameOf proxy ∈ snapshotKeys (Source p) →
  k8s_NamespacedNameOf proxy ∉ k8s_NamespacedNameOf <$> visited →
  NoDup (k8s_NamespacedNameOf <$> (visited ++ [proxy])) ∧
  (∀ k, k ∈ k8s_NamespacedNameOf <$> (visited ++ [proxy]) → k ∈ snapshotKeys (Source p)).
Proof.
  intros Hnd Hsub Hin Hnin. rewrite fmap_app. cbn [fmap list_fmap]. split.
  - apply NoDup_app. split_and!; [done | | apply NoDup_singleton].
    by intros k Hk ->%list_elem_of_singleton.
  - intros k [Hk| ->%list_elem_of_singleton]%elem_of_app; auto.
Qed.

Lemma lookupHTTPProxy_key m d :
  lookupHTTPProxy (Source p) m = Some d → k8s_NamespacedNameOf d ∈ snapshotKeys (Source p).
Proof.
  intros [Hin _]%lookupHTTPProxy_Some. by apply list_elem_of_fmap_2.
Qed.

Lemma groupByPrefix_budget routes expanded m : groupByPrefix routes expanded m ≠ OutOfFuel.
Proof.
  revert expanded m. induction routes as [|r routes IH]; intros expanded m; [done |].
  cbn [groupByPrefix]. destruct (PathMatchCondition r); [apply IH | done].
Qed.

Lemma expandGroups_budget (l : list (string * list Route)) expanded :
  expandGroups l expanded ≠ OutOfFuel.
Proof.
  revert expanded. induction l as [|[k g] l IH]; intros expanded; [done |].
  cbn [expandGroups].
  assert (Hg : expandGroup k g ≠ OutOfFuel).
  { unfold expandGroup. repeat case_match; done. }
  destruct (expandGroup k g); [cbn; apply IH | done | done].
Qed.

Lemma expandPrefixMatches_budget routes : expandPrefixMatches routes ≠ OutOfFuel.
Proof.
  unfold expandPrefixMatches. pose proof (groupByPrefix_budget routes [] []) as Hg.
  destruct (groupByPrefix routes [] []) as [[e m]| |]; [| done..]. cbn.
  apply expandGroups_budget.
Qed.

Lemma computeRoutes_includes_budget (recurse : walk) proxy conditions visited
    includes routes sw st :
  (∀ sw d c st, k8s_NamespacedNameOf d ∈ snapshotKeys (Source p) → recurse sw d c visited st ≠ OutOfFuel) →
  computeRoutes_includes recurse p proxy conditions visited includes routes sw st ≠ OutOfFuel.
Proof.
  intros Hrec. revert routes sw st.
  induction includes as [|include includes IH]; intros routes sw st; [done |].
  cbn [computeRoutes_includes].
  destruct (lookupHTTPProxy _ _) as [delegate|] eqn:Hlook; [| done].
  case_bool_decide; [done |].
  destruct (pathMatchConditionsValid _); [done |].
  apply lookupHTTPProxy_key in Hlook.
  pose proof (Hrec (WithObject delegate) delegate
                (conditions ++ projcontour.inc_Conditions include) st Hlook) as Hd.
  destruct (recurse _ _ _ _ _) as [[[sub dsw] st1]| |]; [| done..]. cbn. apply IH.
Qed.

Lemma computeRoutes_budget fuel sw proxy conditions visited enforceTLS st :
  NoDup (k8s_NamespacedNameOf <$> visited) →
  (∀ k, k ∈ k8s_NamespacedNameOf <$> visited → k ∈ snapshotKeys (Source p)) →
  k8s_NamespacedNameOf proxy ∈ snapshotKeys (Source p) →
  length (httpproxies (Source p)) < fuel + length visited →
  computeRoutes fuel p sw proxy conditions visited enforceTLS st ≠ OutOfFuel.
Proof.
  revert sw proxy conditions visited st.
  induction fuel as [|fuel IH]; intros sw proxy conditions visited st Hnd Hsub Hin Hlen.
  { pose proof (visited_bound visited Hnd Hsub). lia. }
  cbn [computeRoutes].
  destruct (existsb _ visited) eqn:Hex; [done |].
  destruct (includeMatchConditionsIdentical _); [done |].
  apply not_visited in Hex.
  destruct (visited_snoc visited proxy Hnd Hsub Hin Hex) as [Hnd' Hsub'].
  unfold computeRoutes_body.
  pose proof (computeRoutes_includes_budget
    (λ sw delegate conditions visited st,
       computeRoutes fuel p sw delegate conditions visited enforceTLS st)
    proxy conditions (visited ++ [proxy]) (projcontour.Spec_Includes proxy) [] sw st) as Hinc.
  destruct (computeRoutes_includes _ _ _ _ _ _ _ _ _) as [[[included sw1] st1]| |];
    [| done |].
  - cbn. destruct included as [included|]; [| done].
    destruct (computeRoutes_routes _ _ _ _ _ _ _ _) as [[[out|] sw2] st2]; [| done].
    pose proof (expandPrefixMatches_budget out).
    by destruct (expandPrefixMatches out).
  - exfalso. apply Hinc; [| done]. intros sw0 d c st0 Hd.
    apply IH; [done | done | done |]. rewrite length_app. cbn. lia.
Qed.

Lemma processHTTPProxyTCPProxy_budget fuel sw httpproxy visited host st :
  NoDup (k8s_NamespacedNameOf <$> visited) →
  (∀ k, k ∈ k8s_NamespacedNameOf <$> visited → k ∈ snapshotKeys (Source p)) →
  k8s_NamespacedNameOf httpproxy ∈ snapshotKeys (Source p) →
  k8s_NamespacedNameOf httpproxy ∉ k8s_NamespacedNameOf <$> visited →
  length (httpproxies (Source p)) < fuel + length visited →
  processHTTPProxyTCPProxy fuel p sw httpproxy visited host st ≠ OutOfFuel.
Proof.
  revert sw httpproxy visited st.
  induction fuel as [|fuel IH]; intros sw httpproxy visited st Hnd Hsub Hin Hnin Hlen.
  { pose proof (visited_bound visited Hnd Hsub). lia. }
  cbn [processHTTPProxyTCPProxy].
  destruct (projcontour.Spec_TCPProxy httpproxy) as [tcpproxy|]; [| done].
  destruct (visited_snoc visited httpproxy Hnd Hsub Hin Hnin) as [Hnd' Hsub'].
  destruct (_ && _); [done |].
  destruct (bool_decide _).
  { by destruct (tcpproxy_services _ _ _ _ _ _) as [[[clusters|] sw1] st1]. }
  destruct (match projcontour.tcp_Include tcpproxy with Some _ => _ | None => _ end)
    as [inc|]; [| done].
  destruct (lookupHTTPProxy _ _) as [dest|] eqn:Hlook; [| done].
  case_bool_decide; [done |].
  destruct (existsb _ _) eqn:Hex; [done |].
  apply not_visited' in Hex. apply lookupHTTPProxy_key in Hlook.
  pose proof (IH (WithObject dest) dest (visited ++ [httpproxy])
                (deleteOrphaned (k8s_NamespacedNameOf dest) st) Hnd' Hsub' Hlook Hex) as Hrec.
  destruct (processHTTPProxyTCPProxy fuel _ _ _ _ _ _) as [[[ok dsw] st1]| |]; [done | done |].
  exfalso. apply Hrec; [| done]. rewrite length_app. cbn. lia.
Qed.

Lemma computeHTTPProxy_budget proxy st :
  k8s_NamespacedNameOf proxy ∈ snapshotKeys (Source p) →
  computeHTTPProxy (walkBudget p) p proxy st ≠ OutOfFuel.
Proof.
  intros Hin. unfold computeHTTPProxy, computeHTTPProxy_body, walkBudget.
  destruct (projcontour.Spec_VirtualHost proxy) as [vh|]; [| done].
  destruct (negb (rootAllowed _ _)); [done |].
  destruct (isBlank _); [done |].
  destruct (strings.Contains _ _); [done |].
  destruct (_ && _ && _); [done |].
  destruct (match projcontour.vh_TLS vh with Some _ => _ | None => _ end)
    as [[[tlsOK tlsEnabled] sw1] st1].
  destruct (negb tlsOK); [done |].
  assert (Htcp :
    match projcontour.Spec_TCPProxy proxy with
    | Some _ =>
        if negb tlsEnabled then
          Done (false,
                SetInvalid sw1 "Spec.TCPProxy requires that either Spec.TLS.Passthrough or Spec.TLS.SecretName be set",
                st1)
        else processHTTPProxyTCPProxy (S (length (httpproxies (Source p)))) p sw1 proxy []
               (projcontour.Fqdn vh) st1
    | None => Done (true, sw1, st1)
    end ≠ OutOfFuel).
  { destruct (projcontour.Spec_TCPProxy proxy); [| done].
    destruct (negb tlsEnabled); [done |].
    apply processHTTPProxyTCPProxy_budget; cbn; try done; [constructor | | | lia].
    - by intros k ?%elem_of_nil.
    - apply not_elem_of_nil. }
  destruct (match projcontour.Spec_TCPProxy proxy with Some _ => _ | None => _ end)
    as [[[ok sw2] st2]| |]; [| done..].
  cbn [mbind outcome_bind]. destruct (negb ok); [done |].
  pose proof (computeRoutes_budget (S (length (httpproxies (Source p)))) sw2 proxy [] []
                tlsEnabled st2) as Hroutes.
  destruct (computeRoutes _ _ _ _ _ _ _ _) as [[[routes sw3] st3]| |]; cbn; [done | done |].
  exfalso. apply Hroutes; cbn; try done; [constructor | | lia].
  by intros k ?%elem_of_nil.
Qed.

Lemma computeHTTPProxies_loop_budget proxies st :
  Forall (λ x, x ∈ httpproxies (Source p)) proxies →
  computeHTTPProxies_loop (walkBudget p) p proxies st ≠ OutOfFuel.
Proof.
  intros Hall. revert st. induction Hall as [|x proxies Hx _ IH]; intros st; [done |].
  cbn [computeHTTPProxies_loop].
  pose proof (computeHTTPProxy_budget x st (list_elem_of_fmap_2 _ _ _ Hx)) as Hstep.
  destruct (computeHTTPProxy _ _ _ _); [cbn; apply IH | done | done].
Qed.

Lemma validHTTPProxies_in_snapshot st :
  Forall (λ x, x ∈ httpproxies (Source p)) (validHTTPProxies p st).1.
Proof.
  destruct (validHTTPProxies_spec p st) as ((roots & -> & Hroots) & _).
  apply Forall_app. split; apply Forall_forall; intros x Hx.
  - by apply list_elem_of_filter in Hx as [_ ?].
  - apply Hroots in Hx as (f & _ & Hone).
    assert (Hin : x ∈ rootsOf f (httpproxies (Source p))) by (rewrite Hone; left).
    by apply list_elem_of_filter in Hin as [_ ?].
Qed.

(** The budget that [Run] hands to the walks is never used up. *)
Lemma Run_budget st : Run p st ≠ OutOfFuel.
Proof.
  unfold Run, computeHTTPProxies.
  pose proof (validHTTPProxies_in_snapshot (set_orphaned (λ _, ∅) st)) as Hvalid.
  destruct (validHTTPProxies p _) as [valid st0]. cbn in Hvalid.
  pose proof (computeHTTPProxies_loop_budget valid st0 Hvalid) as Hloop.
  by destruct (computeHTTPProxies_loop _ _ _ _).
Qed.

End budget.

(** ** The run returns

    The only panic is the type assertion of [expandPrefixMatches].  When
    [mergePathMatchConditions] yields prefix conditions only, no walk
    panics and [Run] returns a state. *)

Section returns.
Context `{Collaborators}.
Variable p : HTTPProxyProcessor.
Hypothesis merged_prefix : ∀ conds,
  ∃ prefix, mergePathMatchConditions conds = PrefixMatchCondition prefix.

Implicit Types (st : RunState) (sw : ObjectStatusWriter).

Lemma applyPrefixReplacements_path routingPrefix replacements r :
  PathMatchCondition (applyPrefixReplacements routingPrefix replacements r)
  = PathMatchCondition r.
Proof. unfold applyPrefixReplacements. repeat case_match; done. Qed.

Lemma computeRoutes_route_prefixed proxy conditions enforceTLS route sw st r sw' st' :
  computeRoutes_route p proxy conditions enforceTLS route sw st = (Some r, sw', st') →
  HasPathPrefix r = true.
Proof using merged_prefix.
  unfold computeRoutes_route, HasPathPrefix. intros Heq.
  destruct (merged_prefix (conditions ++ projcontour.rt_Conditions route)) as [prefix Hm].
  repeat case_match; simplify_eq.
  all: apply computeRoutes_services_keeps in Heq as (_ & _ & Hpath & _).
  all: rewrite ?applyPrefixReplacements_path in Hpath; cbn in Hpath; congruence.
Qed.

Lemma computeRoutes_prefixed fuel sw proxy conditions visited enforceTLS st routes sw' st' :
  computeRoutes fuel p sw proxy conditions visited enforceTLS st = Done (routes, sw', st') →
  Forall (λ r, HasPathPrefix r = true) routes.
Proof using merged_prefix.
  intros Heq.
  eapply (computeRoutes_inv p enforceTLS (λ _, True) (λ r, HasPathPrefix r = true)
            (λ _ _, True)); [done | done | done | | done.. | exact Heq].
  intros hp cs route sw0 st0 r0 sw1 st1 _ _. apply computeRoutes_route_prefixed.
Qed.

Lemma computeRoutes_includes_no_panic (recurse : walk) proxy conditions visited
    includes routes sw st :
  (∀ sw d c v st, recurse sw d c v st ≠ Panicked) →
  computeRoutes_includes recurse p proxy conditions visited includes routes sw st ≠ Panicked.
Proof.
  intros Hrec. revert routes sw st.
  induction includes as [|include includes IH]; intros routes sw st; [done |].
  cbn [computeRoutes_includes].
  destruct (lookupHTTPProxy _ _) as [delegate|]; [| done].
  case_bool_decide; [done |].
  destruct (pathMatchConditionsValid _); [done |].
  pose proof (Hrec (WithObject delegate) delegate
                (conditions ++ projcontour.inc_Conditions include) visited st) as Hd.
  destruct (recurse _ _ _ _ _) as [[[sub dsw] st1]| |]; [| done..]. cbn. apply IH.
Qed.

Lemma computeRoutes_routes_prefixed proxy conditions enforceTLS rs routes sw st out sw' st' :
  Forall (λ r, HasPathPrefix r = true) routes →
  computeRoutes_routes p proxy conditions enforceTLS rs routes sw st = (Some out, sw', st') →
  Forall (λ r, HasPathPrefix r = true) out.
Proof using merged_prefix.
  revert routes sw st. induction rs as [|route rs IH]; intros routes sw st Hroutes Heq.
  - cbn in Heq. by simplify_eq.
  - cbn [computeRoutes_routes] in Heq.
    destruct (computeRoutes_route p proxy conditions enforceTLS route sw st)
      as [[[r|] sw1] st1] eqn:Hroute; [| done].
    eapply IH; [| exact Heq]. apply Forall_app. split; [done |].
    constructor; [| done]. by eapply computeRoutes_route_prefixed.
Qed.

Lemma computeRoutes_no_panic fuel sw proxy conditions visited enforceTLS st :
  computeRoutes fuel p sw proxy conditions visited enforceTLS st ≠ Panicked.
Proof using merged_prefix.
  revert sw proxy conditions visited st.
  induction fuel as [|fuel IH]; intros sw proxy conditions visited st; [done |].
  cbn [computeRoutes].
  destruct (existsb _ visited); [done |].
  destruct (includeMatchConditionsIdentical _); [done |].
  unfold computeRoutes_body.
  set (recurse := λ sw delegate conditions visited st,
         computeRoutes fuel p sw delegate conditions visited enforceTLS st).
  pose proof (computeRoutes_includes_no_panic recurse proxy conditions (visited ++ [proxy])
                (projcontour.Spec_Includes proxy) [] sw st) as Hinc.
  destruct (computeRoutes_includes _ _ _ _ _ _ _ _ _) as [[[included sw1] st1]| |] eqn:Hwalk;
    [| | done].
  - cbn. destruct included as [included|]; [| done].
    assert (Hincluded : Forall (λ r, HasPathPrefix r = true) included).
    { cut (True ∧ ∀ out, Some included = Some out → Forall (λ r, HasPathPrefix r = true) out);
        [intros [_ Hout]; by apply Hout |].
      eapply (computeRoutes_includes_inv p enforceTLS (λ _, True)
                (λ r, HasPathPrefix r = true) (λ _ _, True)); [idtac .. | exact Hwalk];
        first [ done
              | by intros; eapply computeRoutes_route_prefixed
              | intros; split; [by eapply computeRoutes_prefixed | done] ]. }
    destruct (computeRoutes_routes _ _ _ _ _ _ _ _) as [[[out|] sw2] st2] eqn:Hroutes;
      [| done].
    eapply computeRoutes_routes_prefixed in Hroutes; [| done].
    by destruct (expandPrefixMatches_returns out Hroutes) as (expanded & ->).
  - exfalso. apply Hinc; [| done]. intros sw0 d c v st0. apply IH.
Qed.

Lemma processHTTPProxyTCPProxy_no_panic fuel sw httpproxy visited host st :
  processHTTPProxyTCPProxy fuel p sw httpproxy visited host st ≠ Panicked.
Proof.
  revert sw httpproxy visited st.
  induction fuel as [|fuel IH]; intros sw httpproxy visited st; [done |].
  cbn [processHTTPProxyTCPProxy].
  destruct (projcontour.Spec_TCPProxy httpproxy) as [tcpproxy|]; [| done].
  destruct (_ && _); [done |].
  destruct (bool_decide _).
  { by destruct (tcpproxy_services _ _ _ _ _ _) as [[[clusters|] sw1] st1]. }
  destruct (match projcontour.tcp_Include tcpproxy with Some _ => _ | None => _ end)
    as [inc|]; [| done].
  destruct (lookupHTTPProxy _ _) as [dest|]; [| done].
  case_bool_decide; [done |].
  destruct (existsb _ _); [done |].
  pose proof (IH (WithObject dest) dest (visited ++ [httpproxy])
                (deleteOrphaned (k8s_NamespacedNameOf dest) st)) as Hrec.
  by destruct (processHTTPProxyTCPProxy fuel _ _ _ _ _ _) as [[[ok dsw] st1]| |].
Qed.

Lemma computeHTTPProxy_no_panic fuel proxy st : computeHTTPProxy fuel p proxy st ≠ Panicked.
Proof using merged_prefix.
  unfold computeHTTPProxy, computeHTTPProxy_body.
  destruct (projcontour.Spec_VirtualHost proxy) as [vh|]; [| done].
  destruct (negb (rootAllowed _ _)); [done |].
  destruct (isBlank _); [done |].
  destruct (strings.Contains _ _); [done |].
  destruct (_ && _ && _); [done |].
  destruct (match projcontour.vh_TLS vh with Some _ => _ | None => _ end)
    as [[[tlsOK tlsEnabled] sw1] st1].
  destruct (negb tlsOK); [done |].
  assert (Htcp :
    match projcontour.Spec_TCPProxy proxy with
    | Some _ =>
        if negb tlsEnabled then
          Done (false,
                SetInvalid sw1 "Spec.TCPProxy requires that either Spec.TLS.Passthrough or Spec.TLS.SecretName be set",
                st1)
        else processHTTPProxyTCPProxy fuel p sw1 proxy [] (projcontour.Fqdn vh) st1
    | None => Done (true, sw1, st1)
    end ≠ Panicked).
  { destruct (projcontour.Spec_TCPProxy proxy); [| done].
    destruct (negb tlsEnabled); [done |]. apply processHTTPProxyTCPProxy_no_panic. }
  destruct (match projcontour.Spec_TCPProxy proxy with Some _ => _ | None => _ end)
    as [[[ok sw2] st2]| |]; [| done..].
  cbn [mbind outcome_bind]. destruct (negb ok); [done |].
  pose proof (computeRoutes_no_panic fuel sw2 proxy [] [] tlsEnabled st2) as Hroutes.
  by destruct (computeRoutes _ _ _ _ _ _ _ _) as [[[routes sw3] st3]| |].
Qed.

Lemma computeHTTPProxies_loop_no_panic fuel proxies st :
  computeHTTPProxies_loop fuel p proxies st ≠ Panicked.
Proof using merged_prefix.
  revert st. induction proxies as [|x proxies IH]; intros st; [done |].
  cbn [computeHTTPProxies_loop].
  pose proof (computeHTTPProxy_no_panic fuel x st) as Hstep.
  destruct (computeHTTPProxy _ _ _ _); [cbn; apply IH | done | done].
Qed.

(** X19.  [Run] returns.  When [mergePathMatchConditions] yields
    prefix conditions only, a run returns a state on every snapshot:
    include cycles, of routes or of TCP proxies, end the walks rather
    than keep them going, and no type assertion of the prefix
    expansion fails. *)
Theorem Run_returns st : ∃ st', Run p st = Done st'.
Proof using merged_prefix.
  pose proof (Run_budget p st) as Hfuel.
  assert (Hpanic : Run p st ≠ Panicked).
  { unfold Run, computeHTTPProxies.
    destruct (validHTTPProxies p _) as [valid st0].
    pose proof (computeHTTPProxies_loop_no_panic (walkBudget p) valid st0) as Hloop.
    by destruct (computeHTTPProxies_loop _ _ _ _). }
  destruct (Run p st) as [st'| |]; [by exists st' | done | done].
Qed.

End returns.

(** ** The orphan set after a run *)

Section orphans.
Context `{Collaborators}.

Implicit Types (p : HTTPProxyProcessor) (st : RunState).



Lemma reportOrphaned_spec p metas st :
  statuses (reportOrphaned p metas st)
  = statuses st ++ (orphanedStatus <$> omap (lookupHTTPProxy (Source p)) metas).
Proof.
  unfold reportOrphaned. revert st.
  induction metas as [|meta metas IH]; intros st; cbn [foldl omap list_omap].
  - by rewrite app_nil_r.
  - rewrite IH. destruct (lookupHTTPProxy (Source p) meta); [| done].
    cbn. by rewrite <-app_assoc.
Qed.


End orphans.

(** ** Service ports *)

Section ports.
Context `{Collaborators}.

(** C8.  A service of a route with a port outside 1-65535 marks the
    document invalid before any lookup: the builder is left as it was.
    A service of a TCP proxy stanza has no such check: whatever its
    port, the walk starts with the service lookup. *)
Theorem tcpproxy_port_unchecked proxy route service rest r sw st httpproxy tcpproxy clusters :
  (projcontour.svc_Port service < 1 ∨ projcontour.svc_Port service > 65535)%Z →
  computeRoutes_services proxy route (service :: rest) r sw st
  = (None,
     SetInvalid sw ("service " +:+ strconv_Quote (projcontour.svc_Name service)
                    +:+ ": port must be in the range 1-65535"),
     st) ∧
  ∃ later,
    serviceLookups (tcpproxy_services httpproxy tcpproxy (service :: rest) clusters sw st).2
    = serviceLookups st
      ++ ({| nn_Namespace := projcontour.Namespace httpproxy;
             nn_Name := projcontour.svc_Name service |},
          intstr_FromInt (projcontour.svc_Port service)) :: later.
Proof.
  intros Hport. split; [by apply computeRoutes_services_port |].
  destruct (tcpproxy_services httpproxy tcpproxy (service :: rest) clusters sw st)
    as [[res sw'] st'] eqn:Heq.
  by apply tcpproxy_services_lookup in Heq.
Qed.

End ports.

(** ** Verdicts: what a walk writes on the writer it was handed *)

Section verdicts.
Context `{Collaborators}.

Implicit Types (p : HTTPProxyProcessor) (st : RunState) (sw : ObjectStatusWriter).

Lemma computeRoutes_services_sw proxy route services r sw st res sw' st' :
  computeRoutes_services proxy route services r sw st = (res, sw', st') →
  keptOrRefused (bool_decide (is_Some res)) sw sw' ∧ statuses st' = statuses st.
Proof.
  revert r sw st. induction services as [|service services IH]; intros r sw st Heq.
  - cbn in Heq. simplify_eq. by rewrite bool_decide_eq_true_2.
  - cbn [computeRoutes_services builder_lookupService] in Heq.
    repeat case_match; simplify_eq.
    all: try (apply IH in Heq as [Hsw Hst]; by split).
    all: rewrite bool_decide_eq_false_2 by (by intros [? ?]); cbn; eauto.
Qed.

Lemma computeRoutes_route_sw p proxy conditions enforceTLS route sw st res sw' st' :
  computeRoutes_route p proxy conditions enforceTLS route sw st = (res, sw', st') →
  keptOrRefused (bool_decide (is_Some res)) sw sw' ∧ statuses st' = statuses st.
Proof.
  unfold computeRoutes_route. intros Heq.
  repeat case_match; simplify_eq.
  all: try (by apply computeRoutes_services_sw in Heq).
  all: rewrite bool_decide_eq_false_2 by (by intros [? ?]); cbn; eauto.
Qed.

Lemma computeRoutes_routes_sw p proxy conditions enforceTLS rs routes sw st res sw' st' :
  computeRoutes_routes p proxy conditions enforceTLS rs routes sw st = (res, sw', st') →
  keptOrRefused (bool_decide (is_Some res)) sw sw' ∧ statuses st' = statuses st.
Proof.
  revert routes sw st. induction rs as [|route rs IH]; intros routes sw st Heq.
  - cbn in Heq. simplify_eq. by rewrite bool_decide_eq_true_2.
  - cbn [computeRoutes_routes] in Heq.
    destruct (computeRoutes_route p proxy conditions enforceTLS route sw st)
      as [[[r|] sw1] st1] eqn:Hroute;
      apply computeRoutes_route_sw in Hroute as [Hsw Hst].
    + rewrite bool_decide_eq_true_2 in Hsw by done. cbn in Hsw. subst sw1.
      apply IH in Heq as [? ?]. split; [done | congruence].
    + by simplify_eq.
Qed.

Lemma computeRoutes_includes_sw (recurse : walk) p proxy conditions visited includes
    routes sw st res sw' st' :
  computeRoutes_includes recurse p proxy conditions visited includes routes sw st
    = Done (res, sw', st') →
  keptOrRefused (bool_decide (is_Some res)) sw sw'.
Proof.
  revert routes st. induction includes as [|include includes IH]; intros routes st Heq.
  - cbn in Heq. simplify_eq. by rewrite bool_decide_eq_true_2.
  - cbn [computeRoutes_includes] in Heq.
    destruct (lookupHTTPProxy _ _) as [delegate|].
    2: { simplify_eq. rewrite bool_decide_eq_false_2 by (by intros [? ?]). cbn. eauto. }
    case_bool_decide.
    { simplify_eq. rewrite bool_decide_eq_false_2 by (by intros [? ?]). cbn. eauto. }
    destruct (pathMatchConditionsValid _).
    { simplify_eq. rewrite bool_decide_eq_false_2 by (by intros [? ?]). cbn. eauto. }
    destruct (recurse _ _ _ _ _) as [[[sub dsw] st1]| |]; [| done..].
    cbn in Heq. by apply IH in Heq.
Qed.

Lemma computeRoutes_sw fuel p sw proxy conditions visited enforceTLS st routes sw' st' :
  computeRoutes fuel p sw proxy conditions visited enforceTLS st = Done (routes, sw', st') →
  sw' = SetValid sw ∨ (routes = [] ∧ ∃ msg, sw' = SetInvalid sw msg).
Proof.
  destruct fuel as [|fuel]; [done |]. cbn [computeRoutes].
  destruct (existsb _ visited); [intros; simplify_eq; by eauto |].
  destruct (includeMatchConditionsIdentical _); [intros; simplify_eq; by eauto |].
  unfold computeRoutes_body.
  destruct (computeRoutes_includes _ _ _ _ _ _ _ _ _) as [[[included sw1] st1]| |] eqn:Hinc;
    [| done..].
  apply computeRoutes_includes_sw in Hinc. cbn [mbind outcome_bind].
  destruct included as [included|].
  2: { rewrite bool_decide_eq_false_2 in Hinc by (by intros [? ?]).
       intros. simplify_eq. by right. }
  rewrite bool_decide_eq_true_2 in Hinc by done. cbn in Hinc. subst sw1.
  destruct (computeRoutes_routes _ _ _ _ _ _ _ _) as [[[out|] sw2] st2] eqn:Hroutes;
    apply computeRoutes_routes_sw in Hroutes as [Hsw _].
  - rewrite bool_decide_eq_true_2 in Hsw by done. cbn in Hsw. subst sw2.
    destruct (expandPrefixMatches out); [| done..]. cbn. intros. simplify_eq. by left.
  - rewrite bool_decide_eq_false_2 in Hsw by (by intros [? ?]).
    intros. simplify_eq. by right.
Qed.

Lemma SetValid_SetInvalid sw sw0 msg : SetValid sw ≠ SetInvalid sw0 msg.
Proof.
  unfold SetValid, SetInvalid, osw_call. intros [= _ Hcalls].
  apply (f_equal last) in Hcalls. rewrite !last_snoc in Hcalls. done.
Qed.

(** X1.  [computeRoutes] gives exactly one verdict on the writer it
    was handed and touches it in no other way: [SetValid], or
    [SetInvalid] together with no routes at all, the routes of the
    includes walked so far being dropped.  It never hands back routes
    of a document it has marked invalid. *)
Theorem computeRoutes_verdict fuel p sw proxy conditions visited enforceTLS st routes sw' st' :
  computeRoutes fuel p sw proxy conditions visited enforceTLS st = Done (routes, sw', st') →
  (sw' = SetValid sw ∨ (routes = [] ∧ ∃ msg, sw' = SetInvalid sw msg)) ∧
  osw_obj sw' = osw_obj sw ∧
  (routes ≠ [] → last (osw_calls sw') = Some CallSetValid).
Proof.
  intros Heq. apply computeRoutes_sw in Heq as Hsw. split; [done |].
  destruct Hsw as [->|[-> [msg ->]]]; cbn; [| done].
  split; [done |]. intros _. apply last_snoc.
Qed.

Lemma tcpproxy_services_sw httpproxy tcpproxy services clusters sw st res sw' st' :
  tcpproxy_services httpproxy tcpproxy services clusters sw st = (res, sw', st') →
  keptOrRefused (bool_decide (is_Some res)) sw sw' ∧ statuses st' = statuses st.
Proof.
  revert clusters sw st. induction services as [|service services IH]; intros clusters sw st Heq.
  - cbn in Heq. simplify_eq. by rewrite bool_decide_eq_true_2.
  - cbn [tcpproxy_services builder_lookupService] in Heq.
    destruct (lookupService _ _).
    + simplify_eq. rewrite bool_decide_eq_false_2 by (by intros [? ?]). cbn. eauto.
    + apply IH in Heq as [? ?]. by split.
Qed.

Lemma processHTTPProxyTCPProxy_sw fuel p sw httpproxy visited host st ok sw' st' :
  processHTTPProxyTCPProxy fuel p sw httpproxy visited host st = Done (ok, sw', st') →
  sw' = sw ∨ (ok = false ∧ ∃ msg, sw' = SetInvalid sw msg).
Proof.
  destruct fuel as [|fuel]; [done |]. cbn [processHTTPProxyTCPProxy].
  destruct (projcontour.Spec_TCPProxy httpproxy) as [tcpproxy|];
    [| intros; simplify_eq; by left].
  destruct (bool_decide (0 < length _) && _); [intros; simplify_eq; by eauto |].
  destruct (bool_decide (0 < length _)).
  { destruct (tcpproxy_services _ _ _ _ _ _) as [[[clusters|] sw1] st1] eqn:Hsvc;
      apply tcpproxy_services_sw in Hsvc as [Hsw _]; intros; simplify_eq.
    - rewrite bool_decide_eq_true_2 in Hsw by done. by left.
    - rewrite bool_decide_eq_false_2 in Hsw by (by intros [? ?]). by right. }
  destruct (match projcontour.tcp_Include tcpproxy with Some _ => _ | None => _ end);
    [| intros; simplify_eq; by eauto].
  destruct (lookupHTTPProxy _ _); [| intros; simplify_eq; by eauto].
  case_bool_decide; [intros; simplify_eq; by eauto |].
  destruct (existsb _ _); [intros; simplify_eq; by eauto |].
  destruct (processHTTPProxyTCPProxy fuel _ _ _ _ _ _) as [[[ok1 dsw] st1]| |]; [| done..].
  cbn. intros. simplify_eq. by left.
Qed.

(** X2.  The TCP proxy walk and the status writers.  When it passes,
    it leaves the writer it was handed alone and commits one valid
    status for every document of the chain of includes it went
    through, and nothing else, the document furthest down first.  When
    it refuses, exactly one document is marked invalid, the one at
    which the walk stopped: either the document the walk was called
    for, or a document further down, and then the documents above it
    are committed without any verdict and the writer handed in is left
    alone. *)
Theorem processHTTPProxyTCPProxy_verdict fuel p sw httpproxy visited host st ok sw' st' :
  processHTTPProxyTCPProxy fuel p sw httpproxy visited host st = Done (ok, sw', st') →
  ∃ added, statuses st' = statuses st ++ added ∧
    if ok then
      sw' = sw ∧ Forall (λ s, osw_calls s = [CallSetValid]) added ∧
      ∃ chain, tcpChain (Source p) httpproxy chain ∧
        added = (λ d, SetValid (WithObject d)) <$> reverse chain
    else (added = [] ∧ ∃ msg, sw' = SetInvalid sw msg) ∨
         (sw' = sw ∧ ∃ d msg above,
            added = SetInvalid (WithObject d) msg :: above ∧
            Forall (λ s, osw_calls s = []) above).
Proof.
  revert sw httpproxy visited st ok sw' st'.
  induction fuel as [|fuel IH]; intros sw httpproxy visited st ok sw' st' Heq; [done |].
  cbn [processHTTPProxyTCPProxy] in Heq.
  destruct (projcontour.Spec_TCPProxy httpproxy) as [tcpproxy|] eqn:Htcp.
  2: { simplify_eq. exists []. rewrite app_nil_r. split_and!; [done | done | done |].
       exists []. cbn. by rewrite Htcp. }
  destruct (bool_decide (0 < length _) && _).
  { simplify_eq. exists []. rewrite app_nil_r. split; [done |]. left. eauto. }
  case_bool_decide as Hservices.
  { destruct (tcpproxy_services _ _ _ _ _ _) as [[[clusters|] sw1] st1] eqn:Hsvc;
      apply tcpproxy_services_sw in Hsvc as [Hsw Hst]; simplify_eq.
    - rewrite bool_decide_eq_true_2 in Hsw by done. cbn in Hsw. subst.
      exists []. rewrite app_nil_r. split_and!; [done | done | done |].
      exists []. cbn. rewrite Htcp. split; [| done].
      intros Hnil. rewrite Hnil in Hservices. cbn in Hservices. lia.
    - rewrite bool_decide_eq_false_2 in Hsw by (by intros [? ?]).
      exists []. rewrite app_nil_r. split; [done |]. by left. }
  destruct (match projcontour.tcp_Include tcpproxy with Some _ => _ | None => _ end)
    as [inc|] eqn:Hinc.
  2: { simplify_eq. exists []. rewrite app_nil_r. split; [done |]. left. eauto. }
  destruct (lookupHTTPProxy _ _) as [dest|] eqn:Hlook.
  2: { simplify_eq. exists []. rewrite app_nil_r. split; [done |]. left. eauto. }
  case_bool_decide as Hroot.
  { simplify_eq. exists []. rewrite app_nil_r. split; [done |]. left. eauto. }
  destruct (existsb _ _).
  { simplify_eq. exists []. rewrite app_nil_r. split; [done |]. left. eauto. }
  destruct (processHTTPProxyTCPProxy fuel _ _ _ _ _ _) as [[[ok1 dsw] st1]| |] eqn:Hrec;
    [| done..].
  cbn in Heq. simplify_eq. apply IH in Hrec as (added & Hst & Hok). cbn in Hst.
  destruct ok.
  - destruct Hok as (-> & Hall & chain & Hchain & ->).
    exists (((λ d, SetValid (WithObject d)) <$> reverse chain) ++ [SetValid (WithObject dest)]).
    cbn. rewrite Hst, <-app_assoc. split; [done |]. split; [done |]. split.
    { apply Forall_app. split; [done |]. by constructor. }
    exists (dest :: chain). split.
    + cbn [tcpChain]. exists tcpproxy, inc. split_and!; try done.
      * destruct (projcontour.tcp_Services tcpproxy); [done |].
        exfalso. apply Hservices. cbn. lia.
      * destruct (projcontour.Spec_VirtualHost dest); [| done].
        exfalso. apply Hroot. by eexists.
    + by rewrite reverse_cons, fmap_app.
  - destruct Hok as [[-> [msg ->]]|(-> & d & msg & above & -> & Hall)].
    + exists [SetInvalid (WithObject dest) msg]. cbn. rewrite Hst, app_nil_r.
      split; [done |]. right. split; [done |]. by exists dest, msg, [].
    + exists (SetInvalid (WithObject d) msg :: above ++ [WithObject dest]).
      cbn. rewrite Hst, <-app_assoc. split; [done |]. right. split; [done |].
      exists d, msg, (above ++ [WithObject dest]). split; [done |].
      apply Forall_app. split; [done |]. by constructor.
Qed.

End verdicts.


(** ** The checks on a root *)

Section root_checks.
Context `{Collaborators}.

Implicit Types (p : HTTPProxyProcessor) (st : RunState) (sw : ObjectStatusWriter).

Lemma rootAllowed_spec p namespace :
  rootAllowed p namespace = true
  ↔ RootNamespaces (Source p) = [] ∨ namespace ∈ RootNamespaces (Source p).
Proof.
  unfold rootAllowed. destruct (RootNamespaces (Source p)) as [|ns nss].
  - split; [by left | done].
  - rewrite bool_decide_eq_true. split; [by right | by intros [?|?]].
Qed.

(** X3.  The early checks on a root, in the order in which they are
    made: the root namespaces (none configured allows every
    namespace), a blank FQDN, a wildcard in the FQDN, an empty
    spec.  The first check that fails decides the message; the
    document gets that one status, with the [vhost] value only once
    the FQDN is known not to be blank, and nothing else changes. *)
Theorem computeHTTPProxy_early_checks fuel p proxy vh st :
  projcontour.Spec_VirtualHost proxy = Some vh →
  let host := projcontour.Fqdn vh in
  let allowed :=
    RootNamespaces (Source p) = []
    ∨ projcontour.Namespace proxy ∈ RootNamespaces (Source p) in
  (¬ allowed →
   computeHTTPProxy fuel p proxy st
   = Done (commit (SetInvalid (WithObject proxy)
                     "root HTTPProxy cannot be defined in this namespace") st)) ∧
  (allowed → isBlank host = true →
   computeHTTPProxy fuel p proxy st
   = Done (commit (SetInvalid (WithObject proxy)
                     "Spec.VirtualHost.Fqdn must be specified") st)) ∧
  (allowed → isBlank host = false → strings.Contains host "*" = true →
   computeHTTPProxy fuel p proxy st
   = Done (commit (SetInvalid (WithValue (WithObject proxy) "vhost" host)
                     ("Spec.VirtualHost.Fqdn " +:+ strconv_Quote host
                      +:+ " cannot use wildcards")) st)) ∧
  (allowed → isBlank host = false → strings.Contains host "*" = false →
   projcontour.Spec_Routes proxy = [] → projcontour.Spec_Includes proxy = [] →
   projcontour.Spec_TCPProxy proxy = None →
   computeHTTPProxy fuel p proxy st
   = Done (commit (SetInvalid (WithValue (WithObject proxy) "vhost" host)
                     "HTTPProxy.Spec must have at least one Route, Include, or a TCPProxy")
             st)).
Proof.
  intros Hvh host allowed. unfold computeHTTPProxy, computeHTTPProxy_body. rewrite Hvh.
  fold host. split_and!.
  - intros Hno. destruct (rootAllowed p (projcontour.Namespace proxy)) eqn:Hr; [| done].
    by apply rootAllowed_spec in Hr.
  - intros Hok%rootAllowed_spec Hblank. by rewrite Hok, Hblank.
  - intros Hok%rootAllowed_spec Hblank Hwild. by rewrite Hok, Hblank, Hwild.
  - intros Hok%rootAllowed_spec Hblank Hwild Hr Hi Ht.
    by rewrite Hok, Hblank, Hwild, Hr, Hi, Ht.
Qed.

Lemma secureNode_with host f st :
  secureNode host (withSecureVirtualHost host f st) = f (secureNode host st).
Proof.
  unfold secureNode, withSecureVirtualHost, lookupSecureVirtualHost. cbn.
  by rewrite lookup_insert_eq.
Qed.

Lemma securevirtualhosts_with host f st g :
  g ≠ host →
  securevirtualhosts (withSecureVirtualHost host f st) !! g = securevirtualhosts st !! g.
Proof. intros Hne. cbn. by rewrite lookup_insert_ne. Qed.

Lemma securevirtualhosts_with_Some host f st :
  is_Some (securevirtualhosts (withSecureVirtualHost host f st) !! host).
Proof. cbn. rewrite lookup_insert_eq. by eexists. Qed.

(** What the TLS stanza leaves alone, whatever it decides. *)
Lemma computeHTTPProxy_tls_frame p sw proxy host tls st ok sw' st' :
  computeHTTPProxy_tls p sw proxy host tls st = (ok, sw', st') →
  keptOrRefused ok sw sw' ∧
  statuses st' = statuses st ∧ virtualhosts st' = virtualhosts st ∧
  orphaned st' = orphaned st ∧ serviceLookups st' = serviceLookups st ∧
  svh_VirtualHost (secureNode host st') = svh_VirtualHost (secureNode host st) ∧
  svh_TCPProxy (secureNode host st') = svh_TCPProxy (secureNode host st) ∧
  (∀ g, g ≠ host → securevirtualhosts st' !! g = securevirtualhosts st !! g).
Proof.
  unfold computeHTTPProxy_tls. intros Heq.
  repeat case_match; simplify_eq; cbn [keptOrRefused].
  all: rewrite ?secureNode_with; cbn [svh_VirtualHost svh_TCPProxy svh_set_Secret
         svh_set_FallbackCertificate svh_set_DownstreamValidation].
  all: split_and!; eauto.
  all: intros g Hg; by rewrite ?securevirtualhosts_with.
Qed.

(** X4.  A TLS stanza that passes.  Either it asks for passthrough,
    names no secret and no client validation, and nothing changes; or
    it names a secret that the snapshot holds, that is valid and whose
    delegation to the namespace of the document is permitted, and the
    secure virtual host of the FQDN carries that secret and the
    minimum TLS version, the fallback certificate exactly when it is
    enabled (never together with client validation), and the client
    validation context, without a subject name, exactly when the
    stanza asks for it. *)
Theorem computeHTTPProxy_tls_accepted p sw proxy host tls st sw' st' :
  computeHTTPProxy_tls p sw proxy host tls st = (true, sw', st') →
  sw' = sw ∧
  if projcontour.Passthrough tls then
    isBlank (projcontour.SecretName tls) = true ∧
    projcontour.ClientValidation tls = None ∧ st' = st
  else
    let secretName :=
      k8s_NamespacedNameFrom (projcontour.SecretName tls) (projcontour.Namespace proxy) in
    isBlank (projcontour.SecretName tls) = false ∧
    ∃ sec,
      LookupSecret secretName validSecret = inr sec ∧
      DelegationPermitted secretName (projcontour.Namespace proxy) = true ∧
      svh_Secret (secureNode host st') = Some sec ∧
      MinTLSVersion (secureNode host st')
      = Some (annotation_MinTLSVersion (projcontour.MinimumProtocolVersion tls)) ∧
      (if projcontour.EnableFallbackCertificate tls then
         projcontour.ClientValidation tls = None ∧
         ∃ fc fsec,
           FallbackCertificate p = Some fc ∧ LookupSecret fc validSecret = inr fsec ∧
           DelegationPermitted fc (projcontour.Namespace proxy) = true ∧
           svh_FallbackCertificate (secureNode host st') = Some fsec
       else
         svh_FallbackCertificate (secureNode host st')
         = svh_FallbackCertificate (secureNode host st)) ∧
      match projcontour.ClientValidation tls with
      | Some cv =>
          ∃ cacert,
            LookupSecret {| nn_Namespace := projcontour.Namespace proxy;
                            nn_Name := projcontour.dv_CACertificate cv |} validCA
            = inr cacert ∧
            DownstreamValidation (secureNode host st')
            = Some {| CACertificate := cacert; SubjectName := "" |}
      | None =>
          DownstreamValidation (secureNode host st') = DownstreamValidation (secureNode host st)
      end.
Proof.
  unfold computeHTTPProxy_tls, lookupDownstreamValidation. intros Heq.
  destruct (isBlank (projcontour.SecretName tls)) eqn:Hblank,
    (projcontour.Passthrough tls) eqn:Hpass; cbn in Heq; simplify_eq.
  - case_bool_decide as Hcv; simplify_eq. split_and!; try done.
    destruct (projcontour.ClientValidation tls); [| done]. exfalso. apply Hcv. by eexists.
  - cbn zeta.
    destruct (LookupSecret _ validSecret) as [err|sec] eqn:Hsec; [by simplify_eq |].
    destruct (DelegationPermitted _ _) eqn:Hdel; cbn in Heq; [| by simplify_eq].
    destruct (projcontour.EnableFallbackCertificate tls) eqn:Hfb; cbn in Heq.
    + case_bool_decide as Hcv; [by simplify_eq |].
      assert (Hnone : projcontour.ClientValidation tls = None).
      { destruct (projcontour.ClientValidation tls); [| done]. exfalso. apply Hcv. by eexists. }
      rewrite Hnone in Heq |- *.
      destruct (FallbackCertificate p) as [fc|] eqn:Hfc; [| by simplify_eq].
      destruct (LookupSecret fc validSecret) as [err|fsec] eqn:Hfsec; [by simplify_eq |].
      destruct (DelegationPermitted fc _) eqn:Hfdel; cbn in Heq; simplify_eq.
      split; [done |]. split; [done |]. exists sec.
      rewrite !secureNode_with. cbn. split_and!; try done. by exists fc, fsec.
    + destruct (projcontour.ClientValidation tls) as [cv|] eqn:Hcv.
      * destruct (LookupSecret _ validCA) as [err|cacert] eqn:Hca; simplify_eq.
        split; [done |]. split; [done |]. exists sec.
        rewrite !secureNode_with. cbn. split_and!; try done. by exists cacert.
      * simplify_eq. split; [done |]. split; [done |]. exists sec.
        rewrite !secureNode_with. cbn. by split_and!.
Qed.

(** X5.  The secret is attached before the later checks of the TLS
    stanza are made.  Once the secret has been found valid and its
    delegation permitted, the secure virtual host of the FQDN exists
    and carries the secret and the minimum TLS version whatever the
    stanza's verdict is: a stanza that enables the fallback
    certificate together with client validation is refused, and the
    secure virtual host stays in the graph with the secret. *)
Theorem computeHTTPProxy_tls_secret_first p sw proxy host tls st sec ok sw' st' :
  let secretName :=
    k8s_NamespacedNameFrom (projcontour.SecretName tls) (projcontour.Namespace proxy) in
  projcontour.Passthrough tls = false → isBlank (projcontour.SecretName tls) = false →
  LookupSecret secretName validSecret = inr sec →
  DelegationPermitted secretName (projcontour.Namespace proxy) = true →
  computeHTTPProxy_tls p sw proxy host tls st = (ok, sw', st') →
  is_Some (securevirtualhosts st' !! host) ∧
  svh_Secret (secureNode host st') = Some sec ∧
  MinTLSVersion (secureNode host st')
  = Some (annotation_MinTLSVersion (projcontour.MinimumProtocolVersion tls)) ∧
  (projcontour.EnableFallbackCertificate tls = true →
   is_Some (projcontour.ClientValidation tls) →
   ok = false ∧
   sw' = SetInvalid sw
           "Spec.Virtualhost.TLS fallback & client validation are incompatible together").
Proof.
  intros secretName Hpass Hblank Hsec Hdel. unfold computeHTTPProxy_tls.
  rewrite Hpass, Hblank. cbn [negb andb]. fold secretName. rewrite Hsec, Hdel. cbn [negb].
  intros Heq.
  repeat case_match; simplify_eq.
  all: rewrite ?secureNode_with; cbn.
  all: split_and!; try done; try (rewrite lookup_insert_eq; by eexists).
  all: try (by intros [=]).
  all: intros _ Hcv.
  all: match goal with
       | Hno : _ && bool_decide _ = false |- _ =>
           cbn in Hno; by apply bool_decide_eq_false in Hno
       end.
Qed.

End root_checks.


(** ** What processing a root leaves behind *)

Section root_result.
Context `{Collaborators}.

Implicit Types (p : HTTPProxyProcessor) (st : RunState) (sw : ObjectStatusWriter).

Lemma tcpproxy_services_frame httpproxy tcpproxy services clusters sw st res sw' st' :
  tcpproxy_services httpproxy tcpproxy services clusters sw st = (res, sw', st') →
  virtualhosts st' = virtualhosts st ∧ securevirtualhosts st' = securevirtualhosts st.
Proof.
  apply (tcpproxy_services_R
           (λ a b, virtualhosts b = virtualhosts a
                   ∧ securevirtualhosts b = securevirtualhosts a)); [done | | done].
  by intros st1 st2 st3 [-> ->] [-> ->].
Qed.

(** The TCP proxy walk changes the secure virtual host of its host in
    the TCP proxy field only. *)
Lemma processHTTPProxyTCPProxy_frame fuel p sw httpproxy visited host st ok sw' st' :
  processHTTPProxyTCPProxy fuel p sw httpproxy visited host st = Done (ok, sw', st') →
  virtualhosts st' = virtualhosts st ∧
  svh_VirtualHost (secureNode host st') = svh_VirtualHost (secureNode host st) ∧
  svh_Secret (secureNode host st') = svh_Secret (secureNode host st) ∧
  (∀ g, g ≠ host → securevirtualhosts st' !! g = securevirtualhosts st !! g).
Proof.
  revert sw httpproxy visited st ok sw' st'.
  induction fuel as [|fuel IH]; intros sw httpproxy visited st ok sw' st' Heq; [done |].
  cbn [processHTTPProxyTCPProxy] in Heq.
  destruct (projcontour.Spec_TCPProxy httpproxy) as [tcpproxy|]; [| by simplify_eq].
  destruct (bool_decide (0 < length _) && _); [by simplify_eq |].
  destruct (bool_decide (0 < length _)).
  { destruct (tcpproxy_services _ _ _ _ _ _) as [[[clusters|] sw1] st1] eqn:Hsvc;
      apply tcpproxy_services_frame in Hsvc as [Hv Hs]; simplify_eq.
    - rewrite secureNode_with. unfold secureNode. cbn. rewrite Hv, Hs. split_and!; try done.
      intros g Hg. by rewrite lookup_insert_ne.
    - unfold secureNode. by rewrite Hv, Hs. }
  destruct (match projcontour.tcp_Include tcpproxy with Some _ => _ | None => _ end);
    [| by simplify_eq].
  destruct (lookupHTTPProxy _ _); [| by simplify_eq].
  case_bool_decide; [by simplify_eq |].
  destruct (existsb _ _); [by simplify_eq |].
  destruct (processHTTPProxyTCPProxy fuel _ _ _ _ _ _) as [[[ok1 dsw] st1]| |] eqn:Hrec;
    [| done..].
  cbn in Heq. simplify_eq. by apply IH in Hrec.
Qed.

Lemma computeRoutes_frame fuel p sw proxy conditions visited enforceTLS st routes sw' st' :
  computeRoutes fuel p sw proxy conditions visited enforceTLS st = Done (routes, sw', st') →
  virtualhosts st' = virtualhosts st ∧ securevirtualhosts st' = securevirtualhosts st.
Proof.
  intros Heq.
  eapply (computeRoutes_inv p enforceTLS (λ _, True) (λ _, True)
            (λ a b, virtualhosts b = virtualhosts a
                    ∧ securevirtualhosts b = securevirtualhosts a)) in Heq as [_ Heq];
    try done.
  by intros st1 st2 st3 [-> ->] [-> ->].
Qed.

Lemma computeRoutes_statuses fuel p sw proxy conditions visited enforceTLS st routes sw' st' :
  computeRoutes fuel p sw proxy conditions visited enforceTLS st = Done (routes, sw', st') →
  statuses st `prefix_of` statuses st'.
Proof.
  intros Heq.
  eapply (computeRoutes_inv p enforceTLS (λ _, True) (λ _, True)
            (λ a b, statuses a `prefix_of` statuses b)) in Heq as [_ Heq];
    try done.
  - intros st1 st2 st3. apply transitivity.
  - intros sw0 st0. by apply prefix_app_r.
Qed.

Lemma processHTTPProxyTCPProxy_statuses fuel p sw httpproxy visited host st ok sw' st' :
  processHTTPProxyTCPProxy fuel p sw httpproxy visited host st = Done (ok, sw', st') →
  statuses st `prefix_of` statuses st'.
Proof.
  intros Heq.
  eapply (processHTTPProxyTCPProxy_R p (λ _, True) (λ _, True)
            (λ a b, statuses a `prefix_of` statuses b)) in Heq;
    try done.
  - intros st1 st2 st3. apply transitivity.
  - intros sw0 st0. by apply prefix_app_r.
Qed.

(** The ways through [computeHTTPProxy] for a root. *)
Lemma computeHTTPProxy_root_inv fuel p proxy vh st st' :
  projcontour.Spec_VirtualHost proxy = Some vh →
  computeHTTPProxy fuel p proxy st = Done st' →
  let host := projcontour.Fqdn vh in
  let swv := WithValue (WithObject proxy) "vhost" host in
  (∃ msg, st' = commit (SetInvalid (WithObject proxy) msg) st) ∨
  (∃ msg, st' = commit (SetInvalid swv msg) st) ∨
  (∃ tls msg st1,
     projcontour.vh_TLS vh = Some tls ∧
     computeHTTPProxy_tls p swv proxy host tls st = (false, SetInvalid swv msg, st1) ∧
     st' = commit (SetInvalid swv msg) st1) ∨
  (∃ tlsEnabled st1,
     match projcontour.vh_TLS vh with
     | Some tls =>
         computeHTTPProxy_tls p swv proxy host tls st = (true, swv, st1) ∧ tlsEnabled = true
     | None => st1 = st ∧ tlsEnabled = false
     end ∧
     ((is_Some (projcontour.Spec_TCPProxy proxy) ∧ tlsEnabled = false ∧
       ∃ msg, st' = commit (SetInvalid swv msg) st1) ∨
      (is_Some (projcontour.Spec_TCPProxy proxy) ∧ tlsEnabled = true ∧
       ∃ sw2 st2,
         processHTTPProxyTCPProxy fuel p swv proxy [] host st1 = Done (false, sw2, st2) ∧
         st' = commit sw2 st2) ∨
      (∃ st2 routes sw3 st3,
         match projcontour.Spec_TCPProxy proxy with
         | Some _ =>
             tlsEnabled = true ∧
             processHTTPProxyTCPProxy fuel p swv proxy [] host st1 = Done (true, swv, st2)
         | None => st2 = st1
         end ∧
         computeRoutes fuel p swv proxy [] [] tlsEnabled st2 = Done (routes, sw3, st3) ∧
         st' = commit sw3
                 (if tlsEnabled && bool_decide (projcontour.Spec_TCPProxy proxy = None)
                  then addRoutes_secure host routes (addRoutes_insecure host routes st3)
                  else addRoutes_insecure host routes st3)))).
Proof.
  intros Hvh Heq host swv. unfold computeHTTPProxy, computeHTTPProxy_body in Heq.
  rewrite Hvh in Heq. fold host in Heq.
  destruct (negb (rootAllowed _ _)); [cbn in Heq; simplify_eq; left; by eauto |].
  destruct (isBlank _); [cbn in Heq; simplify_eq; left; by eauto |].
  fold swv in Heq.
  destruct (strings.Contains _ _); [cbn in Heq; simplify_eq; right; left; by eauto |].
  destruct (_ && _ && _); [cbn in Heq; simplify_eq; right; left; by eauto |].
  destruct (projcontour.vh_TLS vh) as [tls|] eqn:Htls.
  - destruct (computeHTTPProxy_tls p swv proxy host tls st) as [[tlsOK sw1] st1] eqn:Htlsrun.
    pose proof (computeHTTPProxy_tls_frame _ _ _ _ _ _ _ _ _ Htlsrun) as [Hsw _].
    destruct tlsOK; cbn in Hsw.
    2: { destruct Hsw as [msg ->]. cbn in Heq. simplify_eq.
         right. right. left. by exists tls, msg, st1. }
    subst sw1. cbn [negb] in Heq. do 3 right. exists true, st1. split; [done |].
    destruct (projcontour.Spec_TCPProxy proxy) as [tcpproxy|] eqn:Htcp.
    + cbn [negb] in Heq.
      destruct (processHTTPProxyTCPProxy fuel p swv proxy [] host st1)
        as [[[ok sw2] st2]| |] eqn:Hwalk; [| done..].
      cbn [mbind outcome_bind] in Heq. destruct ok; cbn [negb] in Heq.
      * apply processHTTPProxyTCPProxy_sw in Hwalk as Hsw2.
        destruct Hsw2 as [->|[? _]]; [| done].
        destruct (computeRoutes _ _ _ _ _ _ _ _) as [[[routes sw3] st3]| |] eqn:Hroutes;
          [| done..].
        cbn in Heq. simplify_eq. right. right. by exists st2, routes, sw3, st3.
      * cbn in Heq. simplify_eq. right. left. split; [by eexists |]. split; [done |].
        by eexists _, _.
    + cbn [mbind outcome_bind negb] in Heq.
      destruct (computeRoutes _ _ _ _ _ _ _ _) as [[[routes sw3] st3]| |] eqn:Hroutes;
        [| done..].
      cbn in Heq. simplify_eq. right. right. by exists st1, routes, sw3, st3.
  - cbn [negb] in Heq. do 3 right. exists false, st. split; [done |].
    destruct (projcontour.Spec_TCPProxy proxy) as [tcpproxy|] eqn:Htcp.
    + cbn in Heq. simplify_eq. left. split; [by eexists |]. split; [done |]. by eauto.
    + cbn [mbind outcome_bind negb] in Heq.
      destruct (computeRoutes _ _ _ _ _ _ _ _) as [[[routes sw3] st3]| |] eqn:Hroutes;
        [| done..].
      cbn in Heq. simplify_eq. right. right. by exists st, routes, sw3, st3.
Qed.

(** X6.  The deferred commit of [computeHTTPProxy].  A call that
    returns has committed the status of its own document last, after
    the statuses of the documents its walks went through.  A document
    without a virtual host gets a status without any call and is put
    into the orphan set.  A root gets at most one verdict, and it is
    the last call on its writer, preceded by nothing but the [vhost]
    value; the verdict can be missing only on a root that has a TCP
    proxy stanza. *)
Theorem computeHTTPProxy_status fuel p proxy st st' :
  computeHTTPProxy fuel p proxy st = Done st' →
  ∃ earlier calls,
    statuses st'
    = statuses st ++ earlier
      ++ [{| osw_obj := k8s_NamespacedNameOf proxy; osw_calls := calls |}] ∧
    match projcontour.Spec_VirtualHost proxy with
    | None =>
        calls = [] ∧ earlier = [] ∧
        orphaned st' = {[ k8s_NamespacedNameOf proxy ]} ∪ orphaned st
    | Some vh =>
        ∃ pre verdict,
          calls = pre ++ verdict ∧
          (pre = [] ∨ pre = [CallWithValue "vhost" (projcontour.Fqdn vh)]) ∧
          (verdict = [CallSetValid] ∨ (∃ msg, verdict = [CallSetInvalid msg]) ∨
           (verdict = [] ∧ is_Some (projcontour.Spec_TCPProxy proxy)))
    end.
Proof.
  intros Heq. destruct (projcontour.Spec_VirtualHost proxy) as [vh|] eqn:Hvh.
  2: { unfold computeHTTPProxy, computeHTTPProxy_body in Heq. rewrite Hvh in Heq.
       cbn in Heq. simplify_eq. by exists [], []. }
  destruct (computeHTTPProxy_root_inv _ _ _ _ _ _ Hvh Heq)
    as [[msg ->]|[[msg ->]|[(tls & msg & st1 & Htls & Hrun & ->)
                           |(tlsEnabled & st1 & Htlsstep & Hrest)]]].
  - exists [], [CallSetInvalid msg]. split; [done |].
    exists [], [CallSetInvalid msg]. split_and!; [done | by left | by eauto].
  - exists [], [CallWithValue "vhost" (projcontour.Fqdn vh); CallSetInvalid msg].
    split; [done |].
    exists [CallWithValue "vhost" (projcontour.Fqdn vh)], [CallSetInvalid msg].
    split_and!; [done | by right | by eauto].
  - apply computeHTTPProxy_tls_frame in Hrun as (_ & Hst & _).
    exists [], [CallWithValue "vhost" (projcontour.Fqdn vh); CallSetInvalid msg].
    split; [cbn; by rewrite Hst |].
    exists [CallWithValue "vhost" (projcontour.Fqdn vh)], [CallSetInvalid msg].
    split_and!; [done | by right | by eauto].
  - assert (Hst1 : statuses st1 = statuses st).
    { destruct (projcontour.vh_TLS vh) as [tls|].
      - destruct Htlsstep as [Hrun _].
        by apply computeHTTPProxy_tls_frame in Hrun as (_ & Hst & _).
      - by destruct Htlsstep as [-> _]. }
    destruct Hrest as [(Htcp & _ & msg & ->)
                      |[(Htcp & _ & sw2 & st2 & Hwalk & ->)
                       |(st2 & routes & sw3 & st3 & Htcp & Hroutes & ->)]].
    + exists [], [CallWithValue "vhost" (projcontour.Fqdn vh); CallSetInvalid msg].
      split; [cbn; by rewrite Hst1 |].
      exists [CallWithValue "vhost" (projcontour.Fqdn vh)], [CallSetInvalid msg].
      split_and!; [done | by right | by eauto].
    + apply processHTTPProxyTCPProxy_statuses in Hwalk as Hgrow.
      destruct Hgrow as [earlier Hgrow].
      apply processHTTPProxyTCPProxy_sw in Hwalk as [->|[_ [msg ->]]].
      * exists earlier, [CallWithValue "vhost" (projcontour.Fqdn vh)].
        split; [cbn; by rewrite Hgrow, Hst1, <-app_assoc |].
        exists [CallWithValue "vhost" (projcontour.Fqdn vh)], [].
        split_and!; [done | by right | by eauto].
      * exists earlier, [CallWithValue "vhost" (projcontour.Fqdn vh); CallSetInvalid msg].
        split; [cbn; by rewrite Hgrow, Hst1, <-app_assoc |].
        exists [CallWithValue "vhost" (projcontour.Fqdn vh)], [CallSetInvalid msg].
        split_and!; [done | by right | by eauto].
    + assert (Hgrow2 : statuses st1 `prefix_of` statuses st2).
      { destruct (projcontour.Spec_TCPProxy proxy).
        - destruct Htcp as [_ Hwalk]. by apply processHTTPProxyTCPProxy_statuses in Hwalk.
        - by subst. }
      apply computeRoutes_statuses in Hroutes as Hgrow3.
      destruct Hgrow2 as [e2 Hgrow2], Hgrow3 as [e3 Hgrow3].
      assert (Hlog : ∀ sw, statuses
                (commit sw
                   (if tlsEnabled && bool_decide (projcontour.Spec_TCPProxy proxy = None)
                    then addRoutes_secure (projcontour.Fqdn vh) routes
                           (addRoutes_insecure (projcontour.Fqdn vh) routes st3)
                    else addRoutes_insecure (projcontour.Fqdn vh) routes st3))
              = statuses st ++ (e2 ++ e3) ++ [sw]).
      { intros sw. destruct (_ && _); cbn; by rewrite Hgrow3, Hgrow2, Hst1, <-!app_assoc. }
      apply computeRoutes_sw in Hroutes as [->|[_ [msg ->]]].
      * exists (e2 ++ e3), [CallWithValue "vhost" (projcontour.Fqdn vh); CallSetValid].
        split; [by rewrite Hlog |].
        exists [CallWithValue "vhost" (projcontour.Fqdn vh)], [CallSetValid].
        split_and!; [done | by right | by left].
      * exists (e2 ++ e3), [CallWithValue "vhost" (projcontour.Fqdn vh); CallSetInvalid msg].
        split; [by rewrite Hlog |].
        exists [CallWithValue "vhost" (projcontour.Fqdn vh)], [CallSetInvalid msg].
        split_and!; [done | by right | by eauto].
Qed.

Lemma placed_insecure host routes sw st (both : bool) :
  insecureRoutes host
    (commit sw (if both then addRoutes_secure host routes (addRoutes_insecure host routes st)
                else addRoutes_insecure host routes st))
  = insecureRoutes host st ++ routes.
Proof.
  unfold insecureRoutes, lookupVirtualHost. destruct both; cbn; by rewrite lookup_insert_eq.
Qed.

Lemma placed_secure host routes sw st (both : bool) :
  secureRoutes host
    (commit sw (if both then addRoutes_secure host routes (addRoutes_insecure host routes st)
                else addRoutes_insecure host routes st))
  = secureRoutes host st ++ (if both then routes else []).
Proof.
  unfold secureRoutes, secureNode, lookupSecureVirtualHost. destruct both; cbn.
  - by rewrite lookup_insert_eq.
  - by rewrite app_nil_r.
Qed.

(** The routes that the walks return do not depend on the writer or
    on the builder they are run with. *)
Lemma computeRoutes_services_indep proxy route services r sw st res sw' st' sw0 st0 :
  computeRoutes_services proxy route services r sw st = (res, sw', st') →
  ∃ sw1 st1, computeRoutes_services proxy route services r sw0 st0 = (res, sw1, st1).
Proof.
  revert r sw st sw0 st0.
  induction services as [|service services IH]; intros r sw st sw0 st0 Heq.
  - cbn in *. simplify_eq. by eexists _, _.
  - cbn [computeRoutes_services builder_lookupService] in *.
    repeat case_match; simplify_eq; eauto.
Qed.

Lemma computeRoutes_route_indep p proxy conditions enforceTLS route sw st res sw' st' sw0 st0 :
  computeRoutes_route p proxy conditions enforceTLS route sw st = (res, sw', st') →
  ∃ sw1 st1, computeRoutes_route p proxy conditions enforceTLS route sw0 st0 = (res, sw1, st1).
Proof.
  unfold computeRoutes_route. intros Heq.
  repeat case_match; simplify_eq; eauto using computeRoutes_services_indep.
Qed.

Lemma computeRoutes_routes_indep p proxy conditions enforceTLS rs routes sw st res sw' st'
    sw0 st0 :
  computeRoutes_routes p proxy conditions enforceTLS rs routes sw st = (res, sw', st') →
  ∃ sw1 st1,
    computeRoutes_routes p proxy conditions enforceTLS rs routes sw0 st0 = (res, sw1, st1).
Proof.
  revert routes sw st sw0 st0.
  induction rs as [|route rs IH]; intros routes sw st sw0 st0 Heq.
  - cbn in *. simplify_eq. by eexists _, _.
  - cbn [computeRoutes_routes] in *.
    destruct (computeRoutes_route p proxy conditions enforceTLS route sw st)
      as [[r sw2] st2] eqn:Hroute.
    destruct (computeRoutes_route_indep _ _ _ _ _ _ _ _ _ _ sw0 st0 Hroute)
      as (sw3 & st3 & ->).
    destruct r as [r|]; [by eapply IH | simplify_eq; by eexists _, _].
Qed.

Lemma computeRoutes_includes_indep (recurse : walk) p proxy conditions visited includes
    routes sw st res sw' st' sw0 st0 :
  (∀ sw d c v st routes sw' st' sw0 st0,
     recurse sw d c v st = Done (routes, sw', st') →
     ∃ sw1 st1, recurse sw0 d c v st0 = Done (routes, sw1, st1)) →
  computeRoutes_includes recurse p proxy conditions visited includes routes sw st
    = Done (res, sw', st') →
  ∃ sw1 st1,
    computeRoutes_includes recurse p proxy conditions visited includes routes sw0 st0
    = Done (res, sw1, st1).
Proof.
  intros Hrec. revert routes sw st sw0 st0.
  induction includes as [|include includes IH]; intros routes sw st sw0 st0 Heq.
  - cbn in *. simplify_eq. by eexists _, _.
  - cbn [computeRoutes_includes] in *.
    destruct (lookupHTTPProxy _ _) as [delegate|]; [| simplify_eq; by eexists _, _].
    case_bool_decide; [simplify_eq; by eexists _, _ |].
    destruct (pathMatchConditionsValid _); [simplify_eq; by eexists _, _ |].
    destruct (recurse _ _ _ _ st) as [[[sub dsw] st2]| |] eqn:Hsub; [| done..].
    destruct (Hrec _ _ _ _ _ _ _ _ (WithObject delegate) st0 Hsub) as (dsw3 & st3 & ->).
    cbn [mbind outcome_bind] in *. by eapply IH.
Qed.

Lemma computeRoutes_indep fuel p sw proxy conditions visited enforceTLS st routes sw' st'
    sw0 st0 :
  computeRoutes fuel p sw proxy conditions visited enforceTLS st = Done (routes, sw', st') →
  ∃ sw1 st1,
    computeRoutes fuel p sw0 proxy conditions visited enforceTLS st0 = Done (routes, sw1, st1).
Proof.
  revert sw proxy conditions visited st routes sw' st' sw0 st0.
  induction fuel as [|fuel IH];
    intros sw proxy conditions visited st routes sw' st' sw0 st0 Heq; [done |].
  cbn [computeRoutes] in *.
  destruct (existsb _ visited); [simplify_eq; by eexists _, _ |].
  destruct (includeMatchConditionsIdentical _); [simplify_eq; by eexists _, _ |].
  unfold computeRoutes_body in *.
  destruct (computeRoutes_includes _ _ _ _ _ _ _ sw st) as [[[included sw2] st2]| |] eqn:Hinc;
    [| done..].
  eapply (computeRoutes_includes_indep _ _ _ _ _ _ _ _ _ _ _ _ sw0 st0) in Hinc
    as (sw3 & st3 & ->); [| by eauto].
  cbn [mbind outcome_bind] in *.
  destruct included as [included|]; [| simplify_eq; by eexists _, _].
  destruct (computeRoutes_routes _ _ _ _ _ _ sw2 st2) as [[out sw4] st4] eqn:Hroutes.
  destruct (computeRoutes_routes_indep _ _ _ _ _ _ _ _ _ _ _ sw3 st3 Hroutes)
    as (sw5 & st5 & ->).
  destruct out as [out|]; [| simplify_eq; by eexists _, _].
  destruct (expandPrefixMatches out); [| done..].
  cbn in *. simplify_eq. by eexists _, _.
Qed.

(** X7.  Where the routes of a root go.  The routes that are appended
    to the insecure virtual host of the FQDN of a root, and to the
    secure virtual host exactly when the root has a TLS stanza and no
    TCP proxy, are the routes that [computeRoutes] returns for the
    root, called without conditions or ancestors and enforcing TLS
    when the root has a TLS stanza: all of them and no others when
    the root is marked valid, and none when it is not.  The routes
    that the virtual hosts held before are kept.  A root without a
    TLS stanza leaves the secure virtual hosts as they were. *)
Theorem computeHTTPProxy_routes_placed fuel p proxy vh st st' :
  projcontour.Spec_VirtualHost proxy = Some vh →
  computeHTTPProxy fuel p proxy st = Done st' →
  let host := projcontour.Fqdn vh in
  ∃ routes,
    insecureRoutes host st' = insecureRoutes host st ++ routes ∧
    secureRoutes host st'
    = secureRoutes host st
      ++ (if bool_decide (is_Some (projcontour.vh_TLS vh))
             && bool_decide (projcontour.Spec_TCPProxy proxy = None)
          then routes else []) ∧
    (projcontour.vh_TLS vh = None → securevirtualhosts st' = securevirtualhosts st) ∧
    ∃ own,
      last (statuses st') = Some own ∧ osw_obj own = k8s_NamespacedNameOf proxy ∧
      (last (osw_calls own) = Some CallSetValid →
       ∀ sw0 st0, ∃ sw1 st1,
         computeRoutes fuel p sw0 proxy [] []
           (bool_decide (is_Some (projcontour.vh_TLS vh))) st0
         = Done (routes, sw1, st1)) ∧
      (last (osw_calls own) ≠ Some CallSetValid → routes = []).
Proof.
  intros Hvh Heq host.
  assert (Hnil : ∀ sw st1,
    osw_obj sw = k8s_NamespacedNameOf proxy →
    last (osw_calls sw) ≠ Some CallSetValid →
    virtualhosts st1 = virtualhosts st →
    svh_VirtualHost (secureNode host st1) = svh_VirtualHost (secureNode host st) →
    (projcontour.vh_TLS vh = None → securevirtualhosts st1 = securevirtualhosts st) →
    ∃ routes,
      insecureRoutes host (commit sw st1) = insecureRoutes host st ++ routes ∧
      secureRoutes host (commit sw st1)
      = secureRoutes host st
        ++ (if bool_decide (is_Some (projcontour.vh_TLS vh))
               && bool_decide (projcontour.Spec_TCPProxy proxy = None)
            then routes else []) ∧
      (projcontour.vh_TLS vh = None →
       securevirtualhosts (commit sw st1) = securevirtualhosts st) ∧
      ∃ own,
        last (statuses (commit sw st1)) = Some own ∧
        osw_obj own = k8s_NamespacedNameOf proxy ∧
        (last (osw_calls own) = Some CallSetValid →
         ∀ sw0 st0, ∃ sw1 st1,
           computeRoutes fuel p sw0 proxy [] []
             (bool_decide (is_Some (projcontour.vh_TLS vh))) st0
           = Done (routes, sw1, st1)) ∧
        (last (osw_calls own) ≠ Some CallSetValid → routes = [])).
  { intros sw st1 Hobj Hlast Hv Hs Hnone. exists [].
    unfold insecureRoutes, secureRoutes in *. unfold secureNode in *. cbn.
    unfold secureNode in Hs. rewrite Hv, Hs, app_nil_r. split_and!; [done | | done |].
    { destruct (_ && _); by rewrite app_nil_r. }
    exists sw. rewrite last_snoc. by split_and!. }
  assert (Hinvalid : ∀ sw msg, last (osw_calls (SetInvalid sw msg)) ≠ Some CallSetValid).
  { intros sw msg. unfold SetInvalid, osw_call. cbn [osw_calls]. by rewrite last_snoc. }
  destruct (computeHTTPProxy_root_inv _ _ _ _ _ _ Hvh Heq)
    as [[msg ->]|[[msg ->]|[(tls & msg & st1 & Htls & Hrun & ->)
                           |(tlsEnabled & st1 & Htlsstep & Hrest)]]].
  - by apply Hnil.
  - by apply Hnil.
  - apply computeHTTPProxy_tls_frame in Hrun as (_ & _ & Hv & _ & _ & Hs & _).
    apply Hnil; [done | done | done | done | by rewrite Htls].
  - fold host in Htlsstep, Hrest.
    assert (Hstep1 : virtualhosts st1 = virtualhosts st ∧
              svh_VirtualHost (secureNode host st1) = svh_VirtualHost (secureNode host st) ∧
              (projcontour.vh_TLS vh = None → st1 = st) ∧
              tlsEnabled = bool_decide (is_Some (projcontour.vh_TLS vh))).
    { destruct (projcontour.vh_TLS vh) as [tls|].
      - destruct Htlsstep as [Hrun ->].
        apply computeHTTPProxy_tls_frame in Hrun as (_ & _ & Hv & _ & _ & Hs & _).
        split_and!; [done | done | done |]. by rewrite bool_decide_eq_true_2.
      - destruct Htlsstep as [-> ->]. by split_and!. }
    destruct Hstep1 as (Hv1 & Hs1 & Hnone1 & Htls).
    destruct Hrest as [(Htcp & _ & msg & ->)
                      |[(Htcp & Hen & sw2 & st2 & Hwalk & ->)
                       |(st2 & routes & sw3 & st3 & Htcp & Hroutes & ->)]].
    + apply Hnil; [done | done | done | done |]. intros Hnone. by rewrite (Hnone1 Hnone).
    + apply processHTTPProxyTCPProxy_sw in Hwalk as Hsw2.
      apply processHTTPProxyTCPProxy_frame in Hwalk as (Hv2 & Hs2 & _).
      apply Hnil; [| | congruence | congruence |].
      * by destruct Hsw2 as [->|[_ [msg ->]]].
      * destruct Hsw2 as [->|[_ [msg ->]]]; [by cbn | done].
      * intros Hnone. rewrite Hnone in Htls. by subst tlsEnabled.
    + assert (Hstep2 : virtualhosts st2 = virtualhosts st1 ∧
                svh_VirtualHost (secureNode host st2) = svh_VirtualHost (secureNode host st1) ∧
                (projcontour.vh_TLS vh = None → st2 = st1)).
      { destruct (projcontour.Spec_TCPProxy proxy).
        - destruct Htcp as [Hen Hwalk].
          apply processHTTPProxyTCPProxy_frame in Hwalk as (Hv2 & Hs2 & _).
          split_and!; [done | done |]. intros Hnone. rewrite Hnone in Htls.
          by subst tlsEnabled.
        - by subst. }
      destruct Hstep2 as (Hv2 & Hs2 & Hnone2).
      apply computeRoutes_sw in Hroutes as Hsw3.
      apply computeRoutes_frame in Hroutes as Hframe. destruct Hframe as [Hv3 Hs3].
      exists routes. rewrite <-Htls, placed_insecure, placed_secure.
      assert (Hi3 : insecureRoutes host st3 = insecureRoutes host st).
      { unfold insecureRoutes. by rewrite Hv3, Hv2, Hv1. }
      assert (Hsec3 : secureRoutes host st3 = secureRoutes host st).
      { unfold secureRoutes, secureNode in *. by rewrite Hs3, Hs2, Hs1. }
      rewrite Hi3, Hsec3. split_and!; [done | done | |].
      { intros Hnone. rewrite Hnone in Htls. subst tlsEnabled. cbn.
        by rewrite Hs3, (Hnone2 Hnone), (Hnone1 Hnone). }
      exists sw3. split_and!.
      * destruct (_ && _); cbn; by rewrite last_snoc.
      * by destruct Hsw3 as [->|[_ [msg ->]]].
      * intros _ sw0 st0. by eapply computeRoutes_indep.
      * intros Hlast. destruct Hsw3 as [->|[-> _]]; [| done].
        exfalso. apply Hlast. unfold SetValid, osw_call. cbn [osw_calls]. by rewrite last_snoc.
Qed.

End root_result.


(** ** The clusters of a route *)

Section clusters.
Context `{Collaborators}.

Implicit Types (p : HTTPProxyProcessor) (st : RunState) (sw : ObjectStatusWriter).

Lemma computeRoutes_services_clusters proxy route all services r sw st r' sw' st' :
  services ⊆ all →
  computeRoutes_services proxy route services r sw st = (Some r', sw', st') →
  (∀ c, c ∈ Clusters r ∨ MirrorPolicy r = Some c →
     ∃ service, service ∈ all ∧ clusterOf proxy service c) →
  ∀ c, c ∈ Clusters r' ∨ MirrorPolicy r' = Some c →
    ∃ service, service ∈ all ∧ clusterOf proxy service c.
Proof.
  revert r sw st. induction services as [|service services IH]; intros r sw st Hsub Heq Hr.
  - cbn in Heq. by simplify_eq.
  - cbn [computeRoutes_services builder_lookupService] in Heq.
    case_bool_decide as Hport; [by simplify_eq |].
    destruct (lookupService _ _) as [err|s] eqn:Hlook; [by simplify_eq |].
    destruct (getProtocol service s) as [err|protocol] eqn:Hproto; [by simplify_eq |].
    destruct (if bool_decide (protocol = "tls") || bool_decide (protocol = "h2")
              then _ else _) as [err|uv] eqn:Huv; [by simplify_eq |].
    destruct (headersPolicy _ true) as [err|reqHP]; [by simplify_eq |].
    destruct (headersPolicy _ false) as [err|respHP]; [by simplify_eq |].
    destruct (projcontour.svc_Mirror service && _); [by simplify_eq |].
    assert (Hnew : clusterOf proxy service
                     (newCluster route service r s protocol uv reqHP respHP)).
    { unfold clusterOf, portInRange. cbn. split_and!; try done; lia. }
    eapply IH; [| exact Heq |].
    + intros x Hx. apply Hsub. by right.
    + intros c Hc. destruct (projcontour.svc_Mirror service); cbn in Hc.
      * destruct Hc as [Hc|Hc]; [by auto |]. simplify_eq.
        exists service. split; [apply Hsub; left | done].
      * destruct Hc as [Hc|Hc]; [| by auto].
        apply elem_of_app in Hc as [Hc|Hc%list_elem_of_singleton]; [by auto |].
        subst c. exists service. split; [apply Hsub; left | done].
Qed.

Lemma computeRoutes_route_clusters p proxy conditions enforceTLS route sw st r sw' st' :
  computeRoutes_route p proxy conditions enforceTLS route sw st = (Some r, sw', st') →
  ∀ c, c ∈ Clusters r ∨ MirrorPolicy r = Some c →
    ∃ service, service ∈ projcontour.rt_Services route ∧ clusterOf proxy service c.
Proof.
  unfold computeRoutes_route. intros Heq.
  repeat case_match; simplify_eq.
  all: eapply computeRoutes_services_clusters; [done | exact Heq |].
  all: try match goal with
    | |- context [applyPrefixReplacements ?a ?b ?c] =>
        destruct (applyPrefixReplacements_keeps a b c) as (_ & _ & -> & ->)
    end.
  all: cbn; intros c [Hc|Hc]; [by apply elem_of_nil in Hc | done].
Qed.

(** Every route that the walk returns was built from one route of the
    document or of a document of the snapshot. *)
Lemma computeRoutes_built fuel p sw proxy conditions visited enforceTLS st routes sw' st' :
  computeRoutes fuel p sw proxy conditions visited enforceTLS st = Done (routes, sw', st') →
  Forall (λ r, ∃ hp, hp ∈ proxy :: httpproxies (Source p) ∧ builtFrom hp r) routes.
Proof.
  intros Heq.
  eapply (computeRoutes_inv p enforceTLS (λ hp, hp ∈ proxy :: httpproxies (Source p))
            (λ r, ∃ hp, hp ∈ proxy :: httpproxies (Source p) ∧ builtFrom hp r)
            (λ _ _, True)); [| done | done | | done.. | left | exact Heq].
  - intros hp include d _ _ [Hd _]%lookupHTTPProxy_Some. by right.
  - intros hp c route sw0 st0 r0 sw1 st1 Hhp Hroute Hbuilt.
    exists hp. split; [done |]. exists route. split; [done |].
    by eapply computeRoutes_route_clusters.
Qed.

(** X8.  Where the upstream of a cluster comes from.  Every cluster,
    the mirror included, of every route that [computeRoutes] returns
    was built for a service entry of a route of the document or of a
    document of the snapshot: the entry's port is within 1-65535, the
    upstream is the service that the builder resolved under the
    entry's name and port in the namespace of that document, and the
    weight is the entry's weight as a [uint32]. *)
Theorem computeRoutes_cluster_upstream fuel p sw proxy conditions visited enforceTLS st
    routes sw' st' r c :
  computeRoutes fuel p sw proxy conditions visited enforceTLS st = Done (routes, sw', st') →
  r ∈ routes → c ∈ Clusters r ∨ MirrorPolicy r = Some c →
  ∃ hp route service,
    hp ∈ proxy :: httpproxies (Source p) ∧ route ∈ projcontour.Spec_Routes hp ∧
    service ∈ projcontour.rt_Services route ∧
    portInRange service ∧
    lookupService (serviceLookup hp service).1 (serviceLookup hp service).2
    = inr (Upstream c) ∧
    Weight c = (projcontour.svc_Weight service `mod` 2 ^ 32)%Z ∧
    (0 ≤ Weight c < 2 ^ 32)%Z.
Proof.
  intros Heq Hr Hc. apply computeRoutes_built in Heq.
  eapply Forall_forall in Heq as (hp & Hhp & route & Hroute & Hbuilt); [| exact Hr].
  destruct (Hbuilt c Hc) as (service & Hservice & Hport & Hlook & _ & _ & Hweight & _).
  exists hp, route, service. split_and!; try done; rewrite Hweight.
  - apply Z.mod_pos_bound. lia.
  - apply Z.mod_pos_bound. lia.
Qed.

Lemma getProtocol_spec (service : projcontour.Service) (s : Service) protocol :
  getProtocol service s = inr protocol →
  match projcontour.svc_Protocol service with
  | Some requested => protocol = requested ∧ requested ∈ ["h2c"; "h2"; "tls"]
  | None => protocol = Service_Protocol s
  end.
Proof.
  unfold getProtocol. destruct (projcontour.svc_Protocol service) as [requested|].
  - destruct (_ || _ || _) eqn:Hok; [| done]. intros [= <-]. split; [done |].
    apply orb_true_iff in Hok as [Hok|Hok]; [apply orb_true_iff in Hok as [Hok|Hok] |];
      apply bool_decide_eq_true in Hok; subst; set_solver.
  - by intros [= <-].
Qed.

Lemma lookupUpstreamValidation_spec (uv : option projcontour.UpstreamValidation)
    namespace pvc :
  lookupUpstreamValidation uv namespace = inr (Some pvc) →
  ∃ requested,
    uv = Some requested ∧
    LookupSecret {| nn_Namespace := namespace;
                    nn_Name := projcontour.uv_CACertificate requested |} validCA
    = inr (CACertificate pvc) ∧
    SubjectName pvc = projcontour.uv_SubjectName requested ∧ SubjectName pvc ≠ "".
Proof.
  unfold lookupUpstreamValidation. destruct uv as [requested|]; [| done].
  destruct (LookupSecret _ validCA) as [err|cacert] eqn:Hca; [done |].
  case_decide as Hsan; [done |]. intros [= <-]. by exists requested.
Qed.

Lemma clusterOf_speaksFor proxy service c : clusterOf proxy service c → speaksFor proxy service c.
Proof.
  intros (Hport & Hlook & Hproto & Huv & Hweight & _).
  split_and!; [done | done | done | by apply getProtocol_spec |].
  intros pvc Hpvc. rewrite Hpvc in Huv.
  destruct (bool_decide (cl_Protocol c = "tls") || bool_decide (cl_Protocol c = "h2"))
    eqn:Htls; [| done].
  split.
  - apply orb_true_iff in Htls as [Ht|Ht]; apply bool_decide_eq_true in Ht; auto.
  - apply lookupUpstreamValidation_spec. congruence.
Qed.

(** The services of a route become its clusters one by one. *)
Lemma computeRoutes_services_entries proxy route services r sw st r' sw' st' :
  computeRoutes_services proxy route services r sw st = (Some r', sw', st') →
  ∃ cs, Clusters r' = Clusters r ++ cs ∧
    Forall2 (clusterOf proxy) (plainOf services) cs ∧
    match mirrorsOf services with
    | [] => MirrorPolicy r' = MirrorPolicy r
    | [service] =>
        MirrorPolicy r = None ∧ ∃ c, MirrorPolicy r' = Some c ∧ clusterOf proxy service c
    | _ => False
    end.
Proof.
  revert r sw st. induction services as [|service services IH]; intros r sw st Heq.
  - cbn in Heq. simplify_eq. exists []. rewrite app_nil_r. by split_and!.
  - cbn [computeRoutes_services builder_lookupService] in Heq.
    case_bool_decide as Hport; [by simplify_eq |].
    destruct (lookupService _ _) as [err|s] eqn:Hlook; [by simplify_eq |].
    destruct (getProtocol service s) as [err|protocol] eqn:Hproto; [by simplify_eq |].
    destruct (if bool_decide (protocol = "tls") || bool_decide (protocol = "h2")
              then _ else _) as [err|uv] eqn:Huv; [by simplify_eq |].
    destruct (headersPolicy _ true) as [err|reqHP]; [by simplify_eq |].
    destruct (headersPolicy _ false) as [err|respHP]; [by simplify_eq |].
    destruct (projcontour.svc_Mirror service && _) eqn:Hmirror; [by simplify_eq |].
    assert (Hnew : clusterOf proxy service
                     (newCluster route service r s protocol uv reqHP respHP)).
    { unfold clusterOf, portInRange. cbn. split_and!; try done; lia. }
    apply IH in Heq as (cs & Hcs & Hall & Hm).
    unfold plainOf, mirrorsOf in *. rewrite !filter_cons.
    destruct (projcontour.svc_Mirror service) eqn:Hsvc; cbn in Hcs, Hm.
    + rewrite decide_False, decide_True by done.
      cbn in Hmirror. apply bool_decide_eq_false in Hmirror.
      assert (Hnone : MirrorPolicy r = None).
      { destruct (MirrorPolicy r); [| done]. exfalso. apply Hmirror. by eexists. }
      exists cs. split_and!; [done | done |].
      destruct (filter (λ x, projcontour.svc_Mirror x = true) services) as [|m [|m' ms]];
        cbn in Hm |- *.
      * split; [done |]. by eexists.
      * by destruct Hm as [? _].
      * done.
    + rewrite decide_True, decide_False by done.
      exists (newCluster route service r s protocol uv reqHP respHP :: cs).
      split_and!; [by rewrite Hcs, <-app_assoc | by constructor | done].
Qed.

Lemma computeRoutes_route_entries p proxy conditions enforceTLS route sw st r sw' st' :
  computeRoutes_route p proxy conditions enforceTLS route sw st = (Some r, sw', st') →
  entriesOf (clusterOf proxy) route r.
Proof.
  unfold computeRoutes_route. intros Heq.
  repeat case_match; simplify_eq.
  all: apply computeRoutes_services_entries in Heq as (cs & Hcs & Hall & Hm).
  all: try match type of Hcs with
    | context [applyPrefixReplacements ?a ?b ?c] =>
        destruct (applyPrefixReplacements_keeps a b c) as (_ & _ & Hc & Hmp);
        rewrite Hc in Hcs; rewrite Hmp in Hm
    end.
  all: cbn in Hcs, Hm; unfold entriesOf; rewrite Hcs; split; [done |].
  all: destruct (mirrorsOf (projcontour.rt_Services route)) as [|m [|m' ms]]; [| | done].
  all: try (by rewrite Hm).
  all: destruct Hm as (_ & c & -> & Hc'); by exists m.
Qed.

(** Every route that the walk returns stands, cluster by cluster, for
    the service entries of one route of the document or of a document
    of the snapshot. *)
Lemma computeRoutes_entries fuel p sw proxy conditions visited enforceTLS st routes sw' st' :
  computeRoutes fuel p sw proxy conditions visited enforceTLS st = Done (routes, sw', st') →
  Forall (λ r, ∃ hp route, hp ∈ proxy :: httpproxies (Source p) ∧
                 route ∈ projcontour.Spec_Routes hp ∧ entriesOf (clusterOf hp) route r) routes.
Proof.
  intros Heq.
  eapply (computeRoutes_inv p enforceTLS (λ hp, hp ∈ proxy :: httpproxies (Source p))
            (λ r, ∃ hp route, hp ∈ proxy :: httpproxies (Source p) ∧
                    route ∈ projcontour.Spec_Routes hp ∧ entriesOf (clusterOf hp) route r)
            (λ _ _, True)); [| done | done | | done.. | left | exact Heq].
  - intros hp include d _ _ [Hd _]%lookupHTTPProxy_Some. by right.
  - intros hp c route sw0 st0 r0 sw1 st1 Hhp Hroute Hbuilt.
    exists hp, route. split_and!; [done | done |].
    by eapply computeRoutes_route_entries.
Qed.

(** X9.  The protocol and the upstream validation of the clusters of
    a route.  Every route that [computeRoutes] returns stands for one
    route of the document or of a document of the snapshot, entry by
    entry: its clusters are, in their order, those of the service
    entries that are not mirrors, and its mirror is that of the one
    entry that is.  Each cluster has the upstream resolved for its own
    entry; its protocol is the one that this entry asks for, which is
    then one of [h2c], [h2] and [tls], or else the protocol of the
    upstream service; and an upstream validation context is attached
    only to a cluster that speaks [tls] or [h2], only when its entry
    asks for it, and then it holds the CA secret that the snapshot
    returned for the entry's name in the namespace of the document
    together with a subject name that is not empty. *)
Theorem computeRoutes_cluster_protocol fuel p sw proxy conditions visited enforceTLS st
    routes sw' st' r :
  computeRoutes fuel p sw proxy conditions visited enforceTLS st = Done (routes, sw', st') →
  r ∈ routes →
  ∃ hp route,
    hp ∈ proxy :: httpproxies (Source p) ∧ route ∈ projcontour.Spec_Routes hp ∧
    Forall2 (speaksFor hp) (plainOf (projcontour.rt_Services route)) (Clusters r) ∧
    match MirrorPolicy r with
    | Some c =>
        ∃ service,
          mirrorsOf (projcontour.rt_Services route) = [service] ∧ speaksFor hp service c
    | None => mirrorsOf (projcontour.rt_Services route) = []
    end.
Proof.
  intros Heq Hr. apply computeRoutes_entries in Heq.
  eapply Forall_forall in Heq as (hp & route & Hhp & Hroute & Hall & Hm); [| exact Hr].
  exists hp, route. split_and!; [done | done | |].
  - eapply Forall2_impl; [exact Hall |]. apply clusterOf_speaksFor.
  - destruct (MirrorPolicy r) as [c|]; [| done].
    destruct Hm as (service & Hone & Hc). exists service. split; [done |].
    by apply clusterOf_speaksFor.
Qed.

End clusters.


(** ** The services of a route *)

Section route_services.
Context `{Collaborators}.

Implicit Types (p : HTTPProxyProcessor) (st : RunState) (sw : ObjectStatusWriter).

Lemma computeRoutes_services_lookups proxy route services r sw st res sw' st' :
  computeRoutes_services proxy route services r sw st = (res, sw', st') →
  ∃ looked,
    looked `prefix_of` services ∧ Forall portInRange looked ∧
    serviceLookups st' = serviceLookups st ++ (serviceLookup proxy <$> looked) ∧
    (is_Some res → looked = services) ∧
    virtualhosts st' = virtualhosts st ∧ securevirtualhosts st' = securevirtualhosts st ∧
    orphaned st' = orphaned st.
Proof.
  revert r sw st. induction services as [|service services IH]; intros r sw st Heq.
  - cbn in Heq. simplify_eq. exists []. by rewrite app_nil_r.
  - cbn [computeRoutes_services builder_lookupService] in Heq.
    case_bool_decide as Hport.
    { simplify_eq. exists []. rewrite app_nil_r.
      split_and!; try done; first [apply prefix_nil | by intros [? ?]]. }
    assert (Hrange : portInRange service) by (unfold portInRange; lia).
    assert (Hone : ∀ sw1,
      ∃ looked,
        looked `prefix_of` service :: services ∧ Forall portInRange looked ∧
        serviceLookups
          (set_serviceLookups
             (λ l, l ++ [({| nn_Name := projcontour.svc_Name service;
                             nn_Namespace := projcontour.Namespace proxy |},
                          intstr_FromInt (projcontour.svc_Port service))]) st)
        = serviceLookups st ++ (serviceLookup proxy <$> looked) ∧
        (is_Some (@None Route) → looked = service :: services) ∧
        virtualhosts st = virtualhosts st ∧ securevirtualhosts st = securevirtualhosts st ∧
        orphaned st = orphaned st ∧ sw1 = sw1).
    { intros sw1. exists [service].
      split_and!; try done;
        first [apply prefix_cons, prefix_nil | by constructor | by intros [? ?]]. }
    repeat case_match; simplify_eq.
    all: try (destruct (Hone sw) as (looked & ? & ? & ? & ? & ? & ? & ? & _);
              by exists looked).
    all: apply IH in Heq as (looked & Hpre & Hall & Hlook & Hsome & Hv & Hs & Ho).
    all: exists (service :: looked); cbn in *.
    all: split_and!; try done;
      [by apply prefix_cons | by constructor | by rewrite Hlook, <-app_assoc
      | by intros ->%Hsome].
Qed.

(** X10.  The service lookups of a route.  The entries of
    [route.Services] are looked up in their order, in the namespace of
    the document and under their own name and port, up to the entry at
    which the route is refused, and all of them when the route is
    built; an entry whose port is outside 1-65535 is never looked up.
    Building a route changes nothing else in the builder. *)
Theorem computeRoutes_route_lookups p proxy conditions enforceTLS route sw st res sw' st' :
  computeRoutes_route p proxy conditions enforceTLS route sw st = (res, sw', st') →
  ∃ looked,
    looked `prefix_of` projcontour.rt_Services route ∧ Forall portInRange looked ∧
    serviceLookups st' = serviceLookups st ++ (serviceLookup proxy <$> looked) ∧
    (is_Some res → looked = projcontour.rt_Services route) ∧
    virtualhosts st' = virtualhosts st ∧ securevirtualhosts st' = securevirtualhosts st ∧
    orphaned st' = orphaned st ∧ statuses st' = statuses st.
Proof.
  intros Heq. apply computeRoutes_route_sw in Heq as Hsw. destruct Hsw as [_ Hst].
  unfold computeRoutes_route in Heq.
  assert (Hnone : ∀ sw1, (None, sw1, st) = (res, sw', st') →
    ∃ looked,
      looked `prefix_of` projcontour.rt_Services route ∧ Forall portInRange looked ∧
      serviceLookups st' = serviceLookups st ++ (serviceLookup proxy <$> looked) ∧
      (is_Some res → looked = projcontour.rt_Services route) ∧
      virtualhosts st' = virtualhosts st ∧ securevirtualhosts st' = securevirtualhosts st ∧
      orphaned st' = orphaned st ∧ statuses st' = statuses st).
  { intros sw1 [= <- <- <-]. exists []. rewrite app_nil_r.
    split_and!; try done; first [apply prefix_nil | by intros [? ?]]. }
  repeat case_match; try (by apply (Hnone _ Heq)).
  all: apply computeRoutes_services_lookups in Heq
         as (looked & Hpre & Hall & Hlook & Hsome & Hv & Hs & Ho).
  all: by exists looked.
Qed.

Lemma computeRoutes_services_count proxy route services r sw st r' sw' st' :
  computeRoutes_services proxy route services r sw st = (Some r', sw', st') →
  length (Clusters r') = length (Clusters r) + length (plainOf services) ∧
  match MirrorPolicy r with
  | Some m => mirrorsOf services = [] ∧ MirrorPolicy r' = Some m
  | None =>
      length (mirrorsOf services) ≤ 1 ∧
      (is_Some (MirrorPolicy r') ↔ mirrorsOf services ≠ [])
  end.
Proof.
  revert r sw st. induction services as [|service services IH]; intros r sw st Heq.
  - cbn in Heq. simplify_eq. split; [cbn; lia |].
    destruct (MirrorPolicy r'); [done |]. split; [cbn; lia |].
    split; [by intros [? ?] | done].
  - cbn [computeRoutes_services builder_lookupService] in Heq.
    case_bool_decide as Hport; [by simplify_eq |].
    destruct (lookupService _ _) as [err|s]; [by simplify_eq |].
    destruct (getProtocol service s) as [err|protocol]; [by simplify_eq |].
    destruct (if bool_decide (protocol = "tls") || bool_decide (protocol = "h2")
              then _ else _) as [err|uv]; [by simplify_eq |].
    destruct (headersPolicy _ true) as [err|reqHP]; [by simplify_eq |].
    destruct (headersPolicy _ false) as [err|respHP]; [by simplify_eq |].
    unfold mirrorsOf, plainOf in *. rewrite !filter_cons.
    destruct (projcontour.svc_Mirror service) eqn:Hmirror; cbn [andb] in Heq.
    + case_bool_decide as Hhas; [by simplify_eq |].
      assert (Hnone : MirrorPolicy r = None).
      { destruct (MirrorPolicy r); [| done]. exfalso. apply Hhas. by eexists. }
      apply IH in Heq as [Hlen [Hrest Hkept]]. cbn in Hlen. rewrite Hnone.
      rewrite decide_False by done. rewrite decide_True by done.
      rewrite Hrest, Hkept. split; [done |]. split; [cbn; lia |].
      split; [done | by eexists].
    + apply IH in Heq as [Hlen Hm]. cbn in Hlen, Hm.
      rewrite decide_True by done. rewrite decide_False by done.
      split; [rewrite Hlen, length_app; cbn; lia | done].
Qed.

(** X11.  One mirror per route.  A route that is built has at most
    one service entry nominated as mirror; its mirror policy is set
    exactly when there is one; every other entry has become a cluster
    of the route, so the clusters and the mirror together are as many
    as the entries, of which there is at least one. *)
Theorem computeRoutes_route_mirror p proxy conditions enforceTLS route sw st r sw' st' :
  computeRoutes_route p proxy conditions enforceTLS route sw st = (Some r, sw', st') →
  let services := projcontour.rt_Services route in
  length (mirrorsOf services) ≤ 1 ∧
  (is_Some (MirrorPolicy r) ↔ mirrorsOf services ≠ []) ∧
  length (Clusters r) = length (plainOf services) ∧
  length (Clusters r) + length (mirrorsOf services) = length services ∧
  1 ≤ length services.
Proof.
  intros Heq services.
  assert (Hsplit : length (plainOf services) + length (mirrorsOf services)
                   = length services).
  { unfold plainOf, mirrorsOf. clear. induction services as [|s l IH]; [done |].
    rewrite !filter_cons. destruct (projcontour.svc_Mirror s); cbn.
    - rewrite decide_False by done. rewrite decide_True by done. cbn. lia.
    - rewrite decide_True by done. rewrite decide_False by done. cbn. lia. }
  unfold computeRoutes_route in Heq.
  assert (Hlen : 1 ≤ length services).
  { subst services. repeat case_match; simplify_eq.
    all: repeat match goal with
      | Hb : bool_decide _ = false |- _ => apply bool_decide_eq_false in Hb
      | Hb : bool_decide _ = true |- _ => apply bool_decide_eq_true in Hb
      end.
    all: lia. }
  assert (Hcount : length (Clusters r) = length (plainOf services) ∧
                   length (mirrorsOf services) ≤ 1 ∧
                   (is_Some (MirrorPolicy r) ↔ mirrorsOf services ≠ [])).
  { repeat case_match; simplify_eq.
    all: apply computeRoutes_services_count in Heq as [Hc Hm].
    all: try match type of Hc with
      | context [applyPrefixReplacements ?a ?b ?c] =>
          destruct (applyPrefixReplacements_keeps a b c) as (_ & _ & Hkc & Hkm);
          rewrite Hkc in Hc; rewrite Hkm in Hm
      end.
    all: cbn in Hc, Hm; by destruct Hm. }
  destruct Hcount as (Hc & Hm & Hiff). split_and!; try done. lia.
Qed.

End route_services.


(** ** The TCP proxy stanza *)

Section tcp_stanza.
Context `{Collaborators}.

Implicit Types (p : HTTPProxyProcessor) (st : RunState) (sw : ObjectStatusWriter).

Lemma tcpproxy_services_spec httpproxy tcpproxy services clusters sw st res sw' st' :
  tcpproxy_services httpproxy tcpproxy services clusters sw st = (res, sw', st') →
  statuses st' = statuses st ∧ virtualhosts st' = virtualhosts st ∧
  securevirtualhosts st' = securevirtualhosts st ∧ orphaned st' = orphaned st ∧
  match res with
  | Some cs =>
      sw' = sw ∧
      serviceLookups st' = serviceLookups st ++ (serviceLookup httpproxy <$> services) ∧
      ∃ new, cs = clusters ++ new ∧ Forall2 (tcpClusterOf httpproxy tcpproxy) services new
  | None =>
      ∃ resolved service err,
        (resolved ++ [service]) `prefix_of` services ∧
        lookupService (serviceLookup httpproxy service).1 (serviceLookup httpproxy service).2
        = inl err ∧
        sw' = SetInvalid sw ("Spec.TCPProxy unresolved service reference: " +:+ err) ∧
        serviceLookups st'
        = serviceLookups st ++ (serviceLookup httpproxy <$> resolved ++ [service])
  end.
Proof.
  revert clusters sw st.
  induction services as [|service services IH]; intros clusters sw st Heq.
  - cbn in Heq. simplify_eq. split_and!; try done.
    + cbn. by rewrite app_nil_r.
    + exists []. by rewrite app_nil_r.
  - cbn [tcpproxy_services builder_lookupService] in Heq.
    destruct (lookupService _ _) as [err|s] eqn:Hlook.
    + simplify_eq. split_and!; try done. exists [], service, err.
      split_and!; try done. apply prefix_cons, prefix_nil.
    + apply IH in Heq as (Hst & Hv & Hs & Ho & Hres). cbn in Hst, Hv, Hs, Ho.
      split_and!; try done. destruct res as [cs|].
      * destruct Hres as (-> & Hlooks & new & -> & Hnew). split; [done |].
        split; [cbn in *; by rewrite Hlooks, <-app_assoc |].
        eexists (_ :: new). split; [by rewrite <-app_assoc |].
        constructor; [| done]. by unfold tcpClusterOf.
      * destruct Hres as (resolved & failed & err & Hpre & Hfail & -> & Hlooks).
        exists (service :: resolved), failed, err. split_and!; try done.
        -- by apply prefix_cons.
        -- cbn in *. by rewrite Hlooks, <-app_assoc.
Qed.

(** X12.  A TCP proxy with services.  The walk returns.  When every
    entry resolves, whatever its port, the TCP proxy of the secure
    virtual host of the host is replaced by one with a cluster per
    entry, in the order of the entries, each on the service that the
    builder resolved and speaking that service's protocol; the secret
    and the routes of the secure virtual host are kept and the writer
    is left alone.  When an entry does not resolve, the document is
    marked invalid with the error of the lookup, the entries after it
    are not looked up, and the secure virtual hosts stay as they
    were. *)
Theorem processHTTPProxyTCPProxy_services fuel p sw httpproxy visited host st tcpproxy :
  projcontour.Spec_TCPProxy httpproxy = Some tcpproxy →
  projcontour.tcp_Services tcpproxy ≠ [] →
  projcontour.tcp_Include tcpproxy = None →
  projcontour.tcp_IncludesDeprecated tcpproxy = None →
  ∃ ok sw' st',
    processHTTPProxyTCPProxy (S fuel) p sw httpproxy visited host st = Done (ok, sw', st') ∧
    statuses st' = statuses st ∧ virtualhosts st' = virtualhosts st ∧
    orphaned st' = orphaned st ∧
    if ok then
      sw' = sw ∧
      serviceLookups st'
      = serviceLookups st ++ (serviceLookup httpproxy <$> projcontour.tcp_Services tcpproxy) ∧
      (∃ clusters,
         svh_TCPProxy (secureNode host st') = Some {| tp_Clusters := clusters |} ∧
         Forall2 (tcpClusterOf httpproxy tcpproxy) (projcontour.tcp_Services tcpproxy)
           clusters) ∧
      svh_Secret (secureNode host st') = svh_Secret (secureNode host st) ∧
      svh_VirtualHost (secureNode host st') = svh_VirtualHost (secureNode host st)
    else
      securevirtualhosts st' = securevirtualhosts st ∧
      ∃ resolved service err,
        (resolved ++ [service]) `prefix_of` projcontour.tcp_Services tcpproxy ∧
        lookupService (serviceLookup httpproxy service).1 (serviceLookup httpproxy service).2
        = inl err ∧
        sw' = SetInvalid sw ("Spec.TCPProxy unresolved service reference: " +:+ err) ∧
        serviceLookups st'
        = serviceLookups st ++ (serviceLookup httpproxy <$> resolved ++ [service]).
Proof.
  intros Htcp Hsvc Hinc Hdep. cbn [processHTTPProxyTCPProxy]. rewrite Htcp, Hinc, Hdep.
  assert (Hlen : 0 < length (projcontour.tcp_Services tcpproxy)).
  { destruct (projcontour.tcp_Services tcpproxy); [done | cbn; lia]. }
  rewrite (bool_decide_eq_true_2 _ Hlen).
  rewrite (bool_decide_eq_false_2 (is_Some None)) by (by intros [? ?]). cbn [andb].
  destruct (tcpproxy_services _ _ _ _ _ _) as [[[clusters|] sw1] st1] eqn:Hrun;
    apply tcpproxy_services_spec in Hrun as (Hst & Hv & Hs & Ho & Hres).
  - destruct Hres as (-> & Hlooks & new & -> & Hnew).
    eexists true, _, _. split; [done |]. cbn. split_and!; try done.
    + exists new. rewrite secureNode_with. done.
    + rewrite secureNode_with. unfold secureNode. cbn. by rewrite Hs.
    + rewrite secureNode_with. unfold secureNode. cbn. by rewrite Hs.
  - eexists false, _, _. split; [done |]. by split_and!.
Qed.

(** X13.  The shape of the TCP proxy stanza and a missing include.  A
    stanza with services and an include is refused, and so is a stanza
    with neither.  Of the two spellings of the include the singular
    one is preferred, the plural one being read only when the singular
    one is absent; an include without a namespace points into the
    namespace of the document; and an include whose target is not in
    the snapshot is refused with the namespace and the name that were
    looked up.  In all these cases the document is marked invalid and
    the builder is left as it was.  A document without the stanza
    passes untouched. *)
Theorem processHTTPProxyTCPProxy_stanza fuel p sw httpproxy visited host st :
  (projcontour.Spec_TCPProxy httpproxy = None →
   processHTTPProxyTCPProxy (S fuel) p sw httpproxy visited host st = Done (true, sw, st)) ∧
  ∀ tcpproxy,
    projcontour.Spec_TCPProxy httpproxy = Some tcpproxy →
    (projcontour.tcp_Services tcpproxy ≠ [] →
     is_Some (projcontour.tcp_Include tcpproxy)
     ∨ is_Some (projcontour.tcp_IncludesDeprecated tcpproxy) →
     processHTTPProxyTCPProxy (S fuel) p sw httpproxy visited host st
     = Done (false,
             SetInvalid sw "tcpproxy: cannot specify services and include in the same httpproxy",
             st)) ∧
    (projcontour.tcp_Services tcpproxy = [] →
     projcontour.tcp_Include tcpproxy = None →
     projcontour.tcp_IncludesDeprecated tcpproxy = None →
     processHTTPProxyTCPProxy (S fuel) p sw httpproxy visited host st
     = Done (false,
             SetInvalid sw "tcpproxy: either services or inclusion must be specified", st)) ∧
    (∀ inc,
       projcontour.tcp_Services tcpproxy = [] →
       projcontour.tcp_Include tcpproxy = Some inc
       ∨ (projcontour.tcp_Include tcpproxy = None
          ∧ projcontour.tcp_IncludesDeprecated tcpproxy = Some inc) →
       let namespace :=
         if decide (projcontour.tpi_Namespace inc = "") then projcontour.Namespace httpproxy
         else projcontour.tpi_Namespace inc in
       lookupHTTPProxy (Source p)
         {| nn_Namespace := namespace; nn_Name := projcontour.tpi_Name inc |} = None →
       processHTTPProxyTCPProxy (S fuel) p sw httpproxy visited host st
       = Done (false,
               SetInvalid sw ("tcpproxy: include " +:+ namespace +:+ "/"
                              +:+ projcontour.tpi_Name inc +:+ " not found"), st)).
Proof.
  split; [intros Hnone; cbn [processHTTPProxyTCPProxy]; by rewrite Hnone |].
  intros tcpproxy Htcp. cbn [processHTTPProxyTCPProxy]. rewrite Htcp. split_and!.
  - intros Hsvc Hinc.
    assert (Hlen : 0 < length (projcontour.tcp_Services tcpproxy)).
    { destruct (projcontour.tcp_Services tcpproxy); [done | cbn; lia]. }
    rewrite (bool_decide_eq_true_2 _ Hlen). rewrite bool_decide_eq_true_2; [done |].
    destruct (projcontour.tcp_Include tcpproxy); [by eexists |].
    by destruct Hinc as [[? ?]|?].
  - intros -> -> ->. cbn [length].
    by rewrite (bool_decide_eq_false_2 (0 < 0)) by lia.
  - intros inc -> Hinc Hlook. cbn [length].
    rewrite (bool_decide_eq_false_2 (0 < 0)) by lia. cbn [andb].
    assert (Hpick : match projcontour.tcp_Include tcpproxy with
                    | Some inc => Some inc
                    | None => projcontour.tcp_IncludesDeprecated tcpproxy
                    end = Some inc).
    { by destruct Hinc as [->|[-> ->]]. }
    rewrite Hpick. by rewrite Hlook.
Qed.

End tcp_stanza.


(** ** Includes and the orphan set *)

Section includes_reached.
Context `{Collaborators}.

Implicit Types (p : HTTPProxyProcessor) (st : RunState) (sw : ObjectStatusWriter).

Lemma computeRoutes_orphaned fuel p sw proxy conditions visited enforceTLS st routes sw' st' :
  computeRoutes fuel p sw proxy conditions visited enforceTLS st = Done (routes, sw', st') →
  orphaned st' ⊆ orphaned st.
Proof.
  intros Heq.
  eapply (computeRoutes_inv p enforceTLS (λ _, True) (λ _, True)
            (λ a b, orphaned b ⊆ orphaned a)) in Heq as [_ Heq]; try done.
  - intros st1 st2 st3. set_solver.
  - intros d st0 _ _. cbn. set_solver.
Qed.

Lemma computeRoutes_routes_orphaned p proxy conditions enforceTLS rs routes sw st res sw' st' :
  computeRoutes_routes p proxy conditions enforceTLS rs routes sw st = (res, sw', st') →
  orphaned st' ⊆ orphaned st.
Proof.
  assert (Hstep : ∀ route sw st res sw' st',
    computeRoutes_route p proxy conditions enforceTLS route sw st = (res, sw', st') →
    orphaned st' ⊆ orphaned st).
  { intros route sw0 st0 res0 sw1 st1 Heq.
    eapply (computeRoutes_route_R p enforceTLS (λ _, True) (λ _, True)
              (λ a b, orphaned b ⊆ orphaned a)) in Heq; try done.
    - intros st2 st3 st4. set_solver.
    - intros d st2 _ _. cbn. set_solver. }
  revert routes sw st. induction rs as [|route rs IH]; intros routes sw st Heq.
  - cbn in Heq. by simplify_eq.
  - cbn [computeRoutes_routes] in Heq.
    destruct (computeRoutes_route p proxy conditions enforceTLS route sw st)
      as [[[r|] sw1] st1] eqn:Hroute; apply Hstep in Hroute.
    + apply IH in Heq. set_solver.
    + by simplify_eq.
Qed.

Lemma computeRoutes_includes_deleted (recurse : walk) p proxy conditions visited
    includes routes sw st out sw' st' :
  (∀ sw d c v st routes sw' st',
     recurse sw d c v st = Done (routes, sw', st') → orphaned st' ⊆ orphaned st) →
  computeRoutes_includes recurse p proxy conditions visited includes routes sw st
    = Done (Some out, sw', st') →
  orphaned st' ⊆ orphaned st ∧
  ∀ include, include ∈ includes →
    ∃ d, lookupHTTPProxy (Source p) (includeTarget proxy include) = Some d ∧
         projcontour.Spec_VirtualHost d = None ∧
         pathMatchConditionsValid (projcontour.inc_Conditions include) = None ∧
         k8s_NamespacedNameOf d ∉ orphaned st'.
Proof.
  intros Hrec. revert routes st.
  induction includes as [|include includes IH]; intros routes st Heq.
  - cbn in Heq. simplify_eq. split; [done |]. by intros include ?%elem_of_nil.
  - cbn [computeRoutes_includes] in Heq.
    change (lookupHTTPProxy (Source p) _) with
      (lookupHTTPProxy (Source p) (includeTarget proxy include)) in Heq.
    destruct (lookupHTTPProxy _ _) as [delegate|] eqn:Hlook; [| by simplify_eq].
    case_bool_decide as Hroot; [by simplify_eq |].
    destruct (pathMatchConditionsValid _) eqn:Hvalid; [by simplify_eq |].
    destruct (recurse _ _ _ _ _) as [[[sub dsw] st1]| |] eqn:Hwalk; [| done..].
    cbn in Heq. apply Hrec in Hwalk. apply IH in Heq as [Hsub Hrest]. cbn in Hsub.
    split; [set_solver |].
    intros inc [->|Hinc]%elem_of_cons; [| by apply Hrest].
    exists delegate. split_and!; try done.
    + destruct (projcontour.Spec_VirtualHost delegate); [| done].
      exfalso. apply Hroot. by eexists.
    + set_solver.
Qed.

(** X14.  A document that [computeRoutes] marks valid has had every
    one of its includes followed: each include resolved to a document
    of the snapshot without a virtual host, its conditions were
    accepted, and the document it resolved to is not in the orphan set
    when the call returns, whatever verdict that document got
    itself.  The call never adds to the orphan set. *)
Theorem computeRoutes_includes_reached fuel p sw proxy conditions visited enforceTLS st
    routes st' :
  computeRoutes fuel p sw proxy conditions visited enforceTLS st
  = Done (routes, SetValid sw, st') →
  orphaned st' ⊆ orphaned st ∧
  ∀ include, include ∈ projcontour.Spec_Includes proxy →
    ∃ d, lookupHTTPProxy (Source p) (includeTarget proxy include) = Some d ∧
         d ∈ httpproxies (Source p) ∧
         projcontour.Spec_VirtualHost d = None ∧
         pathMatchConditionsValid (projcontour.inc_Conditions include) = None ∧
         k8s_NamespacedNameOf d ∉ orphaned st'.
Proof.
  intros Heq. split; [by eapply computeRoutes_orphaned |].
  destruct fuel as [|fuel]; [done |]. cbn [computeRoutes] in Heq.
  destruct (existsb _ visited).
  { by simplify_eq. }
  destruct (includeMatchConditionsIdentical _).
  { by simplify_eq. }
  unfold computeRoutes_body in Heq.
  destruct (computeRoutes_includes _ _ _ _ _ _ _ _ _) as [[[included sw1] st1]| |] eqn:Hinc;
    [| done..].
  cbn [mbind outcome_bind] in Heq.
  apply computeRoutes_includes_sw in Hinc as Hsw1.
  destruct included as [included|].
  2: { rewrite bool_decide_eq_false_2 in Hsw1 by (by intros [? ?]).
       destruct Hsw1 as [msg ->]. by simplify_eq. }
  apply computeRoutes_includes_deleted in Hinc as [_ Hall].
  2: { intros sw0 d c v st0 rs sw2 st2. apply computeRoutes_orphaned. }
  destruct (computeRoutes_routes _ _ _ _ _ _ _ _) as [[[out|] sw2] st2] eqn:Hroutes.
  - apply computeRoutes_routes_orphaned in Hroutes.
    destruct (expandPrefixMatches out); [| done..]. cbn in Heq. simplify_eq.
    intros include Hin. destruct (Hall include Hin) as (d & Hlook & Hleaf & Hvalid & Hgone).
    exists d. split_and!; try done.
    + by apply lookupHTTPProxy_Some in Hlook as [? _].
    + set_solver.
  - apply computeRoutes_routes_sw in Hroutes as [Hsw2 _].
    rewrite bool_decide_eq_true_2 in Hsw1 by done. cbn in Hsw1. subst sw1.
    rewrite bool_decide_eq_false_2 in Hsw2 by (by intros [? ?]).
    destruct Hsw2 as [msg ->]. by simplify_eq.
Qed.

End includes_reached.

(** ** Prefix replacements *)

Section prefix_replacements.
Context `{Collaborators}.

Lemma find_first {A} (f : A → bool) (before : list A) e after :
  Forall (λ x, f x = false) before → f e = true →
  List.find f (before ++ e :: after) = Some e.
Proof.
  intros Hbefore He. induction Hbefore as [|x before Hx _ IH]; cbn.
  - by rewrite He.
  - by rewrite Hx.
Qed.

Lemma find_no {A} (f : A → bool) (l : list A) :
  Forall (λ x, f x = false) l → List.find f l = None.
Proof. induction 1 as [|x l Hx _ IH]; cbn; [done |]. by rewrite Hx. Qed.

(** X15.  The prefix replacement of a route.  The first replacement
    whose prefix is not empty and equals the routing prefix gives the
    rewrite, wherever a default replacement stands in the list.  When
    no replacement matches the routing prefix, or the ones that match
    replace by the empty string, the first replacement with an empty
    prefix gives the rewrite.  When there is neither, the route keeps
    an empty rewrite.  Nothing but the rewrite of the route is
    changed. *)
Theorem applyPrefixReplacements_order routingPrefix
    (replacements : list projcontour.ReplacePrefix) (r : Route) :
  PrefixRewrite r = "" →
  let matches := λ e : projcontour.ReplacePrefix,
    projcontour.rp_Prefix e ≠ "" ∧ projcontour.rp_Prefix e = routingPrefix in
  let r' := applyPrefixReplacements routingPrefix replacements r in
  (∀ before e after,
     replacements = before ++ e :: after → Forall (λ x, ¬ matches x) before → matches e →
     projcontour.rp_Replacement e ≠ "" → PrefixRewrite r' = projcontour.rp_Replacement e) ∧
  (∀ before d after,
     replacements = before ++ d :: after →
     Forall (λ x, projcontour.rp_Prefix x ≠ "") before → projcontour.rp_Prefix d = "" →
     Forall (λ x, matches x → projcontour.rp_Replacement x = "") replacements →
     PrefixRewrite r' = projcontour.rp_Replacement d) ∧
  (Forall (λ x, projcontour.rp_Prefix x ≠ "" ∧ ¬ matches x) replacements →
   PrefixRewrite r' = "") ∧
  r' = set_PrefixRewrite (PrefixRewrite r') r.
Proof.
  intros Hempty matches r'. subst r'. unfold applyPrefixReplacements.
  set (exact := λ prefix : projcontour.ReplacePrefix,
         bool_decide (0 < String.length (projcontour.rp_Prefix prefix))
         && bool_decide (routingPrefix = projcontour.rp_Prefix prefix)).
  set (default := λ prefix : projcontour.ReplacePrefix,
         bool_decide (String.length (projcontour.rp_Prefix prefix) = 0)).
  assert (Hexact : ∀ e, exact e = true ↔ matches e).
  { intros e. unfold exact, matches. rewrite andb_true_iff, !bool_decide_eq_true.
    pose proof (string_length_0 (projcontour.rp_Prefix e)) as Hlen.
    split; intros [H1 H2]; split; try done.
    - intros Heq. apply Hlen in Heq. lia.
    - destruct (String.length (projcontour.rp_Prefix e)) eqn:Hl; [| lia].
      exfalso. apply H1, Hlen. done. }
  assert (Hdefault : ∀ e, default e = true ↔ projcontour.rp_Prefix e = "").
  { intros e. unfold default. rewrite bool_decide_eq_true. apply string_length_0. }
  assert (Hnot : ∀ (P : projcontour.ReplacePrefix → Prop) f l,
            (∀ e, f e = true ↔ P e) → Forall (λ x, ¬ P x) l → Forall (λ x, f x = false) l).
  { intros P f l Hf Hl. eapply Forall_impl; [exact Hl |]. intros x Hx.
    destruct (f x) eqn:Hfx; [| done]. by apply Hf in Hfx. }
  split_and!.
  - intros before e after -> Hbefore He Hrep.
    rewrite (find_first exact before e after); [| by eapply Hnot | by apply Hexact].
    cbn. rewrite decide_False; [done |]. by rewrite string_length_0.
  - intros before d after -> Hbefore Hd Hall.
    assert (Hfirst : String.length (PrefixRewrite
              match List.find exact (before ++ d :: after) with
              | Some prefix => set_PrefixRewrite (projcontour.rp_Replacement prefix) r
              | None => r
              end) = 0).
    { destruct (List.find exact _) as [e|] eqn:Hfind; [| by rewrite Hempty].
      apply find_some in Hfind as [Hin He]. apply list_elem_of_In in Hin.
      eapply Forall_forall in Hall; [| exact Hin]. cbn.
      rewrite Hall; [done |]. by apply Hexact. }
    rewrite decide_True by done.
    rewrite (find_first default before d after); [by destruct (List.find exact _) | |].
    + eapply (Hnot (λ x, projcontour.rp_Prefix x = "")); [exact Hdefault | done].
    + by apply Hdefault.
  - intros Hall.
    rewrite (find_no exact), (find_no default).
    + by destruct (decide _).
    + eapply (Hnot (λ x, projcontour.rp_Prefix x = "")); [exact Hdefault |].
      eapply Forall_impl; [exact Hall |]. by intros x [? _].
    + eapply Hnot; [exact Hexact |]. eapply Forall_impl; [exact Hall |]. by intros x [_ ?].
  - repeat case_match; try done.
    all: destruct r; cbn in *; by subst.
Qed.

End prefix_replacements.

(** ** Prefix expansion that changes nothing *)

Section expand_unchanged.
Context `{Collaborators}.

Lemma map_append_join (k : string) (r : Route) (m : list (string * list Route)) :
  mjoin (map_append k r m).*2 ≡ₚ mjoin m.*2 ++ [r].
Proof.
  induction m as [|[k' vs] m IH]; cbn [map_append]; [done |].
  case_decide; cbn.
  - rewrite <-!app_assoc. f_equiv. apply Permutation_app_comm.
  - rewrite IH. by rewrite app_assoc.
Qed.

Lemma grouped_join (routes : list Route) (m : list (string * list Route)) :
  mjoin (foldl (λ m r, map_append (groupKey r) r m) m routes).*2 ≡ₚ mjoin m.*2 ++ routes.
Proof.
  revert m. induction routes as [|r routes IH]; intros m; cbn [foldl].
  - by rewrite app_nil_r.
  - rewrite IH, map_append_join. by rewrite <-app_assoc.
Qed.

Lemma expandGroup_unchanged k (g : list Route) :
  Forall (λ r, PrefixRewrite r = "" ∨ prefixOf r = Some "/") g →
  expandGroup k g = Done g.
Proof.
  intros Hg. unfold expandGroup. destruct g as [|r0 [|r1 g]]; [done | | done].
  apply Forall_cons in Hg as [[Hrw|Hslash] _].
  - rewrite decide_True; [done |]. by rewrite Hrw.
  - destruct (decide _); [done |]. unfold prefixOf in Hslash.
    destruct (PathMatchCondition r0); [| done]. simplify_eq. by rewrite decide_True.
Qed.

Lemma expandGroups_unchanged (l : list (string * list Route)) expanded :
  Forall (λ kg, Forall (λ r, PrefixRewrite r = "" ∨ prefixOf r = Some "/") kg.2) l →
  expandGroups l expanded = Done (expanded ++ mjoin l.*2).
Proof.
  intros Hl. revert expanded. induction Hl as [|[k g] l Hg _ IH]; intros expanded; cbn.
  - by rewrite app_nil_r.
  - cbn in Hg. rewrite (expandGroup_unchanged k g Hg). cbn. rewrite IH.
    by rewrite <-app_assoc.
Qed.

Lemma grouped_Forall (P : Route → Prop) (routes : list Route) :
  Forall P routes →
  Forall (λ kg : string * list Route, Forall P kg.2)
    (foldl (λ m r, map_append (groupKey r) r m) [] routes).
Proof.
  intros Hall. apply Forall_forall. intros [k g] Hin. cbn.
  apply lookupGroup_elem_of in Hin as <-; [| apply foldl_map_append_NoDup, NoDup_nil_2].
  rewrite lookupGroup_foldl. cbn. apply Forall_forall. intros r Hr.
  apply list_elem_of_filter in Hr as [_ Hr].
  by eapply Forall_forall in Hall.
Qed.

Lemma lookupGroup_absent {V} (k : string) (m : list (string * list V)) :
  k ∉ m.*1 → lookupGroup k m = [].
Proof.
  induction m as [|[k' vs] m IH]; cbn; [done |].
  intros Hk. rewrite decide_False; [apply IH |]; set_solver.
Qed.

Lemma lookupGroup_perm {V} (k : string) (l1 l2 : list (string * list V)) :
  l1 ≡ₚ l2 → NoDup l1.*1 → lookupGroup k l1 = lookupGroup k l2.
Proof.
  intros Hperm Hnd1.
  assert (Hnd2 : NoDup l2.*1) by (by rewrite <-Hperm).
  destruct (lookupGroup k l1) as [|v vs] eqn:H1.
  - destruct (lookupGroup k l2) as [|w ws] eqn:H2; [done |].
    assert (Hin : (k, w :: ws) ∈ l2).
    { rewrite <-H2. apply lookupGroup_nonempty. by rewrite H2. }
    rewrite <-Hperm in Hin. apply lookupGroup_elem_of in Hin; [| done]. congruence.
  - assert (Hin : (k, v :: vs) ∈ l1).
    { rewrite <-H1. apply lookupGroup_nonempty. by rewrite H1. }
    rewrite Hperm in Hin. apply lookupGroup_elem_of in Hin; [| done]. congruence.
Qed.

Lemma join_filter_group (l : list (string * list Route)) prefix :
  NoDup l.*1 → Forall (λ kg, Forall (λ r, groupKey r = kg.1) kg.2) l →
  filter (λ r, groupKey r = prefix) (mjoin l.*2) = lookupGroup prefix l.
Proof.
  induction l as [|[k g] l IH]; intros Hnd Hl; [done |].
  change (mjoin ((k, g) :: l).*2) with (g ++ mjoin l.*2). cbn [lookupGroup].
  rewrite fmap_cons in Hnd. cbn [fst] in Hnd.
  apply NoDup_cons in Hnd as [Hk Hnd]. apply Forall_cons in Hl as [Hg Hl]. cbn [fst snd] in Hg.
  rewrite filter_app. rewrite IH by done. case_decide as Hp.
  - subst k. rewrite lookupGroup_absent, app_nil_r by done.
    clear -Hg. induction Hg as [|r g Hr _ IHg]; [done |].
    rewrite filter_cons, decide_True by done. by rewrite IHg.
  - assert (Hnone : filter (λ r, groupKey r = prefix) g = []); [| by rewrite Hnone].
    clear -Hg Hp. induction Hg as [|r g Hr _ IHg]; [done |].
    rewrite filter_cons, decide_False by congruence. done.
Qed.

Lemma grouped_keys (routes : list Route) :
  Forall (λ kg : string * list Route, Forall (λ r, groupKey r = kg.1) kg.2)
    (foldl (λ m r, map_append (groupKey r) r m) [] routes).
Proof.
  apply Forall_forall. intros [k g] Hin. cbn.
  apply lookupGroup_elem_of in Hin as <-; [| apply foldl_map_append_NoDup, NoDup_nil_2].
  rewrite lookupGroup_foldl. cbn. apply Forall_forall. intros r Hr.
  by apply list_elem_of_filter in Hr as [? _].
Qed.

(** X16.  Prefix expansion without expansions.  When every route has
    a prefix condition and none of them asks for an expansion, having
    no rewrite or routing on the single slash, the call returns the
    routes it was given, each exactly once: the result is the input
    regrouped by slash-trimmed prefix, the routes of one prefix in the
    order in which they came, the groups in whatever order [range]
    visits them. *)
Theorem expandPrefixMatches_unchanged (routes : list Route) :
  Forall (λ r, HasPathPrefix r = true) routes →
  Forall (λ r, PrefixRewrite r = "" ∨ prefixOf r = Some "/") routes →
  ∃ out, expandPrefixMatches routes = Done out ∧ out ≡ₚ routes ∧
    ∀ prefix, groupOf prefix out = groupOf prefix routes.
Proof.
  intros Hpre Hplain. unfold expandPrefixMatches.
  rewrite groupByPrefix_prefixed by done. cbn.
  set (m := foldl _ _ _).
  rewrite expandGroups_unchanged.
  2: { rewrite range_order_perm. by apply grouped_Forall. }
  exists (mjoin (range_order _ m).*2). split; [done |].
  assert (Hperm : mjoin (range_order _ m).*2 ≡ₚ routes).
  { rewrite range_order_perm. subst m. by rewrite grouped_join. }
  split; [done |].
  assert (Hnd : NoDup m.*1) by apply foldl_map_append_NoDup, NoDup_nil_2.
  intros prefix. rewrite (groupOf_groupKey prefix routes) by done.
  rewrite groupOf_groupKey by (by rewrite Hperm).
  rewrite join_filter_group.
  - rewrite (lookupGroup_perm prefix _ m); [| apply range_order_perm |].
    + subst m. by rewrite lookupGroup_foldl.
    + by rewrite range_order_perm.
  - by rewrite range_order_perm.
  - rewrite range_order_perm. apply grouped_keys.
Qed.

End expand_unchanged.

(** ** The prefix expansion law *)

Section expand_law.
Context `{Collaborators}.

Lemma expansionOf_grouped (routes : list Route) k r :
  HasPathPrefix r = true → groupKey r = k →
  expansionOf routes r
  = if decide (length (groupOf k routes) = 1 ∧ PrefixRewrite r ≠ "" ∧ prefixOf r ≠ Some "/")
    then expandedPair k r else [r].
Proof.
  unfold expansionOf, groupKey, HasPathPrefix, prefixOf.
  destruct (PathMatchCondition r) as [prefix|]; [| done]. cbn. intros _ <-.
  destruct (decide (_ ∧ _ ∧ prefix ≠ "/")) as [Ha|Ha],
           (decide (_ ∧ _ ∧ Some prefix ≠ Some "/")) as [Hb|Hb]; try done.
  - exfalso. apply Hb. destruct Ha as (? & ? & ?). split_and!; [done | done | congruence].
  - exfalso. apply Ha. destruct Hb as (? & ? & ?). split_and!; [done | done | congruence].
Qed.

Lemma join_singletons {A} (f : A → list A) (l : list A) :
  Forall (λ x, f x = [x]) l → mjoin (f <$> l) = l.
Proof.
  induction 1 as [|x l Hx _ IH]; [done |].
  rewrite fmap_cons. change (mjoin (f x :: (f <$> l))) with (f x ++ mjoin (f <$> l)).
  by rewrite Hx, IH.
Qed.

(** The second loop does to a group what [expansionOf] says of its
    routes. *)
Lemma expandGroup_expansion (routes : list Route) k :
  Forall (λ r, HasPathPrefix r = true) routes →
  expandGroup k (groupOf k routes)
  = Done (mjoin (expansionOf routes <$> groupOf k routes)).
Proof.
  intros Hall.
  assert (Hg : Forall (λ r, HasPathPrefix r = true ∧ groupKey r = k) (groupOf k routes)).
  { rewrite groupOf_groupKey by done. apply Forall_forall. intros r Hr.
    apply list_elem_of_filter in Hr as [Hk Hr]. split; [| done].
    by eapply Forall_forall in Hall. }
  destruct (groupOf k routes) as [|r0 [|r1 g]] eqn:Hgroup; [done | |].
  - apply Forall_cons in Hg as [[Hpre Hkey] _].
    change (expansionOf routes <$> [r0]) with [expansionOf routes r0].
    change (mjoin [expansionOf routes r0]) with (expansionOf routes r0 ++ []).
    rewrite app_nil_r, (expansionOf_grouped routes k r0 Hpre Hkey), Hgroup.
    destruct (decide (length [r0] = 1 ∧ PrefixRewrite r0 ≠ "" ∧ prefixOf r0 ≠ Some "/"))
      as [Hlone|Hlone].
    + destruct Hlone as (_ & Hrw & Hslash). by apply expandGroup_lone.
    + apply expandGroup_unchanged. constructor; [| done].
      destruct (decide (PrefixRewrite r0 = "")) as [?|Hrw]; [by left |]. right.
      destruct (decide (prefixOf r0 = Some "/")) as [?|Hslash]; [done |].
      exfalso. by apply Hlone.
  - rewrite join_singletons; [done |].
    eapply Forall_impl; [exact Hg |]. intros r [Hpre Hkey]. cbn.
    rewrite (expansionOf_grouped routes k r Hpre Hkey), Hgroup.
    rewrite decide_False; [done |]. cbn. intros [? _]. lia.
Qed.

Lemma expandGroups_expansion (routes : list Route) (l : list (string * list Route)) expanded :
  Forall (λ r, HasPathPrefix r = true) routes →
  Forall (λ kg, kg.2 = groupOf kg.1 routes) l →
  expandGroups l expanded = Done (expanded ++ mjoin (expansionOf routes <$> mjoin l.*2)).
Proof.
  intros Hall Hl. revert expanded.
  induction Hl as [|[k g] l Hg _ IH]; intros expanded.
  - cbn. by rewrite app_nil_r.
  - cbn [expandGroups]. cbn in Hg. subst g. rewrite expandGroup_expansion by done.
    cbn [mbind outcome_bind]. rewrite IH.
    change (mjoin ((k, groupOf k routes) :: l).*2) with (groupOf k routes ++ mjoin l.*2).
    by rewrite fmap_app, join_app, app_assoc.
Qed.

Lemma grouped_groupOf (routes : list Route) :
  Forall (λ r, HasPathPrefix r = true) routes →
  Forall (λ kg : string * list Route, kg.2 = groupOf kg.1 routes)
    (foldl (λ m r, map_append (groupKey r) r m) [] routes).
Proof.
  intros Hall. apply Forall_forall. intros [k g] Hin. cbn.
  apply lookupGroup_elem_of in Hin as <-; [| apply foldl_map_append_NoDup, NoDup_nil_2].
  rewrite lookupGroup_foldl. cbn. by rewrite groupOf_groupKey.
Qed.

(** C4.  On a list of routes that all have prefix conditions the call
    returns, and its result holds, in some order of the groups,
    exactly what [expansionOf] makes of each route.  A route that is
    the only one of its slash-trimmed prefix [p], has a rewrite and
    does not route on the single slash is replaced by the pair: the
    pair stands in one block, prefix [p] with the slash-trimmed
    rewrite (the single slash when the trimmed rewrite is empty) and
    prefix [p/] with the trimmed rewrite followed by a slash, and what
    stands around the block is what the expansion makes of the other
    routes.  A group of two routes stays as it is.  On a list that
    holds a route without a prefix condition the call panics and has
    no result. *)
Theorem expandPrefixMatches_law (routes : list Route) :
  (Forall (λ r, HasPathPrefix r = true) routes →
   ∃ out, expandPrefixMatches routes = Done out ∧
     out ≡ₚ mjoin (expansionOf routes <$> routes) ∧
     (∀ p r, groupOf p routes = [r] → PrefixRewrite r ≠ "" → prefixOf r ≠ Some "/" →
        ∃ pre post, out = pre ++ expandedPair p r ++ post ∧
          ∀ before after, routes = before ++ r :: after →
            pre ++ post ≡ₚ mjoin (expansionOf routes <$> before ++ after)) ∧
     (∀ p a b, groupOf p routes = [a; b] → ∃ pre post, out = pre ++ [a; b] ++ post)) ∧
  (∀ r, r ∈ routes → HasPathPrefix r = false → expandPrefixMatches routes = Panicked).
Proof.
  split.
  2: { intros r Hin Hr. unfold expandPrefixMatches.
       by rewrite (groupByPrefix_panics routes r [] [] Hin Hr). }
  intros Hall. unfold expandPrefixMatches.
  rewrite groupByPrefix_prefixed by done. cbn [mbind outcome_bind].
  set (m := foldl _ _ _).
  assert (Hm : Forall (λ kg : string * list Route,
                         Forall (λ r, HasPathPrefix r = true) kg.2) (range_order _ m)).
  { rewrite range_order_perm. by apply grouped_prefixed. }
  assert (Hl : Forall (λ kg : string * list Route, kg.2 = groupOf kg.1 routes)
                 (range_order _ m)).
  { rewrite range_order_perm. by apply grouped_groupOf. }
  assert (Hjoin : mjoin (range_order _ m).*2 ≡ₚ routes).
  { rewrite range_order_perm. subst m. by rewrite grouped_join. }
  pose proof (expandGroups_expansion routes _ [] Hall Hl) as Hout. cbn [app] in Hout.
  exists (mjoin (expansionOf routes <$> mjoin (range_order _ m).*2)).
  split; [done |]. split; [by rewrite Hjoin |]. split.
  - intros p r Hg Hrw Hslash.
    assert (Hin : (p, [r]) ∈ range_order _ m).
    { rewrite range_order_perm, <-Hg. apply grouped_elem_of; [done |].
      change (groupOf p routes ≠ []). by rewrite Hg. }
    assert (Hr : HasPathPrefix r = true ∧ groupKey r = p).
    { assert (Hrin : r ∈ groupOf p routes) by (rewrite Hg; left).
      rewrite groupOf_groupKey in Hrin by done.
      apply list_elem_of_filter in Hrin as [Hk Hrin]. split; [| done].
      by eapply Forall_forall in Hall. }
    destruct Hr as [Hpre Hkey].
    apply list_elem_of_split in Hin as (l1 & l2 & Hsplit).
    rewrite Hsplit in Hjoin |- *.
    rewrite fmap_app, fmap_cons, join_app in Hjoin |- *. cbn [snd] in Hjoin |- *.
    change (mjoin ([r] :: l2.*2)) with (r :: mjoin l2.*2) in Hjoin |- *.
    rewrite fmap_app, fmap_cons, join_app.
    change (mjoin (expansionOf routes r :: (expansionOf routes <$> mjoin l2.*2)))
      with (expansionOf routes r ++ mjoin (expansionOf routes <$> mjoin l2.*2)).
    rewrite (expansionOf_grouped routes p r Hpre Hkey), Hg.
    rewrite decide_True by done.
    exists (mjoin (expansionOf routes <$> mjoin l1.*2)),
           (mjoin (expansionOf routes <$> mjoin l2.*2)).
    split; [done |]. intros before after Hroutes. rewrite Hroutes in Hjoin.
    apply Permutation_app_inv in Hjoin.
    by rewrite <-join_app, <-fmap_app, Hjoin.
  - intros p a b Hg.
    assert (Hin : (p, [a; b]) ∈ range_order _ m).
    { rewrite range_order_perm, <-Hg. apply grouped_elem_of; [done |].
      change (groupOf p routes ≠ []). by rewrite Hg. }
    destruct (expandGroups_block _ [] p [a; b] [a; b] Hm Hin eq_refl)
      as (out' & pre & post & Hout' & Heq).
    rewrite Hout in Hout'. injection Hout' as <-. by exists pre, post.
Qed.

End expand_law.


(** ** The valid set, and the statuses of a run *)

Section valid_set.
Context `{Collaborators}.

Implicit Types (p : HTTPProxyProcessor) (st : RunState) (sw : ObjectStatusWriter).

Lemma validHTTPProxies_groups_valid (groups : list (string * list projcontour.HTTPProxy))
    valid st :
  let res := validHTTPProxies_groups groups valid st in
  (∀ x, x ∈ res.1 ↔ x ∈ valid ∨ ∃ f, (f, [x]) ∈ groups) ∧
  ∃ log, statuses res.2 = statuses st ++ log ∧
    ∀ sw, sw ∈ log →
      ∃ f ps x, (f, ps) ∈ groups ∧ length ps ≠ 1 ∧ x ∈ ps ∧
        sw = conflictStatus f (conflictMessage f ps) x.
Proof.
  cbn zeta. revert valid st.
  induction groups as [|[f ps] groups IH]; intros valid st.
  - cbn. split.
    + intros x. split; [by left |]. intros [?|[f Hf]]; [done |]. by apply elem_of_nil in Hf.
    + exists []. split; [by rewrite app_nil_r |]. by intros sw ?%elem_of_nil.
  - cbn [validHTTPProxies_groups].
    assert (Hcase : (∃ x, ps = [x]) ∨ length ps ≠ 1).
    { destruct ps as [|x [|y ps]]; cbn; eauto. }
    destruct Hcase as [[x ->]|Hlen].
    + destruct (IH (valid ++ [x]) st) as (Hin & log & -> & Hlog). split.
      * intros y. rewrite Hin, elem_of_app, list_elem_of_singleton. split.
        -- intros [[? | ->] | [f' Hf']]; [by left | |].
           ++ right. exists f. left.
           ++ right. exists f'. by right.
        -- intros [?|[f' [[= -> ->]|Hf']%elem_of_cons]]; [by auto | by auto |].
           right. by exists f'.
      * exists log. split; [done |]. intros sw Hsw.
        destruct (Hlog sw Hsw) as (f' & ps' & y & Hg & Hl & Hy & ->).
        exists f', ps', y. split_and!; try done. by right.
    + assert (Hstep : validHTTPProxies_groups ((f, ps) :: groups) valid st
                      = validHTTPProxies_groups groups valid
                          (markConflicting f (conflictMessage f ps) ps st)).
      { destruct ps as [|x [|y ps]]; done. }
      cbn [validHTTPProxies_groups] in Hstep. rewrite Hstep.
      destruct (markConflicting_spec f (conflictMessage f ps) ps st) as (Hs & _).
      destruct (IH valid (markConflicting f (conflictMessage f ps) ps st))
        as (Hin & log & -> & Hlog).
      split.
      * intros y. rewrite Hin. split.
        -- intros [?|[f' Hf']]; [by left |]. right. exists f'. by right.
        -- intros [?|[f' [[= -> <-]|Hf']%elem_of_cons]]; [by left | done |].
           right. by exists f'.
      * exists ((conflictStatus f (conflictMessage f ps) <$> ps) ++ log).
        split; [by rewrite Hs, <-app_assoc |].
        intros sw [Hsw|Hsw]%elem_of_app.
        -- apply list_elem_of_fmap in Hsw as (x & -> & Hx).
           exists f, ps, x. split_and!; try done. left.
        -- destruct (Hlog sw Hsw) as (f' & ps' & y & Hg & Hl & Hy & ->).
           exists f', ps', y. split_and!; try done. by right.
Qed.

Lemma validHTTPProxies_members p st x :
  x ∈ (validHTTPProxies p st).1 ↔
  x ∈ httpproxies (Source p) ∧
  (projcontour.Spec_VirtualHost x = None ∨ validRoot (Source p) x).
Proof.
  set (docs := httpproxies (Source p)). unfold validHTTPProxies.
  destruct (validHTTPProxies_partition (httpproxies (Source p)) [] []) as [valid0 m] eqn:Hpart.
  pose proof (validHTTPProxies_partition_spec (httpproxies (Source p)) [] []) as (Hv & _).
  pose proof (fqdn_groups p) as Hgroups. pose proof (fqdn_groups_elem_of p) as Hgin.
  rewrite Hpart in Hv, Hgroups, Hgin. cbn in Hv, Hgroups, Hgin. subst valid0.
  fold docs in Hgroups, Hgin |- *.
  destruct (validHTTPProxies_groups_valid (range_order _ m) (leavesOf docs) st)
    as (Hin & _).
  rewrite Hin. split.
  - intros [Hleaf|[f Hf]].
    + apply list_elem_of_filter in Hleaf as [? ?]. by auto.
    + apply Hgroups in Hf.
      assert (Hx : x ∈ rootsOf f docs) by (rewrite <-Hf; left).
      apply list_elem_of_filter in Hx as [Hfx Hx]. split; [done |]. right.
      by exists f.
  - intros [Hx [Hleaf|(f & Hf & Hone)]].
    + left. by apply list_elem_of_filter.
    + right. exists f. rewrite <-Hone. apply Hgin. fold docs in Hone. by rewrite Hone.
Qed.

Lemma validHTTPProxies_log p st :
  let docs := httpproxies (Source p) in
  ∃ log, statuses (validHTTPProxies p st).2 = statuses st ++ log ∧
    ∀ sw, sw ∈ log →
      ∃ f x, 2 ≤ length (rootsOf f docs) ∧ x ∈ rootsOf f docs ∧
        sw = conflictStatus f (conflictMessage f (rootsOf f docs)) x.
Proof.
  intros docs. unfold validHTTPProxies.
  destruct (validHTTPProxies_partition (httpproxies (Source p)) [] []) as [valid0 m] eqn:Hpart.
  pose proof (fqdn_groups p) as Hgroups.
  rewrite Hpart in Hgroups. cbn in Hgroups.
  fold docs in Hgroups |- *.
  destruct (validHTTPProxies_groups_valid (range_order _ m) valid0 st)
    as (_ & log & Hlog & Hconf).
  exists log. split; [done |]. intros sw Hsw.
  destruct (Hconf sw Hsw) as (f & ps & x & Hg & Hlen & Hx & ->).
  apply Hgroups in Hg. subst ps. exists f, x. split_and!; try done.
  destruct (rootsOf f docs) as [|a [|b l]]; cbn in *; [by apply elem_of_nil in Hx | done | lia].
Qed.

(** X17.  The valid set.  [validHTTPProxies] returns exactly the
    documents of the snapshot that have no virtual host or are the
    only root of their FQDN, and the statuses it commits are those of
    roots whose FQDN two or more roots carry: every other document is
    handed on without a status. *)
Theorem validHTTPProxies_valid_set p st :
  let docs := httpproxies (Source p) in
  (∀ x, x ∈ (validHTTPProxies p st).1 ↔
     x ∈ docs ∧ (projcontour.Spec_VirtualHost x = None ∨ validRoot (Source p) x)) ∧
  ∃ log, statuses (validHTTPProxies p st).2 = statuses st ++ log ∧
    ∀ sw, sw ∈ log →
      ∃ f x, 2 ≤ length (rootsOf f docs) ∧ x ∈ rootsOf f docs ∧
        sw = conflictStatus f (conflictMessage f (rootsOf f docs)) x.
Proof.
  intros docs. split.
  - intros x. apply validHTTPProxies_members.
  - apply validHTTPProxies_log.
Qed.

Lemma commitsFor_refl (src : KubernetesCache) st : commitsFor src st st.
Proof. exists []. by rewrite app_nil_r. Qed.

Lemma commitsFor_trans (src : KubernetesCache) st1 st2 st3 :
  commitsFor src st1 st2 → commitsFor src st2 st3 → commitsFor src st1 st3.
Proof.
  intros (a1 & H1 & Ha1) (a2 & H2 & Ha2). exists (a1 ++ a2).
  split; [by rewrite H2, H1, <-app_assoc | by apply Forall_app].
Qed.

Lemma commitsFor_same (src : KubernetesCache) st st' :
  statuses st' = statuses st → commitsFor src st st'.
Proof. intros Heq. exists []. by rewrite app_nil_r. Qed.

Lemma commitsFor_commit (src : KubernetesCache) sw st :
  osw_obj sw ∈ snapshotKeys src → commitsFor src st (commit sw st).
Proof. intros Hsw. exists [sw]. split; [done | by constructor]. Qed.

Lemma computeRoutes_includes_commitsFor (recurse : walk) p proxy conditions visited
    includes routes sw st res sw' st' :
  (∀ sw d c v st routes sw' st',
     recurse sw d c v st = Done (routes, sw', st') →
     osw_obj sw' = osw_obj sw ∧ commitsFor (Source p) st st') →
  computeRoutes_includes recurse p proxy conditions visited includes routes sw st
    = Done (res, sw', st') →
  commitsFor (Source p) st st'.
Proof.
  intros Hrec. revert routes st.
  induction includes as [|include includes IH]; intros routes st Heq.
  - cbn in Heq. simplify_eq. apply commitsFor_refl.
  - cbn [computeRoutes_includes] in Heq.
    destruct (lookupHTTPProxy _ _) as [delegate|] eqn:Hlook;
      [| simplify_eq; apply commitsFor_refl].
    case_bool_decide; [simplify_eq; apply commitsFor_refl |].
    destruct (pathMatchConditionsValid _); [simplify_eq; apply commitsFor_refl |].
    destruct (recurse _ _ _ _ _) as [[[sub dsw] st1]| |] eqn:Hwalk; [| done..].
    cbn in Heq. apply Hrec in Hwalk as [Hobj Hst1]. apply IH in Heq.
    eapply commitsFor_trans; [exact Hst1 |].
    eapply commitsFor_trans; [| exact Heq].
    eapply commitsFor_trans; [apply (commitsFor_commit _ dsw) |].
    + rewrite Hobj. cbn. by eapply lookupHTTPProxy_key.
    + by apply commitsFor_same.
Qed.

Lemma computeRoutes_commitsFor fuel p sw proxy conditions visited enforceTLS st routes sw' st' :
  computeRoutes fuel p sw proxy conditions visited enforceTLS st = Done (routes, sw', st') →
  commitsFor (Source p) st st'.
Proof.
  revert sw proxy conditions visited st routes sw' st'.
  induction fuel as [|fuel IH]; intros sw proxy conditions visited st routes sw' st' Heq;
    [done |].
  cbn [computeRoutes] in Heq.
  destruct (existsb _ visited); [simplify_eq; apply commitsFor_refl |].
  destruct (includeMatchConditionsIdentical _); [simplify_eq; apply commitsFor_refl |].
  unfold computeRoutes_body in Heq.
  destruct (computeRoutes_includes _ _ _ _ _ _ _ _ _) as [[[included sw1] st1]| |] eqn:Hinc;
    [| done..].
  cbn [mbind outcome_bind] in Heq.
  apply computeRoutes_includes_commitsFor in Hinc.
  2: { intros sw0 d c v st0 rs sw2 st2 Hwalk. split; [| by eapply IH].
       apply computeRoutes_sw in Hwalk as [->|[_ [msg ->]]]; done. }
  destruct included as [included|]; [| by simplify_eq].
  destruct (computeRoutes_routes _ _ _ _ _ _ _ _) as [[[out|] sw2] st2] eqn:Hroutes;
    apply computeRoutes_routes_sw in Hroutes as [_ Hst].
  - destruct (expandPrefixMatches out); [| done..]. cbn in Heq. simplify_eq.
    eapply commitsFor_trans; [exact Hinc | by apply commitsFor_same].
  - simplify_eq. eapply commitsFor_trans; [exact Hinc | by apply commitsFor_same].
Qed.

Lemma processHTTPProxyTCPProxy_commitsFor fuel p sw httpproxy visited host st ok sw' st' :
  processHTTPProxyTCPProxy fuel p sw httpproxy visited host st = Done (ok, sw', st') →
  commitsFor (Source p) st st'.
Proof.
  revert sw httpproxy visited st ok sw' st'.
  induction fuel as [|fuel IH]; intros sw httpproxy visited st ok sw' st' Heq; [done |].
  cbn [processHTTPProxyTCPProxy] in Heq.
  destruct (projcontour.Spec_TCPProxy httpproxy) as [tcpproxy|];
    [| simplify_eq; apply commitsFor_refl].
  destruct (bool_decide (0 < length _) && _); [simplify_eq; apply commitsFor_refl |].
  destruct (bool_decide (0 < length _)).
  { destruct (tcpproxy_services _ _ _ _ _ _) as [[[clusters|] sw1] st1] eqn:Hsvc;
      apply tcpproxy_services_sw in Hsvc as [_ Hst]; simplify_eq; by apply commitsFor_same. }
  destruct (match projcontour.tcp_Include tcpproxy with Some _ => _ | None => _ end);
    [| simplify_eq; apply commitsFor_refl].
  destruct (lookupHTTPProxy _ _) as [dest|] eqn:Hlook; [| simplify_eq; apply commitsFor_refl].
  case_bool_decide; [simplify_eq; apply commitsFor_refl |].
  destruct (existsb _ _); [simplify_eq; by apply commitsFor_same |].
  destruct (processHTTPProxyTCPProxy fuel _ _ _ _ _ _) as [[[ok1 dsw] st1]| |] eqn:Hrec;
    [| done..].
  cbn in Heq. simplify_eq.
  apply processHTTPProxyTCPProxy_sw in Hrec as Hsw. apply IH in Hrec.
  eapply commitsFor_trans; [by apply (commitsFor_same _ st) |].
  eapply commitsFor_trans; [exact Hrec |]. apply commitsFor_commit.
  apply lookupHTTPProxy_key in Hlook.
  destruct Hsw as [->|[-> [msg ->]]]; [by destruct ok |]. done.
Qed.

(** The deferred commit: the status of the document comes last. *)
Lemma computeHTTPProxy_commits fuel p proxy st st' :
  computeHTTPProxy fuel p proxy st = Done st' →
  ∃ earlier sw,
    statuses st' = statuses st ++ earlier ++ [sw] ∧
    osw_obj sw = k8s_NamespacedNameOf proxy ∧
    Forall (λ s, osw_obj s ∈ snapshotKeys (Source p)) earlier.
Proof.
  intros Heq. destruct (projcontour.Spec_VirtualHost proxy) as [vh|] eqn:Hvh.
  2: { unfold computeHTTPProxy, computeHTTPProxy_body in Heq. rewrite Hvh in Heq.
       cbn in Heq. simplify_eq. by exists [], (WithObject proxy). }
  assert (Hend : ∀ sw st1,
    commitsFor (Source p) st st1 → osw_obj sw = k8s_NamespacedNameOf proxy →
    ∃ earlier sw0,
      statuses (commit sw st1) = statuses st ++ earlier ++ [sw0] ∧
      osw_obj sw0 = k8s_NamespacedNameOf proxy ∧
      Forall (λ s, osw_obj s ∈ snapshotKeys (Source p)) earlier).
  { intros sw st1 (earlier & Hst & Hall) Hobj. exists earlier, sw. cbn.
    by rewrite Hst, <-app_assoc. }
  destruct (computeHTTPProxy_root_inv _ _ _ _ _ _ Hvh Heq)
    as [[msg ->]|[[msg ->]|[(tls & msg & st1 & Htls & Hrun & ->)
                           |(tlsEnabled & st1 & Htlsstep & Hrest)]]].
  - apply Hend; [apply commitsFor_refl | done].
  - apply Hend; [apply commitsFor_refl | done].
  - apply computeHTTPProxy_tls_frame in Hrun as (_ & Hst & _).
    apply Hend; [by apply commitsFor_same | done].
  - assert (Hst1 : commitsFor (Source p) st st1).
    { apply commitsFor_same. destruct (projcontour.vh_TLS vh) as [tls|].
      - destruct Htlsstep as [Hrun _].
        by apply computeHTTPProxy_tls_frame in Hrun as (_ & Hst & _).
      - by destruct Htlsstep as [-> _]. }
    destruct Hrest as [(Htcp & _ & msg & ->)
                      |[(Htcp & _ & sw2 & st2 & Hwalk & ->)
                       |(st2 & routes & sw3 & st3 & Htcp & Hroutes & ->)]].
    + by apply Hend.
    + apply processHTTPProxyTCPProxy_sw in Hwalk as Hsw.
      apply processHTTPProxyTCPProxy_commitsFor in Hwalk.
      apply Hend; [by eapply commitsFor_trans |].
      by destruct Hsw as [->|[_ [msg ->]]].
    + assert (Hst2 : commitsFor (Source p) st1 st2).
      { destruct (projcontour.Spec_TCPProxy proxy).
        - destruct Htcp as [_ Hwalk]. by apply processHTTPProxyTCPProxy_commitsFor in Hwalk.
        - subst. apply commitsFor_refl. }
      apply computeRoutes_sw in Hroutes as Hsw.
      apply computeRoutes_commitsFor in Hroutes.
      assert (Hst3 : commitsFor (Source p) st st3).
      { eapply commitsFor_trans; [exact Hst1 |]. by eapply commitsFor_trans. }
      assert (Hobj : osw_obj sw3 = k8s_NamespacedNameOf proxy).
      { by destruct Hsw as [->|[_ [msg ->]]]. }
      destruct Hst3 as (earlier & Hlog & Hall). exists earlier, sw3.
      split_and!; [| done | done].
      destruct (_ && _); cbn; by rewrite Hlog, <-app_assoc.
Qed.

Lemma computeHTTPProxies_loop_commits fuel p proxies st st' :
  Forall (λ x, x ∈ httpproxies (Source p)) proxies →
  computeHTTPProxies_loop fuel p proxies st = Done st' →
  ∃ added,
    statuses st' = statuses st ++ added ∧
    Forall (λ s, osw_obj s ∈ snapshotKeys (Source p)) added ∧
    ∀ x, x ∈ proxies → ∃ sw, sw ∈ added ∧ osw_obj sw = k8s_NamespacedNameOf x.
Proof.
  intros Hall. revert st. induction Hall as [|x proxies Hx _ IH]; intros st Heq.
  - cbn in Heq. simplify_eq. exists []. rewrite app_nil_r.
    split_and!; [done | done |]. by intros x ?%elem_of_nil.
  - cbn [computeHTTPProxies_loop] in Heq.
    destruct (computeHTTPProxy fuel p x st) as [st1| |] eqn:Hstep; [| done..]. cbn in Heq.
    apply computeHTTPProxy_commits in Hstep as (earlier & sw & Hst1 & Hobj & Hearlier).
    apply IH in Heq as (added & Hst' & Hadded & Hevery).
    exists ((earlier ++ [sw]) ++ added). split_and!.
    + by rewrite Hst', Hst1, <-!app_assoc.
    + apply Forall_app. split; [| done]. apply Forall_app. split; [done |].
      constructor; [| done]. rewrite Hobj. by apply list_elem_of_fmap_2.
    + intros y [->|Hy]%elem_of_cons.
      * exists sw. split; [| done]. apply elem_of_app. left. apply elem_of_app. right. left.
      * destruct (Hevery y Hy) as (sw0 & Hsw0 & Hobj0). exists sw0. split; [| done].
        apply elem_of_app. by right.
Qed.

(** X18.  The statuses of a run.  A run that returns has only added
    to the status log of the builder; every status it added belongs to
    a document of the snapshot; and every document of the snapshot got
    at least one: a conflicting root from [validHTTPProxies], every
    other document from its own [computeHTTPProxy].  The processor's
    orphan set is empty again. *)
Theorem Run_statuses p st st' :
  Run p st = Done st' →
  orphaned st' = ∅ ∧
  ∃ added,
    statuses st' = statuses st ++ added ∧
    (∀ sw, sw ∈ added → osw_obj sw ∈ snapshotKeys (Source p)) ∧
    (∀ d, d ∈ httpproxies (Source p) →
       ∃ sw, sw ∈ added ∧ osw_obj sw = k8s_NamespacedNameOf d).
Proof.
  intros Hrun. unfold Run in Hrun.
  set (st0 := set_orphaned (λ _, ∅) st) in *.
  destruct (computeHTTPProxies (walkBudget p) p st0) as [st1| |] eqn:Hwalk; [| done..].
  cbn in Hrun. simplify_eq. split; [done |].
  unfold computeHTTPProxies in Hwalk.
  pose proof (validHTTPProxies_members p st0) as Hvalid.
  pose proof (validHTTPProxies_log p st0) as (log & Hlog & Hconf).
  pose proof (validHTTPProxies_in_snapshot p st0) as Hsnap.
  pose proof (validHTTPProxies_spec p st0) as (_ & (log' & Hlog' & Hconf') & _).
  destruct (validHTTPProxies p st0) as [valid stv] eqn:Hv. cbn in *.
  rewrite Hlog in Hlog'. apply app_inv_head in Hlog'. subst log'.
  apply computeHTTPProxies_loop_commits in Hwalk as (added & Hst1 & Hadded & Hevery);
    [| done].
  exists (log ++ added
          ++ (orphanedStatus
              <$> omap (lookupHTTPProxy (Source p)) (range_keys (elements (orphaned st1))))).
  split_and!.
  - rewrite reportOrphaned_spec, Hst1, Hlog. by rewrite <-!app_assoc.
  - intros sw [Hsw|[Hsw|Hsw]%elem_of_app]%elem_of_app.
    + destruct (Hconf sw Hsw) as (f & x & _ & Hx & ->). cbn.
      apply list_elem_of_filter in Hx as [_ Hx]. by apply list_elem_of_fmap_2.
    + by eapply Forall_forall in Hadded.
    + apply list_elem_of_fmap in Hsw as (d & -> & Hd).
      apply list_elem_of_omap in Hd as (k & _ & Hlook). cbn.
      by eapply lookupHTTPProxy_key.
  - intros d Hd.
    assert (Hfrom : d ∈ valid → ∃ sw,
              sw ∈ log ++ added
                   ++ (orphanedStatus
                       <$> omap (lookupHTTPProxy (Source p))
                             (range_keys (elements (orphaned st1)))) ∧
              osw_obj sw = k8s_NamespacedNameOf d).
    { intros Hin. destruct (Hevery d Hin) as (sw & Hsw & Hobj). exists sw. split; [| done].
      apply elem_of_app. right. apply elem_of_app. by left. }
    destruct (projcontour.Spec_VirtualHost d) as [vh|] eqn:Hvh.
    2: { apply Hfrom, Hvalid. by auto. }
    set (f := projcontour.Fqdn vh).
    assert (Hf : fqdnOf d = Some f) by (unfold fqdnOf; by rewrite Hvh).
    assert (Hroot : d ∈ rootsOf f (httpproxies (Source p))).
    { by apply list_elem_of_filter. }
    destruct (rootsOf f (httpproxies (Source p))) as [|a [|b l]] eqn:Hroots.
    + by apply elem_of_nil in Hroot.
    + apply list_elem_of_singleton in Hroot. subst a.
      apply Hfrom, Hvalid. split; [done |]. right. by exists f.
    + exists (conflictStatus f (conflictMessage f (a :: b :: l)) d). split; [| done].
      apply elem_of_app. left. specialize (Hconf' f d). rewrite Hroots in Hconf'.
      apply Hconf'; [cbn; lia | done].
Qed.

End valid_set.


(** ** The graph outside the valid roots *)

Section run_frame.
Context `{Collaborators}.

Implicit Types (p : HTTPProxyProcessor) (st : RunState).

Lemma reportOrphaned_frame p metas st :
  virtualhosts (reportOrphaned p metas st) = virtualhosts st ∧
  securevirtualhosts (reportOrphaned p metas st) = securevirtualhosts st ∧
  serviceLookups (reportOrphaned p metas st) = serviceLookups st.
Proof.
  unfold reportOrphaned. revert st.
  induction metas as [|meta metas IH]; intros st; cbn [foldl]; [done |].
  destruct (IH (match lookupHTTPProxy (Source p) meta with
                | Some proxy => commit (orphanedStatus proxy) st
                | None => st
                end)) as (-> & -> & ->).
  by destruct (lookupHTTPProxy (Source p) meta).
Qed.

(** X20.  A run changes the virtual hosts, insecure and secure, of no
    FQDN other than those of the roots of the valid set: the virtual
    hosts of an FQDN that no root carries, or that two or more roots
    carry, are after the run what they were before it. *)
Theorem Run_graph_frame p st st' f :
  Run p st = Done st' →
  (∀ r, validRoot (Source p) r → fqdnOf r ≠ Some f) →
  virtualhosts st' !! f = virtualhosts st !! f ∧
  securevirtualhosts st' !! f = securevirtualhosts st !! f.
Proof.
  intros Hrun Hno. unfold Run in Hrun.
  set (st0 := set_orphaned (λ _, ∅) st) in *.
  destruct (computeHTTPProxies (walkBudget p) p st0) as [st1| |] eqn:Hwalk; [| done..].
  cbn in Hrun. simplify_eq. cbn.
  destruct (reportOrphaned_frame p (range_keys (elements (orphaned st1))) st1) as (-> & -> & _).
  unfold computeHTTPProxies in Hwalk.
  destruct (validHTTPProxies_spec p st0) as ((roots & Hvalid & Hroots) & _ & Hv & Hs & _).
  destruct (validHTTPProxies p st0) as [valid stv]. cbn in *. subst valid.
  rewrite <-Hv, <-Hs.
  eapply (computeHTTPProxies_loop_R
            (λ a b, virtualhosts b !! f = virtualhosts a !! f ∧
                    securevirtualhosts b !! f = securevirtualhosts a !! f));
    [done | by intros ??? [-> ->] [-> ->] | | exact Hwalk].
  intros x sta stb [Hx|Hx]%elem_of_app Hstep.
  - apply list_elem_of_filter in Hx as [Hleaf _].
    rewrite computeHTTPProxy_leaf in Hstep by done. by simplify_eq.
  - apply Hroots in Hx as Hv'. apply validRoot_root in Hv' as (vh & Hvh & _).
    eapply computeHTTPProxy_root_graph; [exact Hvh | | exact Hstep].
    intros Heq. apply (Hno x); [by apply Hroots |]. unfold fqdnOf. rewrite Hvh. cbn.
    by rewrite Heq.
Qed.

End run_frame.


(** ** The leaves that the walks reach *)

Section reach.
Context `{Collaborators}.

Implicit Types (p : HTTPProxyProcessor) (st : RunState) (sw : ObjectStatusWriter).





















End reach.


(** * The properties on explicit snapshots *)

#[local] Existing Instance Demo.env.
#[local] Existing Instance Demo.collaborators.

(** C4 on the route [/foo] with rewrite [/bar]: alone it is replaced
    by the pair and nothing stands around it; next to a route with an
    exact match the call panics. *)
Lemma expandPrefixMatches_law_witness :
  (∃ out, expandPrefixMatches [Demo.fooRoute] = Done out ∧
     ∃ pre post, out = pre ++ expandedPair "/foo" Demo.fooRoute ++ post ∧
       pre ++ post ≡ₚ []) ∧
  groupOf "/foo" [Demo.fooRoute; Demo.exactRoute] = [Demo.fooRoute] ∧
  expandPrefixMatches [Demo.fooRoute; Demo.exactRoute] = Panicked.
Proof.
  assert (Hall : Forall (λ r, HasPathPrefix r = true) [Demo.fooRoute])
    by (repeat constructor).
  split.
  - destruct (expandPrefixMatches_law [Demo.fooRoute]) as [Hlaw _].
    destruct (Hlaw Hall) as (out & Hout & _ & Hone & _).
    exists out. split; [exact Hout |].
    destruct (Hone "/foo" Demo.fooRoute) as (pre & post & Hblock & Hrest);
      [reflexivity | discriminate | discriminate |].
    exists pre, post. split; [exact Hblock |]. exact (Hrest [] [] eq_refl).
  - split; [reflexivity |].
    destruct (expandPrefixMatches_law [Demo.fooRoute; Demo.exactRoute]) as [_ Hpanic].
    apply (Hpanic Demo.exactRoute); [right; left | reflexivity].
Defined.

(** C5 on a single route with an exact match. *)
Lemma expandPrefixMatches_panics_witness :
  Demo.exactRoute ∈ [Demo.exactRoute] ∧ HasPathPrefix Demo.exactRoute = false ∧
  expandPrefixMatches [Demo.exactRoute] = Panicked.
Proof.
  split; [left |]. split; [reflexivity |].
  apply (expandPrefixMatches_panics [Demo.exactRoute] Demo.exactRoute); [left | reflexivity].
Defined.

(** C7 on a root behind TLS whose route does not permit insecure
    traffic: the bit is set. *)
Lemma computeRoutes_HTTPSUpgrade_witness :
  ∃ routes sw' st' r,
    computeRoutes 3 Demo.simple_p (WithObject Demo.simple_R) Demo.simple_R [] [] true
      Demo.emptyState = Done (routes, sw', st') ∧
    r ∈ routes ∧ HTTPSUpgrade r = true ∧
    (∃ hp conds route sw0 st0 built sw1 st1,
       hp ∈ Demo.simple_R :: httpproxies (Source Demo.simple_p) ∧
       route ∈ projcontour.Spec_Routes hp ∧
       computeRoutes_route Demo.simple_p hp conds true route sw0 st0
       = (Some built, sw1, st1) ∧
       expandedFrom built r ∧
       HTTPSUpgrade r
       = true && negb (projcontour.rt_PermitInsecure route
                       && negb (DisablePermitInsecure Demo.simple_p))) ∧
    (DisablePermitInsecure Demo.simple_p = true → HTTPSUpgrade r = true).
Proof.
  eexists _, _, _, _.
  split; [vm_compute; reflexivity |]. split; [left |]. split; [reflexivity |].
  eapply (computeRoutes_HTTPSUpgrade 3 Demo.simple_p (WithObject Demo.simple_R)
            Demo.simple_R [] [] true Demo.emptyState); [reflexivity | left].
Defined.


(** C6 as stated fails: the first and the third include of this root
    carry the same condition, yet the duplicate check passes and the
    root is valid with the routes of all three leaves. *)
Lemma includeMatchConditionsIdentical_counterexample :
  (∃ a b,
     projcontour.Spec_Includes Demo.apart_R !! 0 = Some a ∧
     projcontour.Spec_Includes Demo.apart_R !! 2 = Some b ∧
     projcontour.inc_Conditions a = projcontour.inc_Conditions b) ∧
  includeMatchConditionsIdentical (projcontour.Spec_Includes Demo.apart_R) = false ∧
  ∃ routes sw' st',
    computeRoutes 3 Demo.apart_p (WithObject Demo.apart_R) Demo.apart_R [] [] false
      Demo.emptyState = Done (routes, sw', st') ∧
    length routes = 3 ∧ osw_calls sw' = [CallSetValid].
Proof.
  split; [eexists _, _; by split_and! |]. split; [reflexivity |].
  eexists _, _, _. split; [vm_compute; reflexivity |]. split; reflexivity.
Defined.

(** C6 as the code has it, on two neighbouring includes with the same
    condition. *)
Lemma includeMatchConditionsIdentical_adjacent_witness :
  existsb (λ v, sameObject v Demo.adjacent_R) [] = false ∧
  includeMatchConditionsIdentical (projcontour.Spec_Includes Demo.adjacent_R) = true ∧
  computeRoutes 1 Demo.adjacent_p (WithObject Demo.adjacent_R) Demo.adjacent_R [] [] false
    Demo.emptyState
  = Done ([], SetInvalid (WithObject Demo.adjacent_R)
                "duplicate conditions defined on an include", Demo.emptyState).
Proof.
  split; [reflexivity |]. split; [reflexivity |].
  apply (proj1 (proj2 includeMatchConditionsIdentical_adjacent)); reflexivity.
Defined.

(** C2 as stated fails: the include of the leaf resolves to the root,
    which is on the ancestor path, and the status is not the cycle
    message but the refusal to delegate to a root. *)
Lemma include_cycle_counterexample :
  lookupHTTPProxy (Source Demo.backToRoot_p)
    (includeTarget Demo.backToRoot_L (Demo.include "a" "R" "/r")) = Some Demo.backToRoot_R ∧
  existsb (λ v, sameObject v Demo.backToRoot_R) [Demo.backToRoot_R; Demo.backToRoot_L] = true ∧
  computeRoutes 2 Demo.backToRoot_p (WithObject Demo.backToRoot_L) Demo.backToRoot_L []
    [Demo.backToRoot_R] false Demo.emptyState
  = Done ([], SetInvalid (WithObject Demo.backToRoot_L)
                "root httpproxy cannot delegate to another root httpproxy", Demo.emptyState) ∧
  SetInvalid (WithObject Demo.backToRoot_L)
    "root httpproxy cannot delegate to another root httpproxy"
  ≠ SetInvalid (WithObject Demo.backToRoot_L)
      ("include creates a delegation cycle: "
       +:+ cyclePath [Demo.backToRoot_R; Demo.backToRoot_L] Demo.backToRoot_R).
Proof.
  split; [reflexivity |]. split; [reflexivity |]. split; [vm_compute; reflexivity |].
  vm_compute. discriminate.
Defined.

(** C2 as the code has it: a cycle among the leaves of the route walk,
    and a TCP proxy leaf that includes itself. *)
Lemma include_cycle_detected_witness :
  (let recurse : walk :=
     λ sw d c v st, computeRoutes 1 Demo.cycle_p sw d c v false st in
   computeRoutes_includes recurse Demo.cycle_p Demo.cycle_L2 []
     [Demo.cycle_R; Demo.cycle_L1; Demo.cycle_L2] [Demo.include "" "L1" "/one"] []
     (WithObject Demo.cycle_L2) Demo.emptyState
   = computeRoutes_includes recurse Demo.cycle_p Demo.cycle_L2 []
       [Demo.cycle_R; Demo.cycle_L1; Demo.cycle_L2] [] []
       (WithObject Demo.cycle_L2)
       (deleteOrphaned (k8s_NamespacedNameOf Demo.cycle_L1)
          (commit (SetInvalid (WithObject Demo.cycle_L1)
                     "include creates a delegation cycle: a/R -> a/L1 -> a/L2 -> a/L1")
             Demo.emptyState))) ∧
  processHTTPProxyTCPProxy 1 Demo.tcpCycle_p (WithObject Demo.tcpCycle_LT) Demo.tcpCycle_LT
    [Demo.tcpCycle_T] "ex.com" Demo.emptyState
  = Done (false,
          SetInvalid (WithObject Demo.tcpCycle_LT)
            "tcpproxy include creates a cycle: a/T -> a/LT -> a/LT",
          deleteOrphaned (k8s_NamespacedNameOf Demo.tcpCycle_LT) Demo.emptyState).
Proof.
  split.
  - apply (proj1 include_cycle_detected 0 Demo.cycle_p Demo.cycle_L2 []
             [Demo.cycle_R; Demo.cycle_L1; Demo.cycle_L2] false
             (Demo.include "" "L1" "/one") [] [] (WithObject Demo.cycle_L2) Demo.emptyState
             Demo.cycle_L1); reflexivity.
  - apply (proj1 (proj2 include_cycle_detected) 0 Demo.tcpCycle_p (WithObject Demo.tcpCycle_LT)
             Demo.tcpCycle_LT [Demo.tcpCycle_T] "ex.com" Demo.emptyState
             (Demo.tcpInclude "" "LT")
             {| projcontour.tpi_Name := "LT"; projcontour.tpi_Namespace := "" |}
             Demo.tcpCycle_LT); reflexivity.
Defined.

(** C8 on port 0: the route walk refuses the service without a lookup;
    the TCP proxy walk looks the service up, and only the failed lookup
    makes the document invalid. *)
Lemma tcpproxy_port_unchecked_witness :
  (projcontour.svc_Port (Demo.service "svc" 0) < 1
   ∨ projcontour.svc_Port (Demo.service "svc" 0) > 65535)%Z ∧
  computeRoutes_services Demo.port0_T (Demo.route "/" [Demo.service "svc" 0])
    [Demo.service "svc" 0] Demo.fooRoute (WithObject Demo.port0_T) Demo.emptyState
  = (None,
     SetInvalid (WithObject Demo.port0_T)
       ("service " +:+ Demo.quote "svc" +:+ ": port must be in the range 1-65535"),
     Demo.emptyState) ∧
  ∃ later,
    serviceLookups
      (tcpproxy_services Demo.port0_T (Demo.tcpServices [Demo.service "svc" 0])
         [Demo.service "svc" 0] [] (WithObject Demo.port0_T) Demo.emptyState).2
    = serviceLookups Demo.emptyState
      ++ ({| nn_Namespace := "a"; nn_Name := "svc" |}, 0%Z) :: later.
Proof.
  assert (Hport : (projcontour.svc_Port (Demo.service "svc" 0) < 1
                   ∨ projcontour.svc_Port (Demo.service "svc" 0) > 65535)%Z)
    by (left; reflexivity).
  split; [exact Hport |].
  exact (tcpproxy_port_unchecked Demo.port0_T (Demo.route "/" [Demo.service "svc" 0])
           (Demo.service "svc" 0) [] Demo.fooRoute (WithObject Demo.port0_T) Demo.emptyState
           Demo.port0_T (Demo.tcpServices [Demo.service "svc" 0]) [] Hport).
Defined.

(** The same on a port that narrows to 80: the TCP proxy walk accepts
    the service and attaches the TCP proxy to the secure virtual host. *)
Lemma tcpproxy_wide_port_accepted :
  ∃ st',
    processHTTPProxyTCPProxy 1 Demo.wide_p (WithObject Demo.wide_T) Demo.wide_T [] "ex.com"
      Demo.emptyState = Done (true, WithObject Demo.wide_T, st') ∧
    serviceLookups st' = [({| nn_Namespace := "a"; nn_Name := "svc" |}, 80%Z)] ∧
    is_Some (securevirtualhosts st' !! "ex.com" ≫= svh_TCPProxy).
Proof.
  eexists. split; [vm_compute; reflexivity |]. split; [reflexivity |].
  vm_compute. by eexists.
Defined.

(** C10 on a snapshot that [range] visits as leaf, root, leaf: both
    leaves come first in the valid set. *)
Lemma leaves_before_roots_example :
  (validHTTPProxies Demo.simple_p Demo.emptyState).1
  = [Demo.simple_L; Demo.simple_L2; Demo.simple_R].
Proof. reflexivity. Qed.

(** C1 on two roots that claim [ex.com]. *)
Lemma fqdn_conflict_witness :
  Demo.conflictTwo ∈ httpproxies (Source Demo.conflict_p) ∧
  fqdnOf Demo.conflictTwo = Some "ex.com" ∧
  2 ≤ length (rootsOf "ex.com" (httpproxies (Source Demo.conflict_p))) ∧
  ∃ names,
    Sorted String.le names ∧
    names ≡ₚ (nameOf <$> rootsOf "ex.com" (httpproxies (Source Demo.conflict_p))) ∧
    (conflictStatus "ex.com"
       ("fqdn " +:+ strconv_Quote "ex.com" +:+ " is used in multiple HTTPProxies: "
        +:+ strings.Join names ", ") Demo.conflictTwo
     ∈ statuses ((validHTTPProxies Demo.conflict_p Demo.emptyState).2)) ∧
    (Demo.conflictTwo ∉ (validHTTPProxies Demo.conflict_p Demo.emptyState).1) ∧
    ∀ fuel st', computeHTTPProxies fuel Demo.conflict_p Demo.emptyState = Done st' →
      virtualhosts st' !! "ex.com" = virtualhosts Demo.emptyState !! "ex.com" ∧
      securevirtualhosts st' !! "ex.com" = securevirtualhosts Demo.emptyState !! "ex.com".
Proof.
  assert (H1 : Demo.conflictTwo ∈ httpproxies (Source Demo.conflict_p)) by left.
  assert (H2 : fqdnOf Demo.conflictTwo = Some "ex.com") by reflexivity.
  assert (H3 : 2 ≤ length (rootsOf "ex.com" (httpproxies (Source Demo.conflict_p))))
    by (vm_compute; lia).
  split; [exact H1 |]. split; [exact H2 |]. split; [exact H3 |].
  exact (fqdn_conflict Demo.conflict_p Demo.emptyState "ex.com" Demo.conflictTwo H1 H2 H3).
Defined.



(** X1 on the root with one include and one route of its own. *)
Lemma computeRoutes_verdict_witness :
  ∃ routes sw' st',
    computeRoutes 3 Demo.simple_p (WithObject Demo.simple_R) Demo.simple_R [] [] false
      Demo.emptyState = Done (routes, sw', st') ∧
    length routes = 2 ∧
    (sw' = SetValid (WithObject Demo.simple_R)
     ∨ (routes = [] ∧ ∃ msg, sw' = SetInvalid (WithObject Demo.simple_R) msg)) ∧
    osw_obj sw' = osw_obj (WithObject Demo.simple_R) ∧
    (routes ≠ [] → last (osw_calls sw') = Some CallSetValid).
Proof.
  eexists _, _, _. split; [vm_compute; reflexivity |]. split; [reflexivity |].
  eapply (computeRoutes_verdict 3 Demo.simple_p (WithObject Demo.simple_R) Demo.simple_R
            [] [] false Demo.emptyState); reflexivity.
Defined.

(** X2 on a TCP proxy that is delegated twice: the walk passes and
    commits a valid status for each of the two documents below the
    root. *)
Lemma processHTTPProxyTCPProxy_verdict_witness :
  ∃ st',
    processHTTPProxyTCPProxy 3 Demo.tcpChain_p (WithObject Demo.tcpChain_T) Demo.tcpChain_T
      [] "ex.com" Demo.emptyState = Done (true, WithObject Demo.tcpChain_T, st') ∧
    ∃ added, statuses st' = statuses Demo.emptyState ++ added ∧
      WithObject Demo.tcpChain_T = WithObject Demo.tcpChain_T ∧
      Forall (λ s, osw_calls s = [CallSetValid]) added ∧
      ∃ chain, tcpChain (Source Demo.tcpChain_p) Demo.tcpChain_T chain ∧
        added = (λ d, SetValid (WithObject d)) <$> reverse chain.
Proof.
  destruct (processHTTPProxyTCPProxy 3 Demo.tcpChain_p (WithObject Demo.tcpChain_T)
              Demo.tcpChain_T [] "ex.com" Demo.emptyState) as [[[ok sw'] st']| |] eqn:Heq;
    [| exfalso; vm_compute in Heq; discriminate..].
  assert (Hok : ok = true ∧ sw' = WithObject Demo.tcpChain_T).
  { apply (f_equal (λ o, match o with Done (ok, sw, _) => Some (ok, sw) | _ => None end))
      in Heq. vm_compute in Heq. injection Heq as <- <-. by split. }
  destruct Hok as [-> ->]. exists st'. split; [reflexivity |].
  exact (processHTTPProxyTCPProxy_verdict 3 Demo.tcpChain_p (WithObject Demo.tcpChain_T)
           Demo.tcpChain_T [] "ex.com" Demo.emptyState true (WithObject Demo.tcpChain_T)
           st' Heq).
Defined.

(** X3 on a root outside the root namespaces, a root with a blank
    FQDN, a root with a wildcard and a root with an empty spec. *)
Lemma computeHTTPProxy_early_checks_witness :
  computeHTTPProxy 1 Demo.restricted_p Demo.simple_R Demo.emptyState
  = Done (commit (SetInvalid (WithObject Demo.simple_R)
                    "root HTTPProxy cannot be defined in this namespace")
            Demo.emptyState) ∧
  computeHTTPProxy 1 Demo.simple_p Demo.blank_R Demo.emptyState
  = Done (commit (SetInvalid (WithObject Demo.blank_R)
                    "Spec.VirtualHost.Fqdn must be specified") Demo.emptyState) ∧
  computeHTTPProxy 1 Demo.simple_p Demo.wild_R Demo.emptyState
  = Done (commit (SetInvalid (WithValue (WithObject Demo.wild_R) "vhost" "*.ex.com")
                    ("Spec.VirtualHost.Fqdn " +:+ strconv_Quote "*.ex.com"
                     +:+ " cannot use wildcards")) Demo.emptyState) ∧
  computeHTTPProxy 1 Demo.simple_p Demo.empty_R Demo.emptyState
  = Done (commit (SetInvalid (WithValue (WithObject Demo.empty_R) "vhost" "ex.com")
                    "HTTPProxy.Spec must have at least one Route, Include, or a TCPProxy")
            Demo.emptyState).
Proof.
  split_and!.
  - pose proof (computeHTTPProxy_early_checks 1 Demo.restricted_p Demo.simple_R
                  {| projcontour.Fqdn := "ex.com"; projcontour.vh_TLS := None |}
                  Demo.emptyState eq_refl) as Hchecks.
    cbn zeta in Hchecks. destruct Hchecks as (Hns & _). apply Hns.
    by intros [?|?%list_elem_of_singleton].
  - pose proof (computeHTTPProxy_early_checks 1 Demo.simple_p Demo.blank_R
                  {| projcontour.Fqdn := ""; projcontour.vh_TLS := None |}
                  Demo.emptyState eq_refl) as Hchecks.
    cbn zeta in Hchecks. destruct Hchecks as (_ & Hblank & _).
    apply Hblank; [by left | reflexivity].
  - pose proof (computeHTTPProxy_early_checks 1 Demo.simple_p Demo.wild_R
                  {| projcontour.Fqdn := "*.ex.com"; projcontour.vh_TLS := None |}
                  Demo.emptyState eq_refl) as Hchecks.
    cbn zeta in Hchecks. destruct Hchecks as (_ & _ & Hwild & _).
    apply Hwild; [by left | reflexivity | reflexivity].
  - pose proof (computeHTTPProxy_early_checks 1 Demo.simple_p Demo.empty_R
                  {| projcontour.Fqdn := "ex.com"; projcontour.vh_TLS := None |}
                  Demo.emptyState eq_refl) as Hchecks.
    cbn zeta in Hchecks. destruct Hchecks as (_ & _ & _ & Hempty).
    apply Hempty; [by left | reflexivity..].
Defined.

(** X4 on a stanza that names a secret: the secure virtual host of the
    FQDN carries it. *)
Lemma computeHTTPProxy_tls_accepted_witness :
  ∃ sw' st' sec,
    computeHTTPProxy_tls Demo.simple_p (WithObject Demo.simple_R) Demo.simple_R "ex.com"
      Demo.secretTLS Demo.emptyState = (true, sw', st') ∧
    sw' = WithObject Demo.simple_R ∧
    isBlank (projcontour.SecretName Demo.secretTLS) = false ∧
    LookupSecret (k8s_NamespacedNameFrom "cert" "a") validSecret = inr sec ∧
    svh_Secret (secureNode "ex.com" st') = Some sec ∧
    MinTLSVersion (secureNode "ex.com" st') = Some (annotation_MinTLSVersion "1.2") ∧
    svh_FallbackCertificate (secureNode "ex.com" st')
    = svh_FallbackCertificate (secureNode "ex.com" Demo.emptyState) ∧
    DownstreamValidation (secureNode "ex.com" st')
    = DownstreamValidation (secureNode "ex.com" Demo.emptyState).
Proof.
  destruct (computeHTTPProxy_tls Demo.simple_p (WithObject Demo.simple_R) Demo.simple_R
              "ex.com" Demo.secretTLS Demo.emptyState) as [[ok sw'] st'] eqn:Heq.
  assert (Hok : ok = true).
  { apply (f_equal (λ x, x.1.1)) in Heq. cbn [fst] in Heq. rewrite <-Heq.
    vm_compute. reflexivity. }
  subst ok.
  destruct (computeHTTPProxy_tls_accepted Demo.simple_p (WithObject Demo.simple_R)
              Demo.simple_R "ex.com" Demo.secretTLS Demo.emptyState sw' st' Heq)
    as (Hsw & Hblank & sec & Hsec & _ & Hattached & Hmin & Hfb & Hdv).
  exists sw', st', sec. split; [reflexivity |]. split; [exact Hsw |].
  split; [exact Hblank |]. split; [exact Hsec |]. split; [exact Hattached |].
  split; [exact Hmin |]. split; [exact Hfb | exact Hdv].
Defined.

(** X5 on a stanza that asks for the fallback certificate and client
    validation together: it is refused, and the secure virtual host
    is in the graph with the secret. *)
Lemma computeHTTPProxy_tls_secret_first_witness :
  projcontour.Passthrough Demo.fallbackAndValidationTLS = false ∧
  isBlank (projcontour.SecretName Demo.fallbackAndValidationTLS) = false ∧
  LookupSecret (k8s_NamespacedNameFrom "cert" "a") validSecret = inr "cert" ∧
  DelegationPermitted (k8s_NamespacedNameFrom "cert" "a") "a" = true ∧
  ∃ sw' st',
    computeHTTPProxy_tls Demo.simple_p (WithObject Demo.simple_R) Demo.simple_R "ex.com"
      Demo.fallbackAndValidationTLS Demo.emptyState = (false, sw', st') ∧
    is_Some (securevirtualhosts st' !! "ex.com") ∧
    svh_Secret (secureNode "ex.com" st') = Some "cert" ∧
    sw' = SetInvalid (WithObject Demo.simple_R)
            "Spec.Virtualhost.TLS fallback & client validation are incompatible together".
Proof.
  assert (Hpass : projcontour.Passthrough Demo.fallbackAndValidationTLS = false)
    by reflexivity.
  assert (Hblank : isBlank (projcontour.SecretName Demo.fallbackAndValidationTLS) = false)
    by reflexivity.
  assert (Hlook : LookupSecret (k8s_NamespacedNameFrom "cert" "a") validSecret = inr "cert")
    by reflexivity.
  assert (Hdel : DelegationPermitted (k8s_NamespacedNameFrom "cert" "a") "a" = true)
    by reflexivity.
  split; [exact Hpass |]. split; [exact Hblank |]. split; [exact Hlook |].
  split; [exact Hdel |].
  destruct (computeHTTPProxy_tls Demo.simple_p (WithObject Demo.simple_R) Demo.simple_R
              "ex.com" Demo.fallbackAndValidationTLS Demo.emptyState)
    as [[ok sw'] st'] eqn:Heq.
  destruct (computeHTTPProxy_tls_secret_first Demo.simple_p (WithObject Demo.simple_R)
              Demo.simple_R "ex.com" Demo.fallbackAndValidationTLS Demo.emptyState
              "cert" ok sw' st' Hpass Hblank Hlook Hdel Heq)
    as (Hsome & Hsec & _ & Hrefused).
  destruct Hrefused as [-> ->]; [reflexivity | by eexists |].
  eexists _, st'. split; [reflexivity |]. split; [exact Hsome |]. split; [exact Hsec |].
  reflexivity.
Defined.

(** X6 on the root with one include: its vhost value, then its
    verdict, committed after the status of the leaf. *)
Lemma computeHTTPProxy_status_witness :
  ∃ st',
    computeHTTPProxy 3 Demo.simple_p Demo.simple_R Demo.emptyState = Done st' ∧
    ∃ earlier calls,
      statuses st'
      = statuses Demo.emptyState ++ earlier
        ++ [{| osw_obj := k8s_NamespacedNameOf Demo.simple_R; osw_calls := calls |}] ∧
      ∃ pre verdict,
        calls = pre ++ verdict ∧
        (pre = [] ∨ pre = [CallWithValue "vhost" "ex.com"]) ∧
        (verdict = [CallSetValid] ∨ (∃ msg, verdict = [CallSetInvalid msg]) ∨
         (verdict = [] ∧ is_Some (projcontour.Spec_TCPProxy Demo.simple_R))).
Proof.
  destruct (computeHTTPProxy 3 Demo.simple_p Demo.simple_R Demo.emptyState)
    as [st'| |] eqn:Heq; [| exfalso; vm_compute in Heq; discriminate..].
  exists st'. split; [reflexivity |].
  exact (computeHTTPProxy_status 3 Demo.simple_p Demo.simple_R Demo.emptyState st' Heq).
Defined.

(** X7 on the same root, which has no TLS stanza: its routes go to the
    insecure virtual host only. *)
Lemma computeHTTPProxy_routes_placed_witness :
  projcontour.Spec_VirtualHost Demo.simple_R = Some Demo.plainHost ∧
  ∃ st',
    computeHTTPProxy 3 Demo.simple_p Demo.simple_R Demo.emptyState = Done st' ∧
    ∃ routes,
      insecureRoutes "ex.com" st' = insecureRoutes "ex.com" Demo.emptyState ++ routes ∧
      secureRoutes "ex.com" st'
      = secureRoutes "ex.com" Demo.emptyState
        ++ (if bool_decide (is_Some (projcontour.vh_TLS Demo.plainHost))
               && bool_decide (projcontour.Spec_TCPProxy Demo.simple_R = None)
            then routes else []) ∧
      (projcontour.vh_TLS Demo.plainHost = None →
       securevirtualhosts st' = securevirtualhosts Demo.emptyState) ∧
      ∃ own,
        last (statuses st') = Some own ∧ osw_obj own = k8s_NamespacedNameOf Demo.simple_R ∧
        (last (osw_calls own) = Some CallSetValid →
         ∀ sw0 st0, ∃ sw1 st1,
           computeRoutes 3 Demo.simple_p sw0 Demo.simple_R [] []
             (bool_decide (is_Some (projcontour.vh_TLS Demo.plainHost))) st0
           = Done (routes, sw1, st1)) ∧
        (last (osw_calls own) ≠ Some CallSetValid → routes = []).
Proof.
  assert (Hvh : projcontour.Spec_VirtualHost Demo.simple_R = Some Demo.plainHost)
    by reflexivity.
  split; [exact Hvh |].
  destruct (computeHTTPProxy 3 Demo.simple_p Demo.simple_R Demo.emptyState)
    as [st'| |] eqn:Heq; [| exfalso; vm_compute in Heq; discriminate..].
  exists st'. split; [reflexivity |].
  exact (computeHTTPProxy_routes_placed 3 Demo.simple_p Demo.simple_R Demo.plainHost
           Demo.emptyState st' Hvh Heq).
Defined.

(** X8 on the cluster of the root's own route. *)
Lemma computeRoutes_cluster_upstream_witness :
  ∃ routes sw' st' r c,
    computeRoutes 3 Demo.simple_p (WithObject Demo.simple_R) Demo.simple_R [] [] true
      Demo.emptyState = Done (routes, sw', st') ∧
    r ∈ routes ∧ (c ∈ Clusters r ∨ MirrorPolicy r = Some c) ∧
    ∃ hp route service,
      hp ∈ Demo.simple_R :: httpproxies (Source Demo.simple_p) ∧
      route ∈ projcontour.Spec_Routes hp ∧
      service ∈ projcontour.rt_Services route ∧
      portInRange service ∧
      lookupService (serviceLookup hp service).1 (serviceLookup hp service).2
      = inr (Upstream c) ∧
      Weight c = (projcontour.svc_Weight service `mod` 2 ^ 32)%Z ∧
      (0 ≤ Weight c < 2 ^ 32)%Z.
Proof.
  eexists _, _, _, _, _.
  split; [vm_compute; reflexivity |]. split; [left |]. split; [left; left |].
  eapply (computeRoutes_cluster_upstream 3 Demo.simple_p (WithObject Demo.simple_R)
            Demo.simple_R [] [] true Demo.emptyState); [reflexivity | left | left; left].
Defined.

(** X9 on the routes of the root with one include: the clusters stand
    for the entries of their routes, and there is no mirror. *)
Lemma computeRoutes_cluster_protocol_witness :
  ∃ routes sw' st' r,
    computeRoutes 3 Demo.simple_p (WithObject Demo.simple_R) Demo.simple_R [] [] true
      Demo.emptyState = Done (routes, sw', st') ∧
    r ∈ routes ∧
    ∃ hp route,
      hp ∈ Demo.simple_R :: httpproxies (Source Demo.simple_p) ∧
      route ∈ projcontour.Spec_Routes hp ∧
      Forall2 (speaksFor hp) (plainOf (projcontour.rt_Services route)) (Clusters r) ∧
      match MirrorPolicy r with
      | Some c =>
          ∃ service,
            mirrorsOf (projcontour.rt_Services route) = [service] ∧ speaksFor hp service c
      | None => mirrorsOf (projcontour.rt_Services route) = []
      end.
Proof.
  eexists _, _, _, _.
  split; [vm_compute; reflexivity |]. split; [left |].
  eapply (computeRoutes_cluster_protocol 3 Demo.simple_p (WithObject Demo.simple_R)
            Demo.simple_R [] [] true Demo.emptyState); [reflexivity | left].
Defined.

(** X10 on a route with one service. *)
Lemma computeRoutes_route_lookups_witness :
  ∃ res sw' st',
    computeRoutes_route Demo.simple_p Demo.simple_R [] false
      (Demo.route "/" [Demo.service "svc" 80]) (WithObject Demo.simple_R) Demo.emptyState
    = (res, sw', st') ∧
    ∃ looked,
      looked `prefix_of` projcontour.rt_Services (Demo.route "/" [Demo.service "svc" 80]) ∧
      Forall portInRange looked ∧
      serviceLookups st'
      = serviceLookups Demo.emptyState ++ (serviceLookup Demo.simple_R <$> looked) ∧
      (is_Some res →
       looked = projcontour.rt_Services (Demo.route "/" [Demo.service "svc" 80])) ∧
      virtualhosts st' = virtualhosts Demo.emptyState ∧
      securevirtualhosts st' = securevirtualhosts Demo.emptyState ∧
      orphaned st' = orphaned Demo.emptyState ∧ statuses st' = statuses Demo.emptyState.
Proof.
  destruct (computeRoutes_route Demo.simple_p Demo.simple_R [] false
              (Demo.route "/" [Demo.service "svc" 80]) (WithObject Demo.simple_R)
              Demo.emptyState) as [[res sw'] st'] eqn:Heq.
  exists res, sw', st'. split; [reflexivity |].
  exact (computeRoutes_route_lookups Demo.simple_p Demo.simple_R [] false
           (Demo.route "/" [Demo.service "svc" 80]) (WithObject Demo.simple_R)
           Demo.emptyState res sw' st' Heq).
Defined.

(** X11 on a route with a plain service and a mirror. *)
Lemma computeRoutes_route_mirror_witness :
  ∃ r sw' st',
    computeRoutes_route Demo.simple_p Demo.simple_R [] false Demo.mirrored
      (WithObject Demo.simple_R) Demo.emptyState = (Some r, sw', st') ∧
    let services := projcontour.rt_Services Demo.mirrored in
    length (mirrorsOf services) ≤ 1 ∧
    (is_Some (MirrorPolicy r) ↔ mirrorsOf services ≠ []) ∧
    length (Clusters r) = length (plainOf services) ∧
    length (Clusters r) + length (mirrorsOf services) = length services ∧
    1 ≤ length services.
Proof.
  destruct (computeRoutes_route Demo.simple_p Demo.simple_R [] false Demo.mirrored
              (WithObject Demo.simple_R) Demo.emptyState) as [[[r|] sw'] st'] eqn:Heq;
    [| exfalso; vm_compute in Heq; discriminate].
  exists r, sw', st'. split; [reflexivity |].
  exact (computeRoutes_route_mirror Demo.simple_p Demo.simple_R [] false Demo.mirrored
           (WithObject Demo.simple_R) Demo.emptyState r sw' st' Heq).
Defined.

(** X12 on a TCP proxy with one service on port 0, which the builder
    of the demonstration does not resolve. *)
Lemma processHTTPProxyTCPProxy_services_witness :
  projcontour.Spec_TCPProxy Demo.port0_T = Some (Demo.tcpServices [Demo.service "svc" 0]) ∧
  projcontour.tcp_Services (Demo.tcpServices [Demo.service "svc" 0]) ≠ [] ∧
  ∃ ok sw' st',
    processHTTPProxyTCPProxy 1 Demo.port0_p (WithObject Demo.port0_T) Demo.port0_T []
      "ex.com" Demo.emptyState = Done (ok, sw', st') ∧
    statuses st' = statuses Demo.emptyState ∧
    virtualhosts st' = virtualhosts Demo.emptyState ∧
    orphaned st' = orphaned Demo.emptyState.
Proof.
  assert (Htcp : projcontour.Spec_TCPProxy Demo.port0_T
                 = Some (Demo.tcpServices [Demo.service "svc" 0])) by reflexivity.
  assert (Hsvc : projcontour.tcp_Services (Demo.tcpServices [Demo.service "svc" 0]) ≠ [])
    by discriminate.
  split; [exact Htcp |]. split; [exact Hsvc |].
  destruct (processHTTPProxyTCPProxy_services 0 Demo.port0_p (WithObject Demo.port0_T)
              Demo.port0_T [] "ex.com" Demo.emptyState
              (Demo.tcpServices [Demo.service "svc" 0]) Htcp Hsvc eq_refl eq_refl)
    as (ok & sw' & st' & Hrun & Hst & Hv & Ho & _).
  exists ok, sw', st'. split; [exact Hrun |]. split; [exact Hst |].
  split; [exact Hv | exact Ho].
Defined.

(** X13 on a TCP proxy with both spellings of the include: the
    singular one is followed, and its target is missing. *)
Lemma processHTTPProxyTCPProxy_stanza_witness :
  processHTTPProxyTCPProxy 1 Demo.tcpBoth_p (WithObject Demo.tcpBoth_T) Demo.tcpBoth_T []
    "ex.com" Demo.emptyState
  = Done (false,
          SetInvalid (WithObject Demo.tcpBoth_T) "tcpproxy: include a/missing not found",
          Demo.emptyState).
Proof.
  destruct (processHTTPProxyTCPProxy_stanza 0 Demo.tcpBoth_p (WithObject Demo.tcpBoth_T)
              Demo.tcpBoth_T [] "ex.com" Demo.emptyState) as [_ Hstanza].
  destruct (Hstanza Demo.tcpBoth eq_refl) as (_ & _ & Hmissing).
  exact (Hmissing {| projcontour.tpi_Name := "missing"; projcontour.tpi_Namespace := "" |}
           eq_refl (or_introl eq_refl) eq_refl).
Defined.

(** X14 on the root with one include: the leaf it includes is not in
    the orphan set. *)
Lemma computeRoutes_includes_reached_witness :
  ∃ routes st',
    computeRoutes 3 Demo.simple_p (WithObject Demo.simple_R) Demo.simple_R [] [] false
      (setOrphaned Demo.simple_L Demo.emptyState)
    = Done (routes, SetValid (WithObject Demo.simple_R), st') ∧
    orphaned st' ⊆ orphaned (setOrphaned Demo.simple_L Demo.emptyState) ∧
    ∀ include, include ∈ projcontour.Spec_Includes Demo.simple_R →
      ∃ d, lookupHTTPProxy (Source Demo.simple_p) (includeTarget Demo.simple_R include)
           = Some d ∧
           d ∈ httpproxies (Source Demo.simple_p) ∧
           projcontour.Spec_VirtualHost d = None ∧
           pathMatchConditionsValid (projcontour.inc_Conditions include) = None ∧
           k8s_NamespacedNameOf d ∉ orphaned st'.
Proof.
  destruct (computeRoutes 3 Demo.simple_p (WithObject Demo.simple_R) Demo.simple_R [] []
              false (setOrphaned Demo.simple_L Demo.emptyState))
    as [[[routes sw'] st']| |] eqn:Heq; [| exfalso; vm_compute in Heq; discriminate..].
  assert (Hsw : sw' = SetValid (WithObject Demo.simple_R)).
  { apply (f_equal (λ o, match o with Done (_, sw, _) => Some sw | _ => None end)) in Heq.
    vm_compute in Heq. injection Heq as <-. reflexivity. }
  subst sw'. exists routes, st'. split; [reflexivity |].
  exact (computeRoutes_includes_reached 3 Demo.simple_p (WithObject Demo.simple_R)
           Demo.simple_R [] [] false (setOrphaned Demo.simple_L Demo.emptyState)
           routes st' Heq).
Defined.

(** X15 on a default replacement followed by one for the routing
    prefix: the second one gives the rewrite. *)
Lemma applyPrefixReplacements_order_witness :
  PrefixRewrite (Demo.dagRoute (PrefixMatchCondition "/foo") "") = "" ∧
  PrefixRewrite
    (applyPrefixReplacements "/foo" [Demo.defaultReplacement; Demo.fooReplacement]
       (Demo.dagRoute (PrefixMatchCondition "/foo") ""))
  = "/bar".
Proof.
  assert (Hempty : PrefixRewrite (Demo.dagRoute (PrefixMatchCondition "/foo") "") = "")
    by reflexivity.
  split; [exact Hempty |].
  pose proof (applyPrefixReplacements_order "/foo"
                [Demo.defaultReplacement; Demo.fooReplacement]
                (Demo.dagRoute (PrefixMatchCondition "/foo") "") Hempty) as Horder.
  cbn zeta in Horder. destruct Horder as (Hexact & _).
  apply (Hexact [Demo.defaultReplacement] Demo.fooReplacement []).
  - reflexivity.
  - constructor; [| constructor]. intros [Hne _]. by apply Hne.
  - split; [discriminate | reflexivity].
  - discriminate.
Defined.

(** X16 on three routes without a rewrite to expand. *)
Lemma expandPrefixMatches_unchanged_witness :
  Forall (λ r, HasPathPrefix r = true) Demo.plainRoutes ∧
  Forall (λ r, PrefixRewrite r = "" ∨ prefixOf r = Some "/") Demo.plainRoutes ∧
  ∃ out, expandPrefixMatches Demo.plainRoutes = Done out ∧ out ≡ₚ Demo.plainRoutes ∧
    ∀ prefix, groupOf prefix out = groupOf prefix Demo.plainRoutes.
Proof.
  assert (Hpre : Forall (λ r, HasPathPrefix r = true) Demo.plainRoutes)
    by (repeat constructor).
  assert (Hplain : Forall (λ r, PrefixRewrite r = "" ∨ prefixOf r = Some "/")
                     Demo.plainRoutes).
  { constructor; [by left |]. constructor; [by right |]. constructor; [by left |].
    constructor. }
  split; [exact Hpre |]. split; [exact Hplain |].
  exact (expandPrefixMatches_unchanged Demo.plainRoutes Hpre Hplain).
Defined.

(** X18 on the snapshot of a leaf, a root that includes it and a leaf
    that nothing refers to. *)
Lemma Run_statuses_witness :
  ∃ st',
    Run Demo.simple_p Demo.emptyState = Done st' ∧
    orphaned st' = ∅ ∧
    ∃ added,
      statuses st' = statuses Demo.emptyState ++ added ∧
      (∀ sw, sw ∈ added → osw_obj sw ∈ snapshotKeys (Source Demo.simple_p)) ∧
      (∀ d, d ∈ httpproxies (Source Demo.simple_p) →
         ∃ sw, sw ∈ added ∧ osw_obj sw = k8s_NamespacedNameOf d).
Proof.
  destruct (Run Demo.simple_p Demo.emptyState) as [st'| |] eqn:Heq;
    [| exfalso; vm_compute in Heq; discriminate..].
  exists st'. split; [reflexivity |].
  exact (Run_statuses Demo.simple_p Demo.emptyState st' Heq).
Defined.

(** X19 on the snapshot with a cycle among its leaves. *)
Lemma Run_returns_witness :
  (∀ conds, ∃ prefix, mergePathMatchConditions conds = PrefixMatchCondition prefix) ∧
  ∃ st', Run Demo.cycle_p Demo.emptyState = Done st'.
Proof.
  assert (Hmerged : ∀ conds,
            ∃ prefix, mergePathMatchConditions conds = PrefixMatchCondition prefix).
  { intros conds. cbn.
    destruct (String.concat "" (projcontour.Prefix <$> conds)); by eexists. }
  split; [exact Hmerged |].
  exact (Run_returns Demo.cycle_p Hmerged Demo.emptyState).
Defined.

(** X20 on the two roots that claim [ex.com]: none of them is in the
    valid set, and the virtual hosts of [ex.com] stay as they were. *)
Lemma Run_graph_frame_witness :
  (∀ r, validRoot (Source Demo.conflict_p) r → fqdnOf r ≠ Some "ex.com") ∧
  ∃ st',
    Run Demo.conflict_p Demo.emptyState = Done st' ∧
    virtualhosts st' !! "ex.com" = virtualhosts Demo.emptyState !! "ex.com" ∧
    securevirtualhosts st' !! "ex.com" = securevirtualhosts Demo.emptyState !! "ex.com".
Proof.
  assert (Hno : ∀ r, validRoot (Source Demo.conflict_p) r → fqdnOf r ≠ Some "ex.com").
  { intros r (f & Hf & Hone) Hex. rewrite Hex in Hf. injection Hf as <-.
    vm_compute in Hone. discriminate. }
  split; [exact Hno |].
  destruct (Run Demo.conflict_p Demo.emptyState) as [st'| |] eqn:Heq;
    [| exfalso; vm_compute in Heq; discriminate..].
  exists st'. split; [reflexivity |].
  exact (Run_graph_frame Demo.conflict_p Demo.emptyState st' "ex.com" Heq Hno).
Defined.


